(** * wwwterm: the shell session, its virtual filesystem and tab completion

    A shallow embedding of [Shell] (the session class of the in-browser
    terminal) together with the parts of the file objects, of the parsed
    command and of the command result that the shell relies on.

    JavaScript objects live in a store (a list indexed by reference), so that
    the parent back-pointers, the [children] arrays and the shell's
    [currentDir] pointer alias the same nodes as they do in the program.
    A thrown [TypeError] is an explicit completion; the state reached at
    the moment of the throw is kept, as it is in the browser. *)

From Stdlib Require Import String Ascii ZArith.
From stdpp Require Import base list strings.

Local Open Scope string_scope.
Local Open Scope list_scope.
Local Open Scope Z_scope.
Local Open Scope nat_scope.

(** ** JavaScript string and array primitives used by the shell *)

Module Js.

Fixpoint take_str (n : nat) (s : string) : string :=
  match n, s with
  | S n', String c s' => String c (take_str n' s')
  | _, _ => ""
  end.

Fixpoint drop_str (n : nat) (s : string) : string :=
  match n, s with
  | S n', String _ s' => drop_str n' s'
  | _, _ => s
  end.

(** Relative index of [slice]: negative counts from the end, and the
    result is clamped to [0 .. len]. *)
Definition clampIndex (len : nat) (k : Z) : nat :=
  if (k <? 0)%Z then Z.to_nat (Z.max (Z.of_nat len + k) 0)
  else Z.to_nat (Z.min k (Z.of_nat len)).

(** [s.slice(b, e)] *)
Definition slice (s : string) (b e : Z) : string :=
  let from := clampIndex (String.length s) b in
  let to := clampIndex (String.length s) e in
  take_str (to - from) (drop_str from s).

(** [s.slice(b)] *)
Definition sliceFrom (s : string) (b : Z) : string :=
  slice s b (Z.of_nat (String.length s)).

(** First position at which [pat] occurs in [s]. *)
Fixpoint search (pat s : string) : option nat :=
  if String.prefix pat s then Some 0
  else match s with
       | "" => None
       | String _ s' => S <$> search pat s'
       end.

(** [s.indexOf(pat)], with [-1] when [pat] does not occur. *)
Definition indexOf (s pat : string) : Z :=
  match search pat s with
  | Some i => Z.of_nat i
  | None => (-1)%Z
  end.

(** [s.includes(pat)] *)
Definition includes (s pat : string) : bool :=
  match search pat s with
  | Some _ => true
  | None => false
  end.

(** White space removed by [trim]: tab, line feed, vertical tab, form
    feed, carriage return, space and the no-break space U+00A0.  These
    are the white space and line terminators of the language among the
    code units below 256, which are the characters of the model. *)
Definition isWhiteSpace (c : ascii) : bool :=
  let n := nat_of_ascii c in
  (n =? 9) || (n =? 10) || (n =? 11) || (n =? 12) || (n =? 13) || (n =? 32) ||
  (n =? 160).

Fixpoint trimStart (s : string) : string :=
  match s with
  | "" => ""
  | String c s' => if isWhiteSpace c then trimStart s' else s
  end.

Fixpoint trimEnd (s : string) : string :=
  match s with
  | "" => ""
  | String c s' =>
      match trimEnd s' with
      | "" => if isWhiteSpace c then "" else String c ""
      | t => String c t
      end
  end.

(** [s.trim()] *)
Definition trim (s : string) : string := trimEnd (trimStart s).

(** [s.split(sep)] for a one-character separator; never the empty array. *)
Fixpoint split (sep : ascii) (s : string) : list string :=
  match s with
  | "" => [""]
  | String c s' =>
      if Ascii.eqb c sep then "" :: split sep s'
      else match split sep s' with
           | [] => [String c ""]
           | t :: ts => String c t :: ts
           end
  end.

(** [xs.join(sep)] *)
Fixpoint join (sep : string) (xs : list string) : string :=
  match xs with
  | [] => ""
  | [x] => x
  | x :: rest => x +:+ sep +:+ join sep rest
  end.

(** [s.replace(/ /g, by)] *)
Fixpoint replaceAllSpaces (by_ s : string) : string :=
  match s with
  | "" => ""
  | String c s' =>
      if Ascii.eqb c " " then by_ +:+ replaceAllSpaces by_ s'
      else String c (replaceAllSpaces by_ s')
  end.

(** [s.replace(' ', by)]: the first space only. *)
Fixpoint replaceFirstSpace (by_ s : string) : string :=
  match s with
  | "" => ""
  | String c s' =>
      if Ascii.eqb c " " then by_ +:+ s'
      else String c (replaceFirstSpace by_ s')
  end.

(** [s.match(/[^ ]/g)] is truthy: some character is not a space. *)
Fixpoint hasNonSpace (s : string) : bool :=
  match s with
  | "" => false
  | String c s' => negb (Ascii.eqb c " ") || hasNonSpace s'
  end.

(** [s[s.length - 1] === ' '] *)
Fixpoint endsWithSpace (s : string) : bool :=
  match s with
  | "" => false
  | String c "" => Ascii.eqb c " "
  | String _ s' => endsWithSpace s'
  end.

(** [xs.slice(0, -1)] *)
Definition dropLast {A} (xs : list A) : list A := take (length xs - 1) xs.

(** [xs.includes(x)] on an array of strings. *)
Definition arrIncludes (xs : list string) (x : string) : bool :=
  existsb (String.eqb x) xs.

End Js.

(** ** File objects *)

(** A reference to a JavaScript object of the file tree: its index in the
    store. *)
Abbreviation ref := nat (only parsing).

(** Modelled from the spec: the module [fileobject] ([DirFile], [TxtFile])
    is not among the sources.  A directory has an ordered list of children
    and type ["dir"]; a text file has a content buffer (a list of lines), a
    last-modified time stamp and type ["txt"]; both have a name, a full path
    and a back-reference to the parent (null for the root).  A directory has
    no [contents] and no [lastModified] of its own: the two optional fields
    hold the properties that [redirect] and [touch] assign on a directory
    they were handed. *)
Inductive FileObject :=
| DirFile (name fullPath : string) (parentRef : option ref)
    (children : list ref)
    (contents : option (list string)) (lastModified : option nat)
| TxtFile (name fullPath : string) (parentRef : option ref)
    (contents : list string) (lastModified : nat).

Definition name (f : FileObject) : string :=
  match f with DirFile n _ _ _ _ _ | TxtFile n _ _ _ _ => n end.

Definition fullPath (f : FileObject) : string :=
  match f with DirFile _ p _ _ _ _ | TxtFile _ p _ _ _ => p end.

Definition parentRef (f : FileObject) : option ref :=
  match f with DirFile _ _ p _ _ _ | TxtFile _ _ p _ _ => p end.

Definition filetype (f : FileObject) : string :=
  match f with DirFile _ _ _ _ _ _ => "dir" | TxtFile _ _ _ _ _ => "txt" end.

(** [f.children], undefined on a text file. *)
Definition children (f : FileObject) : option (list ref) :=
  match f with DirFile _ _ _ cs _ _ => Some cs | TxtFile _ _ _ _ _ => None end.

(** [f.contents], undefined on a directory that was never redirected to. *)
Definition contents (f : FileObject) : option (list string) :=
  match f with DirFile _ _ _ _ c _ => c | TxtFile _ _ _ c _ => Some c end.

(** [f.lastModified], undefined on a directory that was never touched. *)
Definition lastModified (f : FileObject) : option nat :=
  match f with DirFile _ _ _ _ _ lm => lm | TxtFile _ _ _ _ lm => Some lm end.

Definition isDir (f : FileObject) : bool :=
  match f with DirFile _ _ _ _ _ _ => true | TxtFile _ _ _ _ _ => false end.

(** [f.contents = c] *)
Definition setContents (c : list string) (f : FileObject) : FileObject :=
  match f with
  | DirFile n p par cs _ lm => DirFile n p par cs (Some c) lm
  | TxtFile n p par _ lm => TxtFile n p par c lm
  end.

(** [f.lastModified = t] *)
Definition setLastModified (t : nat) (f : FileObject) : FileObject :=
  match f with
  | DirFile n p par cs c _ => DirFile n p par cs c (Some t)
  | TxtFile n p par c _ => TxtFile n p par c t
  end.

(** [f.children.push(c)]; [None] where [f.children] is undefined. *)
Definition pushChild (c : ref) (f : FileObject) : option FileObject :=
  match f with
  | DirFile n p par cs ct lm => Some (DirFile n p par (cs ++ [c]) ct lm)
  | TxtFile _ _ _ _ _ => None
  end.

(** ** Parsed commands and command results *)

(** Modelled from the spec: the module [shell-command] is not among the
    sources.  The command body is tokenized on spaces; the first non-empty
    token is the command name and the remaining non-empty tokens are the
    arguments.  A body without a token has an empty command name, which is
    falsy for [handleTab]. *)
Record ShellCommand := mkShellCommand {
  originalInput : string;
  command : string;
  args : list string
}.

Definition tokens (input : string) : list string :=
  filter (λ t, t ≠ "") (Js.split " " input).

Definition newShellCommand (input : string) : ShellCommand :=
  match tokens input with
  | [] => mkShellCommand input "" []
  | c :: rest => mkShellCommand input c rest
  end.

(** Modelled from the spec: a result has the lines of standard output, the
    lines of standard error and, optionally, a file reference for the
    caller.  The constructor is called with an array, with one string or
    with null/undefined for each stream. *)
Record ShellCommandResult := mkResult {
  stdOut : list string;
  stdErr : list string;
  data : option ref
}.

Inductive StreamArg :=
| Undefined
| Str (s : string)
| Arr (lines : list string).

Definition streamLines (a : StreamArg) : list string :=
  match a with
  | Undefined => []
  | Str s => [s]
  | Arr l => l
  end.

Definition newResult (out err : StreamArg) (d : option ref) : ShellCommandResult :=
  mkResult (streamLines out) (streamLines err) d.

(** [res.combine(other)]: both streams are concatenated in order. *)
Definition combine (res other : ShellCommandResult) : ShellCommandResult :=
  mkResult (stdOut res ++ stdOut other) (stdErr res ++ stdErr other) (data res).

(** [res.stdErr.push(line)] *)
Definition pushErr (line : string) (res : ShellCommandResult) : ShellCommandResult :=
  mkResult (stdOut res) (stdErr res ++ [line]) (data res).

(** [res.stdOut.push(line)] *)
Definition pushOut (line : string) (res : ShellCommandResult) : ShellCommandResult :=
  mkResult (stdOut res ++ [line]) (stdErr res) (data res).

(** ** Completions and the shell state *)

Inductive JsError := TypeError | RangeError.

(** How a JavaScript evaluation ends: with a value or by throwing. *)
Inductive Completion (A : Type) :=
| Normal (a : A)
| Throw (e : JsError).
Arguments Normal {A} a.
Arguments Throw {A} e.

#[global] Instance Completion_ret : MRet Completion := λ A a, Normal a.
#[global] Instance Completion_bind : MBind Completion := λ A B k c,
  match c with
  | Normal a => k a
  | Throw e => Throw e
  end.

(** What the display collaborator was asked to show: [print(line, el)],
    [print(res.getDefaultOutput(), el)] and [printInline(options, el)]. *)
Inductive Printed :=
| Line (html : string)
| Rendered (res : ShellCommandResult)
| Inline (options : list string).

(** The editor child process, as the shell constructs it. *)
Record Vi := mkVi { viPath : list string; viFile : option ref }.

(** The session object with what it reaches: the object store that holds
    the file tree, the contents of its three page elements, and one
    reading [now] of the clock that [new Date()] consults. *)
Record Shell := mkShell {
  store : list FileObject;
  fileStructure : ref;
  currentDir : ref;
  user : string;
  inputString : string;
  bashHistory : list string;
  historyIndex : nat;
  tabPressed : bool;
  inputPromptElement : string;
  PS1Element : string;
  outputElement : list Printed;
  childProcess : option Vi;
  now : nat
}.

Definition set_store (st : list FileObject) (sh : Shell) : Shell :=
  mkShell st (fileStructure sh) (currentDir sh) (user sh) (inputString sh)
    (bashHistory sh) (historyIndex sh) (tabPressed sh) (inputPromptElement sh)
    (PS1Element sh) (outputElement sh) (childProcess sh) (now sh).

Definition set_currentDir (d : ref) (sh : Shell) : Shell :=
  mkShell (store sh) (fileStructure sh) d (user sh) (inputString sh)
    (bashHistory sh) (historyIndex sh) (tabPressed sh) (inputPromptElement sh)
    (PS1Element sh) (outputElement sh) (childProcess sh) (now sh).

Definition set_inputString (s : string) (sh : Shell) : Shell :=
  mkShell (store sh) (fileStructure sh) (currentDir sh) (user sh) s
    (bashHistory sh) (historyIndex sh) (tabPressed sh) (inputPromptElement sh)
    (PS1Element sh) (outputElement sh) (childProcess sh) (now sh).

Definition set_bashHistory (h : list string) (sh : Shell) : Shell :=
  mkShell (store sh) (fileStructure sh) (currentDir sh) (user sh) (inputString sh)
    h (historyIndex sh) (tabPressed sh) (inputPromptElement sh)
    (PS1Element sh) (outputElement sh) (childProcess sh) (now sh).

Definition set_historyIndex (i : nat) (sh : Shell) : Shell :=
  mkShell (store sh) (fileStructure sh) (currentDir sh) (user sh) (inputString sh)
    (bashHistory sh) i (tabPressed sh) (inputPromptElement sh)
    (PS1Element sh) (outputElement sh) (childProcess sh) (now sh).

Definition set_tabPressed (b : bool) (sh : Shell) : Shell :=
  mkShell (store sh) (fileStructure sh) (currentDir sh) (user sh) (inputString sh)
    (bashHistory sh) (historyIndex sh) b (inputPromptElement sh)
    (PS1Element sh) (outputElement sh) (childProcess sh) (now sh).

Definition set_inputPromptElement (html : string) (sh : Shell) : Shell :=
  mkShell (store sh) (fileStructure sh) (currentDir sh) (user sh) (inputString sh)
    (bashHistory sh) (historyIndex sh) (tabPressed sh) html
    (PS1Element sh) (outputElement sh) (childProcess sh) (now sh).

Definition set_PS1Element (html : string) (sh : Shell) : Shell :=
  mkShell (store sh) (fileStructure sh) (currentDir sh) (user sh) (inputString sh)
    (bashHistory sh) (historyIndex sh) (tabPressed sh) (inputPromptElement sh)
    html (outputElement sh) (childProcess sh) (now sh).

Definition set_outputElement (out : list Printed) (sh : Shell) : Shell :=
  mkShell (store sh) (fileStructure sh) (currentDir sh) (user sh) (inputString sh)
    (bashHistory sh) (historyIndex sh) (tabPressed sh) (inputPromptElement sh)
    (PS1Element sh) out (childProcess sh) (now sh).

Definition set_childProcess (p : option Vi) (sh : Shell) : Shell :=
  mkShell (store sh) (fileStructure sh) (currentDir sh) (user sh) (inputString sh)
    (bashHistory sh) (historyIndex sh) (tabPressed sh) (inputPromptElement sh)
    (PS1Element sh) (outputElement sh) p (now sh).

(** A method of the shell: it may change the session and the store, and
    it ends with a value or a throw.  The state is returned in both cases:
    what was mutated before a throw stays mutated. *)
Definition M (A : Type) : Type := Shell → Completion A * Shell.

#[global] Instance M_ret : MRet M := λ A a sh, (Normal a, sh).
#[global] Instance M_bind : MBind M := λ A B k m sh,
  match m sh with
  | (Normal a, sh') => k a sh'
  | (Throw e, sh') => (Throw e, sh')
  end.

(** Read the session. *)
Definition get : M Shell := λ sh, (Normal sh, sh).
(** Apply a field assignment. *)
Definition modify (f : Shell → Shell) : M unit := λ sh, (Normal tt, f sh).
(** A store read or another pure evaluation that may throw. *)
Definition lift {A} (c : Completion A) : M A := λ sh, (c, sh).

(** [print(line, this.outputElement)] and [printInline]. *)
Definition print (p : Printed) : M unit :=
  modify (λ sh, set_outputElement (outputElement sh ++ [p]) sh).

(** ** Path resolution *)

(** [st[r]]: following a reference.  References of the program never
    dangle; an index outside the store is the model's null and throws. *)
Definition deref (st : list FileObject) (r : ref) : Completion FileObject :=
  match st !! r with
  | Some f => Normal f
  | None => Throw TypeError
  end.

(** Truthiness of an optional string: undefined and [''] are falsy. *)
Definition truthy (t : option string) : bool :=
  match t with
  | None => false
  | Some s => negb (String.eqb s "")
  end.

(** [filetype === 'dir'] on an optional argument. *)
Definition isDirType (t : option string) : bool :=
  match t with
  | Some s => String.eqb s "dir"
  | None => false
  end.

(** The test of the [forEach] callback of [findFile]:
    [pathArg === child.name && (!typeToFind || typeToFind === child.filetype)];
    [pathArg] is undefined when the path is empty. *)
Definition childMatches (pathArg typeToFind : option string) (f : FileObject) : bool :=
  match pathArg with
  | Some p =>
      String.eqb p (name f) &&
      (negb (truthy typeToFind) ||
       match typeToFind with
       | Some t => String.eqb t (filetype f)
       | None => false
       end)
  | None => false
  end.

(** [children.forEach((child) => { if (...) found = child; })]: every
    child is visited, a later match overwrites an earlier one. *)
Fixpoint forEachChild (st : list FileObject) (pathArg typeToFind : option string)
    (cs : list ref) (found : option ref) : Completion (option ref) :=
  match cs with
  | [] => Normal found
  | c :: cs' =>
      f ← deref st c;
      forEachChild st pathArg typeToFind cs'
        (if childMatches pathArg typeToFind f then Some c else found)
  end.

(** The [default] branch of the switch: [dir.children.forEach(...)]. *)
Definition findChild (st : list FileObject) (dir : ref)
    (pathArg typeToFind : option string) : Completion (option ref) :=
  d ← deref st dir;
  match children d with
  | Some cs => forEachChild st pathArg typeToFind cs None
  | None => Throw TypeError
  end.

(** The [switch (pathArg)] of [findFile]. *)
Definition switchPathArg (st : list FileObject) (root dir : ref)
    (pathArg : string) (typeToFind : option string) : Completion (option ref) :=
  if String.eqb pathArg "." then Normal (Some dir)
  else if String.eqb pathArg ".." then
    d ← deref st dir; Normal (parentRef d)
  else if String.eqb pathArg "~" then Normal (Some root)
  else findChild st dir (Some pathArg) typeToFind.

(** [findFile(dir, filepath, filetype)]; [root] is [this.fileStructure].
    On the empty path [pathArg] is undefined and the switch takes its
    default branch. *)
Fixpoint findFile (st : list FileObject) (root : ref) (dir : ref)
    (filepath : list string) (filetype : option string) : Completion (option ref) :=
  match filepath with
  | [] =>
      if isDirType filetype then Normal (Some dir)
      else findChild st dir None (Some "dir")
  | pathArg :: rest =>
      if (length filepath =? 1) && String.eqb pathArg "" && isDirType filetype
      then Normal (Some dir)
      else
        let typeToFind := if length filepath =? 1 then filetype else Some "dir" in
        found ← switchPathArg st root dir pathArg typeToFind;
        if length filepath =? 1 then Normal found
        else match found with
             | None => Normal None
             | Some next => findFile st root next rest filetype
             end
  end.

(** [this.findFile(this.currentDir, filepath, filetype)] *)
Definition findFromCurrent (filepath : list string) (filetype : option string)
  : M (option ref) :=
  λ sh, (findFile (store sh) (fileStructure sh) (currentDir sh) filepath filetype, sh).

(** ** File creation *)

(** [filepath.slice(-1)[0]]; call sites pass the result of [split] or a
    one-element array, never the empty array (for which the program would
    name the file [undefined]). *)
Definition lastSegment (filepath : list string) : string :=
  List.last filepath "undefined".

(** The object that [newFile] constructs for [filename] under the
    directory object [dobj] at [d]: a [DirFile] for the type ['dir'], a
    [TxtFile] otherwise (every caller passes ['dir'] or ['txt']). *)
Definition newFileObject (d : ref) (dobj : FileObject) (filename filetype : string)
    (time : nat) : FileObject :=
  let pathStr := fullPath dobj +:+ "/" +:+ filename in
  if String.eqb filetype "dir"
  then DirFile filename pathStr (Some d) [] None None
  else TxtFile filename pathStr (Some d) [] time.

(** [newFile(filepath, filetype)] *)
Definition newFile (filepath : list string) (filetype : string) : M ShellCommandResult :=
  sh ← get;
  dir ← (if length filepath =? 1 then mret (Some (currentDir sh))
         else findFromCurrent (Js.dropLast filepath) (Some "dir"));
  match dir with
  | None =>
      mret (newResult Undefined
              (Str (Js.join "/" (Js.dropLast filepath) +:+ ": Directory not found"))
              None)
  | Some d =>
      let filename := lastSegment filepath in
      dobj ← lift (deref (store sh) d);
      let file := newFileObject d dobj filename filetype (now sh) in
      match pushChild (length (store sh)) dobj with
      | None => lift (Throw TypeError)
      | Some dobj' =>
          modify (set_store (<[d := dobj']> (store sh ++ [file])));;
          mret (newResult Undefined Undefined (Some (length (store sh))))
      end
  end.

(** ** Shell commands *)

(** The double quote of the HTML attributes. *)
Definition dq : string := String (ascii_of_nat 34) "".

(** [getPS1String()] *)
Definition getPS1String : M string :=
  sh ← get;
  d ← lift (deref (store sh) (currentDir sh));
  mret ("<span class=" +:+ dq +:+ "user" +:+ dq +:+ ">" +:+ user sh +:+
        "@www.carlegbert.com:</span>" +:+
        "<span class=" +:+ dq +:+ "path" +:+ dq +:+ ">" +:+ fullPath d +:+
        "</span>$&nbsp;").

(** [new ShellCommandResult()] *)
Definition emptyResult : ShellCommandResult := newResult Undefined Undefined None.

(** [args.forEach((arg) => {...})] where the callback updates [res]. *)
Fixpoint forEachArg (body : string → ShellCommandResult → M ShellCommandResult)
    (arguments : list string) (res : ShellCommandResult) : M ShellCommandResult :=
  match arguments with
  | [] => mret res
  | arg :: rest => res' ← body arg res; forEachArg body rest res'
  end.

(** [clear]: [$('#terminal-output')] is the output element. *)
Definition clear : M ShellCommandResult :=
  modify (set_outputElement []);;
  mret emptyResult.

Definition pwd : M ShellCommandResult :=
  sh ← get;
  d ← lift (deref (store sh) (currentDir sh));
  mret (newResult (Str (fullPath d)) Undefined None).

Definition whoami : M ShellCommandResult :=
  sh ← get;
  mret (newResult (Str (user sh)) Undefined None).

Definition cd (shellCommand : ShellCommand) : M ShellCommandResult :=
  sh ← get;
  dir ← match args shellCommand with
        | [] => mret (Some (fileStructure sh))
        | arg0 :: _ => findFromCurrent (Js.split "/" arg0) (Some "dir")
        end;
  match dir with
  | Some d =>
      modify (set_currentDir d);;
      ps1 ← getPS1String;
      modify (set_PS1Element ps1);;
      mret emptyResult
  | None =>
      mret (newResult Undefined
              (Str (default "undefined" (head (args shellCommand)) +:+
                    ": directory not found")) None)
  end.

(** [lsHelper(dir)]: one list item per child, in stored order. *)
Fixpoint lsItems (st : list FileObject) (cs : list ref) (acc : string) : Completion string :=
  match cs with
  | [] => Normal acc
  | c :: cs' =>
      child ← deref st c;
      lsItems st cs'
        (acc +:+ "<li class=" +:+ dq +:+ "inline " +:+ filetype child +:+ dq +:+ ">" +:+
         name child +:+ "</li>")
  end.

Definition lsHelper (st : list FileObject) (dir : ref) : Completion string :=
  d ← deref st dir;
  match children d with
  | None => Throw TypeError
  | Some cs => res ← lsItems st cs "<div>"; Normal (res +:+ "</div>")
  end.

Definition ls (shellCommand : ShellCommand) : M ShellCommandResult :=
  let res := newResult (Arr []) Undefined None in
  match args shellCommand with
  | [] =>
      sh ← get;
      listing ← lift (lsHelper (store sh) (currentDir sh));
      mret (pushOut listing res)
  | _ =>
      forEachArg (λ arg res,
        dir ← findFromCurrent (Js.split "/" arg) (Some "dir");
        match dir with
        | None =>
            mret (pushErr ("ls: cannot access " +:+ arg +:+
                           ": no such file or directory") res)
        | Some d =>
            sh ← get;
            listing ← lift (lsHelper (store sh) d);
            let str := (if 1 <? length (args shellCommand) then arg +:+ ":" else "")
                       +:+ listing in
            mret (pushOut str res)
        end) (args shellCommand) res
  end.

(** [cat], [touch] and [mkdir] return the empty result at once when there
    is no argument; so does the loop over no arguments. *)
Definition cat (shellCommand : ShellCommand) : M ShellCommandResult :=
  forEachArg (λ arg res,
    let path := Js.split "/" arg in
    file ← findFromCurrent path None;
    match file with
    | Some r =>
        sh ← get;
        f ← lift (deref (store sh) r);
        match f with
        | DirFile n _ _ _ _ _ => mret (pushErr ("cat: " +:+ n +:+ ": Is a directory") res)
        | TxtFile _ _ _ c _ => mret (mkResult (stdOut res ++ c) (stdErr res) (data res))
        end
    | None => mret (pushErr ("cat: " +:+ arg +:+ ": No such file or directory") res)
    end) (args shellCommand) emptyResult.

Definition touch (shellCommand : ShellCommand) : M ShellCommandResult :=
  forEachArg (λ arg res,
    let path := Js.split "/" arg in
    file ← findFromCurrent path (Some "txt");
    match file with
    | Some r =>
        modify (λ sh, set_store (alter (setLastModified (now sh)) r (store sh)) sh);;
        mret res
    | None =>
        newFileRes ← newFile path "txt";
        mret (combine res newFileRes)
    end) (args shellCommand) emptyResult.

Definition mkdir (shellCommand : ShellCommand) : M ShellCommandResult :=
  forEachArg (λ arg res,
    let path := Js.split "/" arg in
    file ← findFromCurrent path (Some "dir");
    match file with
    | Some _ => mret res
    | None =>
        newFileRes ← newFile path "dir";
        mret (combine res newFileRes)
    end) (args shellCommand) emptyResult.

Definition echo (shellCommand : ShellCommand) : M ShellCommandResult :=
  let output := Js.join " " (args shellCommand) in
  mret (newResult (Str output) Undefined None).

(** [vi]: [shellCommand.args[0].split('/')] is evaluated first; without
    an argument [args[0]] is undefined and the call throws. *)
Definition vi (shellCommand : ShellCommand) : M ShellCommandResult :=
  match args shellCommand with
  | [] => lift (Throw TypeError)
  | arg0 :: _ =>
      let fPath := Js.split "/" arg0 in
      file ← findFromCurrent fPath (Some "txt");
      modify (set_childProcess (Some (mkVi fPath file)));;
      mret emptyResult
  end.

(** ** Interpretation of a line *)

Definition validCommands : list string :=
  ["clear"; "pwd"; "whoami"; "cd"; "ls"; "cat"; "touch"; "mkdir"; "echo"; "vi"].

(** [eval(`this.${shellCommand.command}(shellCommand)`)]: reached only
    for a name of [validCommands]; on another name the evaluated call has
    no method to call. *)
Definition dispatch (shellCommand : ShellCommand) : M ShellCommandResult :=
  let c := command shellCommand in
  if String.eqb c "clear" then clear
  else if String.eqb c "pwd" then pwd
  else if String.eqb c "whoami" then whoami
  else if String.eqb c "cd" then cd shellCommand
  else if String.eqb c "ls" then ls shellCommand
  else if String.eqb c "cat" then cat shellCommand
  else if String.eqb c "touch" then touch shellCommand
  else if String.eqb c "mkdir" then mkdir shellCommand
  else if String.eqb c "echo" then echo shellCommand
  else if String.eqb c "vi" then vi shellCommand
  else lift (Throw TypeError).

(** The text after the operator, trimmed and split on spaces. *)
Definition afterSymbolOf (inputString pattern : string) : list string :=
  let i := Js.indexOf inputString pattern in
  Js.split " " (Js.trim (Js.sliceFrom inputString (i + Z.of_nat (String.length pattern)))).

(** The line handed to the inner interpretation. *)
Definition newInputOf (inputString pattern : string) : string :=
  let i := Js.indexOf inputString pattern in
  let afterSymbol := afterSymbolOf inputString pattern in
  let otherArgs :=
    if length afterSymbol =? 1 then [] else drop (String.length pattern) afterSymbol in
  Js.slice inputString 0 i +:+ Js.join " " otherArgs.

(** [file.contents = pattern === '>' ? res.stdOut : file.contents.concat(res.stdOut)] *)
Definition writeContents (pattern : string) (file : ref) (out : list string) : M unit :=
  if String.eqb pattern ">" then
    modify (λ sh, set_store (alter (setContents out) file (store sh)) sh)
  else
    sh ← get;
    f ← lift (deref (store sh) file);
    match contents f with
    | None => lift (Throw TypeError)
    | Some old => modify (set_store (alter (setContents (old ++ out)) file (store sh)))
    end.

(** The second half of [redirect], from [const filepath = afterSymbol[0]]
    on: the target is looked up or created, and the output stored. *)
Definition storeOutput (pattern filepath : string) (res : ShellCommandResult)
  : M ShellCommandResult :=
  found ← findFromCurrent [filepath] (Some "txt");
  file ← match found with
         | Some f => mret (Some f)
         | None => created ← newFile [filepath] "txt"; mret (data created)
         end;
  match file with
  | None =>
      mret (newResult Undefined
              (Str ("bash: " +:+ filepath +:+ ": No such file or directory")) None)
  | Some f =>
      writeContents pattern f (stdOut res);;
      mret (newResult Undefined (Arr (stdErr res)) None)
  end.

(** [redirect(inputString, pattern)]; [exec] is [this.executeCommand]. *)
Definition redirect (exec : string → M ShellCommandResult)
    (inputString pattern : string) : M ShellCommandResult :=
  match afterSymbolOf inputString pattern with
  | [] => mret (newResult (Arr []) (Str "Syntax error") None)
  | filepath :: _ =>
      res ← exec (newInputOf inputString pattern);
      storeOutput pattern filepath res
  end.

(** [executeCommand(inputString)].  The recursion through [redirect] is on
    a strictly shorter line ([newInputOf_shorter] below), so a call depth of
    one more than the length of the line is never used up
    ([executeCommand_total]); the program has no bound of its own, and
    running out of depth is the engine's [RangeError]. *)
Fixpoint executeCommand_fuel (depth : nat) (inputString : string)
  : M ShellCommandResult :=
  match depth with
  | 0 => lift (Throw RangeError)
  | S depth' =>
      if Js.includes inputString ">>" then
        redirect (executeCommand_fuel depth') inputString ">>"
      else if Js.includes inputString ">" then
        redirect (executeCommand_fuel depth') inputString ">"
      else
        let shellCommand := newShellCommand inputString in
        if negb (Js.arrIncludes validCommands (command shellCommand)) then
          mret (newResult (Arr [])
                  (Str (command shellCommand +:+ ": command not found")) None)
        else dispatch shellCommand
  end.

Definition executeCommand (inputString : string) : M ShellCommandResult :=
  executeCommand_fuel (S (String.length inputString)) inputString.

(** [handleEnter()] *)
Definition handleEnter : M unit :=
  sh ← get;
  (if negb (Js.hasNonSpace (inputString sh)) then
     ps1 ← getPS1String;
     print (Line ps1)
   else
     ps1 ← getPS1String;
     print (Line (ps1 +:+ Js.replaceFirstSpace "&nbsp;" (inputString sh)));;
     modify (set_bashHistory (bashHistory sh ++ [inputString sh]));;
     res ← executeCommand (inputString sh);
     print (Rendered res));;
  modify (set_inputString "");;
  modify (set_inputPromptElement "");;
  modify (λ sh', set_historyIndex (length (bashHistory sh')) sh').

(** ** Tab completion *)

(** What [typeDict[cmdName] || ['dir', 'txt']] evaluates to: the entry of
    the table, or the default, or, for a name that every object inherits
    from [Object.prototype], that inherited (truthy) member. *)
Inductive ValidTypes :=
| Types (types : list string)
| Inherited (key : string).

Definition typeDict : list (string * list string) :=
  [("ls", ["dir"]); ("cd", ["dir"]); ("mkdir", ["dir"]); ("whoami", []);
   ("pwd", []); ("clear", []); ("cat", ["txt"]); (">", ["txt"]); ("vi", ["txt"])].

Definition objectPrototypeKeys : list string :=
  ["constructor"; "hasOwnProperty"; "isPrototypeOf"; "propertyIsEnumerable";
   "toLocaleString"; "toString"; "valueOf"; "__proto__";
   "__defineGetter__"; "__defineSetter__"; "__lookupGetter__"; "__lookupSetter__"].

Fixpoint lookupDict (key : string) (d : list (string * list string)) : option (list string) :=
  match d with
  | [] => None
  | (k, v) :: d' => if String.eqb k key then Some v else lookupDict key d'
  end.

(** [getValidTypes(cmdName)] *)
Definition getValidTypes (cmdName : string) : ValidTypes :=
  match lookupDict cmdName typeDict with
  | Some types => Types types
  | None =>
      if Js.arrIncludes objectPrototypeKeys cmdName then Inherited cmdName
      else Types ["dir"; "txt"]
  end.

(** [filterAutoCompleteOptions(partial, options)] *)
Definition filterAutoCompleteOptions (partial : string) (options : list string)
  : list string :=
  let len := String.length partial in
  filter (λ opt, (len <=? String.length opt) && String.eqb (Js.slice opt 0 (Z.of_nat len)) partial = true)
    options.

(** The option list built from the files: the name, with ['/'] appended
    for a directory. *)
Fixpoint optionNames (st : list FileObject) (files : list ref) : Completion (list string) :=
  match files with
  | [] => Normal []
  | r :: rest =>
      f ← deref st r;
      names ← optionNames st rest;
      Normal ((if String.eqb (filetype f) "dir" then name f +:+ "/" else name f) :: names)
  end.

Section TabCompletion.

(** [dir.getContentsByTypes(filetypes)], a method of the file objects
    that is not among the sources: the children of [dir] of the given
    types, in stored order.  The shell is modelled for any such method. *)
Variable getContentsByTypes :
  list FileObject → FileObject → ValidTypes → Completion (list ref).

(** [getAutocompleteFiles(partial, filetypes)]; a null [dir] has no
    method to call. *)
Definition getAutocompleteFiles (partial : string) (filetypes : ValidTypes)
  : M (list string) :=
  let partialAsArray := Js.split "/" partial in
  let partialName := List.last partialAsArray "" in
  let dirPath := Js.dropLast partialAsArray in
  dir ← findFromCurrent dirPath (Some "dir");
  match dir with
  | None => lift (Throw TypeError)
  | Some d =>
      sh ← get;
      dobj ← lift (deref (store sh) d);
      fileOptions ← lift (getContentsByTypes (store sh) dobj filetypes);
      options ← lift (optionNames (store sh) fileOptions);
      mret (filterAutoCompleteOptions partialName options)
  end.

(** [printAutoCompleteOptions(options)] *)
Definition printAutoCompleteOptions (options : list string) : M unit :=
  sh ← get;
  if tabPressed sh then
    ps1 ← getPS1String;
    print (Line (ps1 +:+ inputString sh));;
    print (Inline options)
  else modify (set_tabPressed true).

(** [executeAutoComplete(partial, complete)] *)
Definition executeAutoComplete (partial complete : string) : M unit :=
  let splitPartial := Js.split "/" partial in
  let wordPartial := List.last splitPartial "" in
  let completion := Js.sliceFrom complete (Z.of_nat (String.length wordPartial)) in
  modify (λ sh, set_inputString (inputString sh +:+ completion) sh);;
  modify (λ sh, set_inputPromptElement (inputPromptElement sh +:+ completion) sh).

(** The first half of [handleTab]: the partial word and its options. *)
Definition tabOptions : M (string * list string) :=
  sh ← get;
  let spaceAtEnd := Js.endsWithSpace (inputString sh) in
  let cmd := newShellCommand (inputString sh) in
  if String.eqb (command cmd) "" then mret ("", validCommands)
  else if negb spaceAtEnd && (length (args cmd) =? 0) then
    mret (command cmd, filterAutoCompleteOptions (command cmd) validCommands)
  else
    let partial := List.last (args cmd) "" in
    options ← getAutocompleteFiles partial (getValidTypes (command cmd));
    options' ← (if length options =? 0 then getAutocompleteFiles partial (Types ["dir"])
                else mret options);
    mret (partial, options').

(** [handleTab()] *)
Definition handleTab : M unit :=
  '(partial, options) ← tabOptions;
  match options with
  | [] => mret tt
  | [complete] => executeAutoComplete partial complete
  | _ => printAutoCompleteOptions options
  end.

(** A keystroke event: the key code [event.which] and the character
    that [getChar(event)] of the keystroke collaborator yields for it. *)
Record KeyEvent := mkKeyEvent { which : nat; getChar : string }.

(** [shellKeystroke(event)].  [bashHistory[historyIndex]] is read only
    at an index below the length of the history; [preventDefault] and
    [scrollIntoView] do not touch the session. *)
Definition shellKeystroke (event : KeyEvent) : M unit :=
  sh ← get;
  if which event =? 13 then
    modify (set_tabPressed false);;
    handleEnter
  else if which event =? 8 then
    modify (set_tabPressed false);;
    let s := Js.slice (inputString sh) 0 (Z.of_nat (String.length (inputString sh)) - 1) in
    modify (set_inputString s);;
    modify (set_inputPromptElement (Js.replaceAllSpaces "&nbsp;" s))
  else if (which event =? 38) && (0 <? historyIndex sh) then
    modify (set_tabPressed false);;
    let i := historyIndex sh - 1 in
    let s := default "" (bashHistory sh !! i) in
    modify (set_historyIndex i);;
    modify (set_inputString s);;
    modify (set_inputPromptElement s)
  else if (which event =? 40) && (historyIndex sh <? length (bashHistory sh)) then
    modify (set_tabPressed false);;
    let i := historyIndex sh + 1 in
    let s := if i =? length (bashHistory sh) then ""
             else default "" (bashHistory sh !! i) in
    modify (set_historyIndex i);;
    modify (set_inputString s);;
    modify (set_inputPromptElement s)
  else if which event =? 9 then
    handleTab
  else
    modify (set_tabPressed false);;
    let k := getChar event in
    modify (set_inputString (inputString sh +:+ k));;
    let kSpaceAdjusted := if String.eqb k " " then "&nbsp;" else k in
    modify (set_inputPromptElement (inputPromptElement sh +:+ kSpaceAdjusted)).

End TabCompletion.

(** ** The session at start-up and sequences of submitted lines *)

(** [new Shell(fileStructure)] over a given store. *)
Definition newShell (st : list FileObject) (fileStructure : ref) (clock : nat) : Shell :=
  mkShell st fileStructure fileStructure "guest" "" [] 0 false "" "" [] None clock.

(** Modelled from the spec: the tree the session starts with is built
    outside the sources; the root has no parent and an empty name. *)
Definition rootOnly (path : string) : list FileObject :=
  [DirFile "" path None [] None None].

Definition freshShell : Shell := newShell (rootOnly "~") 0 0.

(** The session after a command, whichever way it completed. *)
Definition after (inputString : string) (sh : Shell) : Shell :=
  (executeCommand inputString sh).2.

(** The completion of a command. *)
Definition resultOf (inputString : string) (sh : Shell) : Completion ShellCommandResult :=
  (executeCommand inputString sh).1.

(** The session after a sequence of commands. *)
Definition afterAll (lines : list string) (sh : Shell) : Shell :=
  foldl (λ s line, after line s) sh lines.

(** ** Well-formed file trees *)

(** [r] refers to a directory. *)
Definition isDirAt (st : list FileObject) (r : ref) : bool :=
  match st !! r with
  | Some f => isDir f
  | None => false
  end.

(** [c] is in the store and its back-reference is [parent]. *)
Definition childOk (st : list FileObject) (parent c : ref) : bool :=
  match st !! c with
  | Some g => bool_decide (parentRef g = Some parent)
  | None => false
  end.

(** The node at [r]: its parent, if any, is a directory, and each of its
    children points back at it. *)
Definition nodeOk (st : list FileObject) (r : ref) (f : FileObject) : bool :=
  match parentRef f with
  | Some p => isDirAt st p
  | None => true
  end &&
  match children f with
  | Some cs => forallb (childOk st r) cs
  | None => true
  end.

Definition wfStore (st : list FileObject) : bool :=
  forallb (λ r, from_option (nodeOk st r) true (st !! r)) (seq 0 (length st)).

(** The session points into a well-formed tree: the root and the current
    directory are directories of it. *)
Definition wf (sh : Shell) : bool :=
  wfStore (store sh) &&
  isDirAt (store sh) (fileStructure sh) &&
  isDirAt (store sh) (currentDir sh).

(** ** Resolution as the specification words it *)

(** Whether the object at [c] has the given name and, when a type is
    asked for, that type. *)
Definition namedChild (st : list FileObject) (segment : string)
    (typeFilter : option string) (c : ref) : bool :=
  match st !! c with
  | Some f =>
      String.eqb segment (name f) &&
      match typeFilter with
      | Some t => String.eqb t (filetype f)
      | None => true
      end
  | None => false
  end.

(** The children of [dir] with the given name and type, in stored order. *)
Definition childrenNamed (st : list FileObject) (dir : ref) (n : string)
    (typeFilter : option string) : list ref :=
  match st !! dir ≫= children with
  | Some cs => filter (λ c, namedChild st n typeFilter c = true) cs
  | None => []
  end.

(** The child of [dir] of matching name (and type); of several, the one
    stored last. *)
Definition childNamed (st : list FileObject) (dir : ref) (segment : string)
    (typeFilter : option string) : option ref :=
  last (childrenNamed st dir segment typeFilter).

(** One hop: ['.'] is the directory itself, ['..'] its parent, ['~'] the
    root, another segment the child of that name.  The required type
    filters only a final segment, and only when one was supplied; an
    intermediate segment must name a directory. *)
Definition hopSpec (st : list FileObject) (root dir : ref) (segment : string)
    (final : bool) (requiredType : option string) : option ref :=
  if String.eqb segment "." then Some dir
  else if String.eqb segment ".." then st !! dir ≫= parentRef
  else if String.eqb segment "~" then Some root
  else childNamed st dir segment
         (if final then (if truthy requiredType then requiredType else None)
          else Some "dir").

(** Resolution of a path, hop by hop; null as soon as a hop fails or an
    intermediate hop does not yield a directory.  With [selfOnEmpty], an
    empty final segment with required type ['dir'] yields the directory
    reached so far; without it every segment is treated by [hopSpec]. *)
Fixpoint resolveSpec (selfOnEmpty : bool) (st : list FileObject) (root dir : ref)
    (path : list string) (requiredType : option string) : option ref :=
  match path with
  | [] => None
  | [segment] =>
      if selfOnEmpty && String.eqb segment "" && isDirType requiredType then Some dir
      else hopSpec st root dir segment true requiredType
  | segment :: rest =>
      next ← hopSpec st root dir segment false requiredType;
      if isDirAt st next then resolveSpec selfOnEmpty st root next rest requiredType
      else None
  end.

(** ** What a command may change *)

(** The object [f'] is the object [f] later on: same name, path, parent
    and kind; children are only ever appended.  Contents and time stamp
    are free. *)
Definition sameNode (f f' : FileObject) : Prop :=
  name f' = name f ∧ fullPath f' = fullPath f ∧ parentRef f' = parentRef f ∧
  isDir f' = isDir f ∧
  ∀ cs, children f = Some cs → ∃ more, children f' = Some (cs ++ more).

(** Every object of [st] is still there in [st']. *)
Definition extends (st st' : list FileObject) : Prop :=
  ∀ r f, st !! r = Some f → ∃ f', st' !! r = Some f' ∧ sameNode f f'.

(** The fields of the session that no command assigns. *)
Definition sameSession (sh sh' : Shell) : Prop :=
  fileStructure sh' = fileStructure sh ∧ user sh' = user sh ∧
  inputString sh' = inputString sh ∧ bashHistory sh' = bashHistory sh ∧
  historyIndex sh' = historyIndex sh ∧ tabPressed sh' = tabPressed sh ∧
  inputPromptElement sh' = inputPromptElement sh ∧ now sh' = now sh.

(** [sh'] is reached from [sh] by the work of commands. *)
Definition steps (sh sh' : Shell) : Prop :=
  sameSession sh sh' ∧ extends (store sh) (store sh') ∧
  (wf sh = true → wf sh' = true).

(** Running [m] from [sh] is a step of the session, and it does not end
    in stack exhaustion. *)
Definition runsOk {A} (m : M A) (sh : Shell) : Prop :=
  steps sh (m sh).2 ∧ (m sh).1 ≠ Throw RangeError.

(** An assignment to a property that leaves name, path, parent, kind and
    children as they are. *)
Definition keepsShape (g : FileObject → FileObject) : Prop :=
  ∀ f, name (g f) = name f ∧ fullPath (g f) = fullPath f ∧
       parentRef (g f) = parentRef f ∧ isDir (g f) = isDir f ∧
       children (g f) = children f.

(** ** Plain names *)

(** No character of [s] is one of [bad]. *)
Fixpoint noneOf (bad : list ascii) (s : string) : bool :=
  match s with
  | "" => true
  | String c s' => negb (existsb (Ascii.eqb c) bad) && noneOf bad s'
  end.

(** The segments that [findFile] does not look up among the children. *)
Definition specialSegment (segment : string) : bool :=
  String.eqb segment "" || String.eqb segment "." ||
  String.eqb segment ".." || String.eqb segment "~".

(** A name that is one token of a line and one segment of a path: not
    empty, not ['.'], ['..'] or ['~'], and without space, slash or [>]. *)
Definition plainName (n : string) : bool :=
  negb (specialSegment n) && noneOf [" "; "/"; ">"]%char n.



(** The store after [newFile] has put [filename] into the current
    directory; unchanged where the current directory is no directory. *)
Definition storeWithNew (sh : Shell) (filename filetype : string) : list FileObject :=
  match store sh !! currentDir sh with
  | Some dobj =>
      match pushChild (length (store sh)) dobj with
      | Some dobj' =>
          <[currentDir sh := dobj']>
            (store sh ++ [newFileObject (currentDir sh) dobj filename filetype (now sh)])
      | None => store sh
      end
  | None => store sh
  end.

(** In the current directory the name [n] leads to one text file with
    the lines [c], whether a text file is asked for or any file. *)
Definition textFileAt (sh : Shell) (n : string) (c : list string) : Prop :=
  ∃ t nm p par lm,
    childNamed (store sh) (currentDir sh) n (Some "txt") = Some t ∧
    childNamed (store sh) (currentDir sh) n None = Some t ∧
    store sh !! t = Some (TxtFile nm p par c lm).

(** ** Keystrokes *)

(** Modelled from the spec: [getContentsByTypes] of the file objects is
    not among the sources.  It returns the children whose type is in
    [types], in stored order; an empty [types] does not filter. *)
Definition listByTypes (st : list FileObject) (dir : FileObject)
    (filetypes : ValidTypes) : Completion (list ref) :=
  match children dir, filetypes with
  | Some cs, Types types =>
      Normal (filter (λ c, match st !! c with
                           | Some f => (length types =? 0) ||
                                       Js.arrIncludes types (filetype f)
                           | None => false
                           end = true) cs)
  | Some _, Inherited _ => Normal []
  | None, _ => Throw TypeError
  end.

Definition tabKey : KeyEvent := mkKeyEvent 9 "".
Definition enterKey : KeyEvent := mkKeyEvent 13 "".

(** The session after a sequence of keystrokes, each handled by
    [shellKeystroke] whichever way the previous one completed. *)
Definition afterKeys
    (getContentsByTypes : list FileObject → FileObject → ValidTypes → Completion (list ref))
    (events : list KeyEvent) (sh : Shell) : Shell :=
  foldl (λ s event, (shellKeystroke getContentsByTypes event s).2) sh events.

(** The last segment of the partial word, on which completion works. *)
Definition wordPartialOf (partial : string) : string :=
  List.last (Js.split "/" partial) "".

(** Every object of [st] is still in [st'] (see [sameNode]) with the
    time stamp it had, and every object other than [target] has the
    contents it had. *)
Definition persists (target : ref) (st st' : list FileObject) : Prop :=
  ∀ r f, st !! r = Some f →
    ∃ f', st' !! r = Some f' ∧ sameNode f f' ∧
          lastModified f' = lastModified f ∧
          (r ≠ target → contents f' = contents f).

(** The object that [redirect] writes to, for the target name [filepath]
    in the session [sh]: the file that [findFile] yields for it, or else
    the object that [newFile] is about to add to the store. *)
Definition redirectTarget (sh : Shell) (filepath : string) : ref :=
  match findFile (store sh) (fileStructure sh) (currentDir sh) [filepath] (Some "txt") with
  | Normal (Some f) => f
  | _ => length (store sh)
  end.

(** The store after the lines [out] were stored under the name [n] of
    the current directory: in the text file of that name, replacing its
    lines or after them, or in a new text file of that name. *)
Definition storedUnder (sh : Shell) (pattern n : string) (out : list string)
  : list FileObject :=
  match childNamed (store sh) (currentDir sh) n (Some "txt") with
  | Some t =>
      alter (setContents (if String.eqb pattern ">" then out
                          else default [] (store sh !! t ≫= contents) ++ out))
        t (store sh)
  | None => alter (setContents out) (length (store sh)) (storeWithNew sh n "txt")
  end.






(** ** The ways the store changes *)

(** The store [st'] is reached from [st] by the only updates the shell
    makes: assigning [contents] or [lastModified] of an object, and
    pushing a newly constructed file object onto the children of a
    directory object. *)
Inductive grows (st : list FileObject) : list FileObject → Prop :=
| grows_refl : grows st st
| grows_setContents st' c r :
    grows st st' → grows st (alter (setContents c) r st')
| grows_setLastModified st' t r :
    grows st st' → grows st (alter (setLastModified t) r st')
| grows_push st' d dobj dobj' filename filetype time :
    grows st st' →
    st' !! d = Some dobj →
    pushChild (length st') dobj = Some dobj' →
    grows st (<[d := dobj']> (st' ++ [newFileObject d dobj filename filetype time])).

(** The full path of [f] is the full path of its parent, a slash and the
    name of [f]; nothing is asked of an object without a parent. *)
Definition pathOk (st : list FileObject) (f : FileObject) : bool :=
  match parentRef f with
  | Some p =>
      match st !! p with
      | Some g => String.eqb (fullPath f) (fullPath g +:+ "/" +:+ name f)
      | None => false
      end
  | None => true
  end.

Definition pathsOk (st : list FileObject) : bool := forallb (pathOk st) st.

(** ** Keystrokes, continued *)

Definition upKey : KeyEvent := mkKeyEvent 38 "".
Definition downKey : KeyEvent := mkKeyEvent 40 "".
Definition backspaceKey : KeyEvent := mkKeyEvent 8 "".

(** The history cursor points into the history or one past its end. *)
Definition cursorOk (sh : Shell) : bool :=
  historyIndex sh <=? length (bashHistory sh).

Section ChildProcess.

Variable getContentsByTypes :
  list FileObject → FileObject → ValidTypes → Completion (list ref).

(** [childProcess.parseKeystroke(event)] of the editor, which is not
    among the sources; the shell is modelled for any such handler. *)
Variable viKeystroke : Vi → KeyEvent → M unit.

(** [parseKeystroke(event)] *)
Definition parseKeystroke (event : KeyEvent) : M unit :=
  sh ← get;
  match childProcess sh with
  | None => shellKeystroke getContentsByTypes event
  | Some child => viKeystroke child event
  end.

End ChildProcess.

(** [killChildProcess()] *)
Definition killChildProcess : M unit := modify (set_childProcess None).

(** ** The program [cat] *)

(** What [currentDir.findFile(path)] hands to the program [cat]: a
    directory, of which the program reads the name, or a file, of which it
    reads the contents. *)
Inductive Found :=
| FoundDirectory (name : string)
| FoundFile (contents : list string).

Section CatProgram.

(** [cmd.shell.currentDir.findFile], a method of the directory class
    that is not among the sources; null is [None]. *)
Variable findFileOf : list string → option Found.

(** The callback of [cmd.args.forEach] in [run]. *)
Definition catArg (res : ShellCommandResult) (arg : string) : ShellCommandResult :=
  let path := Js.split "/" arg in
  match findFileOf path with
  | Some (FoundDirectory n) => pushErr ("cat: " +:+ n +:+ ": Is a directory") res
  | Some (FoundFile c) => mkResult (stdOut res ++ c) (stdErr res) (data res)
  | None => pushErr ("cat: " +:+ arg +:+ ": No such file or directory") res
  end.

(** [cat.run(cmd)]: the early return without arguments coincides with
    the loop over no arguments. *)
Definition catRun (arguments : list string) : ShellCommandResult :=
  foldl catArg emptyResult arguments.

End CatProgram.

(** What the shell's own [findFile] hands to [cat] for a path, from the
    current directory and without a required type. *)
Definition foundFromCurrent (sh : Shell) (path : list string) : option Found :=
  match findFile (store sh) (fileStructure sh) (currentDir sh) path None with
  | Normal (Some r) =>
      match store sh !! r with
      | Some (DirFile n _ _ _ _ _) => Some (FoundDirectory n)
      | Some (TxtFile _ _ _ c _) => Some (FoundFile c)
      | None => None
      end
  | _ => None
  end.


(** ** What the commands leave alone *)

(** Every object of [st] is still in [st'], with the contents it had. *)
Definition keepsContents (st st' : list FileObject) : Prop :=
  ∀ r f, st !! r = Some f → ∃ f', st' !! r = Some f' ∧ contents f' = contents f.

(** ** The screen *)

(** Whether interpreting the line comes to run [clear]: the command that
    is dispatched in the end, when [executeCommand] has gone through the
    redirect operators of the line the way it does, is [clear].  The bound
    is the one of [executeCommand_fuel]. *)
Fixpoint clearsScreen_fuel (depth : nat) (inputString : string) : bool :=
  match depth with
  | 0 => false
  | S depth' =>
      if Js.includes inputString ">>" then
        clearsScreen_fuel depth' (newInputOf inputString ">>")
      else if Js.includes inputString ">" then
        clearsScreen_fuel depth' (newInputOf inputString ">")
      else String.eqb (command (newShellCommand inputString)) "clear"
  end.

Definition clearsScreen (inputString : string) : bool :=
  clearsScreen_fuel (S (String.length inputString)) inputString.
(** * Properties *)

(** ** Strings *)

Module JsFacts.
Import Js.

Lemma length_append (s t : string) :
  String.length (s +:+ t) = String.length s + String.length t.
Proof. induction s as [|c s IH]; simpl; [done | by rewrite IH]. Qed.

Lemma length_take_str (n : nat) (s : string) :
  String.length (take_str n s) = n `min` String.length s.
Proof.
  revert s; induction n as [|n IH]; intros [|c s]; simpl; try done.
  by rewrite IH.
Qed.

Lemma length_drop_str (n : nat) (s : string) :
  String.length (drop_str n s) = String.length s - n.
Proof.
  revert s; induction n as [|n IH]; intros [|c s]; simpl; try done.
Qed.

Lemma split_not_nil (sep : ascii) (s : string) : split sep s ≠ [].
Proof.
  induction s as [|c s IH]; simpl; [done|].
  destruct (Ascii.eqb c sep); [done|]. by destruct (split sep s).
Qed.

(** Joining what was split restores the string. *)
Lemma join_split (sep : ascii) (s : string) :
  join (String sep "") (split sep s) = s.
Proof.
  induction s as [|c s IH]; simpl; [done|].
  destruct (Ascii.eqb_spec c sep) as [->|Hne].
  - pose proof (split_not_nil sep s) as Hnil.
    destruct (split sep s) as [|t ts]; [done|].
    simpl in *. by rewrite IH.
  - pose proof (split_not_nil sep s) as Hnil.
    destruct (split sep s) as [|t ts]; [done|].
    destruct ts as [|t' ts]; simpl in *; by rewrite <- IH.
Qed.

Lemma length_join_cons (sep x : string) (xs : list string) :
  String.length (join sep xs) ≤ String.length (join sep (x :: xs)).
Proof.
  destruct xs as [|y ys]; simpl; [lia|].
  rewrite !length_append. lia.
Qed.

Lemma length_join_drop (sep : string) (n : nat) (xs : list string) :
  String.length (join sep (drop n xs)) ≤ String.length (join sep xs).
Proof.
  revert xs; induction n as [|n IH]; intros xs; [by rewrite drop_0|].
  destruct xs as [|x xs]; [done|].
  rewrite skipn_cons. etrans; [apply IH|apply length_join_cons].
Qed.

Lemma length_trimStart (s : string) :
  String.length (trimStart s) ≤ String.length s.
Proof.
  induction s as [|c s IH]; simpl; [done|].
  destruct (isWhiteSpace c); simpl; lia.
Qed.

Lemma length_trimEnd (s : string) :
  String.length (trimEnd s) ≤ String.length s.
Proof.
  induction s as [|c s IH]; simpl; [done|].
  destruct (trimEnd s); [destruct (isWhiteSpace c)|]; simpl in *; lia.
Qed.

Lemma length_trim (s : string) : String.length (trim s) ≤ String.length s.
Proof.
  unfold trim. etrans; [apply length_trimEnd | apply length_trimStart].
Qed.

Lemma prefix_length (p s : string) :
  String.prefix p s = true → String.length p ≤ String.length s.
Proof.
  revert s; induction p as [|a p IH]; intros [|b s]; simpl; try done; try lia.
  destruct (ascii_dec a b); [|done]. intros H%IH. lia.
Qed.

Lemma search_eq (pat s : string) :
  search pat s =
  if String.prefix pat s then Some 0
  else match s with
       | "" => None
       | String _ s' => S <$> search pat s'
       end.
Proof. by destruct s. Qed.

(** An occurrence found at [i] lies inside the string. *)
Lemma search_bound (pat s : string) (i : nat) :
  search pat s = Some i → i + String.length pat ≤ String.length s.
Proof.
  revert i; induction s as [|c s IH]; intros i; rewrite search_eq;
    destruct (String.prefix pat _) eqn:Hp.
  - intros [= <-]. by apply prefix_length in Hp.
  - done.
  - intros [= <-]. by apply prefix_length in Hp.
  - destruct (search pat s) as [j|]; [|done].
    intros [= <-]. specialize (IH j eq_refl). simpl. lia.
Qed.

Lemma includes_search (s pat : string) :
  includes s pat = true → ∃ i, search pat s = Some i.
Proof. unfold includes. destruct (search pat s); [eauto | done]. Qed.

Lemma clampIndex_nat (len k : nat) :
  clampIndex len (Z.of_nat k) = k `min` len.
Proof.
  unfold clampIndex. destruct (Z.ltb_spec (Z.of_nat k) 0); lia.
Qed.

Lemma length_slice_prefix (s : string) (k : nat) :
  String.length (slice s 0 (Z.of_nat k)) = k `min` String.length s.
Proof.
  unfold slice. rewrite clampIndex_nat, length_take_str, length_drop_str.
  replace (clampIndex (String.length s) 0) with 0; [lia|].
  unfold clampIndex. simpl. lia.
Qed.

Lemma length_sliceFrom (s : string) (k : nat) :
  String.length (sliceFrom s (Z.of_nat k)) = String.length s - k.
Proof.
  unfold sliceFrom, slice.
  rewrite !clampIndex_nat, length_take_str, length_drop_str. lia.
Qed.
End JsFacts.

(** ** The recursion of [executeCommand] *)

(** The line that [redirect] hands back to [executeCommand] is strictly
    shorter than the line it was given. *)
Lemma newInputOf_shorter (inputString pattern : string) :
  Js.includes inputString pattern = true →
  pattern ≠ "" →
  String.length (newInputOf inputString pattern) < String.length inputString.
Proof.
  intros [k Hk]%JsFacts.includes_search Hpat.
  pose proof (JsFacts.search_bound _ _ _ Hk) as Hbound.
  assert (0 < String.length pattern) by (destruct pattern; [done | simpl; lia]).
  unfold newInputOf, afterSymbolOf, Js.indexOf. rewrite Hk.
  rewrite <- Nat2Z.inj_add.
  set (rest := Js.trim (Js.sliceFrom inputString (Z.of_nat (k + String.length pattern)))).
  assert (String.length rest ≤ String.length inputString - (k + String.length pattern)) as Hrest.
  { subst rest. etrans; [apply JsFacts.length_trim|].
    by rewrite JsFacts.length_sliceFrom. }
  rewrite JsFacts.length_append, JsFacts.length_slice_prefix.
  assert (String.length
            (Js.join " " (if length (Js.split " " rest) =? 1 then []
                          else drop (String.length pattern) (Js.split " " rest)))
          ≤ String.length rest) as Hjoin.
  { rewrite <- (JsFacts.join_split " " rest) at 3.
    destruct (_ =? 1); [simpl; lia | apply JsFacts.length_join_drop]. }
  lia.
Qed.

Lemma redirect_ext (exec1 exec2 : string → M ShellCommandResult)
    (inputString pattern : string) (sh : Shell) :
  exec1 (newInputOf inputString pattern) sh = exec2 (newInputOf inputString pattern) sh →
  redirect exec1 inputString pattern sh = redirect exec2 inputString pattern sh.
Proof.
  intros Heq. unfold redirect.
  destruct (afterSymbolOf inputString pattern); [done|].
  unfold mbind, M_bind. by rewrite Heq.
Qed.

Lemma executeCommand_fuel_S (depth : nat) (inputString : string) :
  executeCommand_fuel (S depth) inputString =
  if Js.includes inputString ">>" then
    redirect (executeCommand_fuel depth) inputString ">>"
  else if Js.includes inputString ">" then
    redirect (executeCommand_fuel depth) inputString ">"
  else
    let shellCommand := newShellCommand inputString in
    if negb (Js.arrIncludes validCommands (command shellCommand)) then
      mret (newResult (Arr [])
              (Str (command shellCommand +:+ ": command not found")) None)
    else dispatch shellCommand.
Proof. reflexivity. Qed.

(** Any call depth above the length of the line gives the same outcome:
    the bound of the model is never the reason for a result. *)
Lemma executeCommand_fuel_stable (n : nat) :
  ∀ (inputString : string) (d1 d2 : nat) (sh : Shell),
    String.length inputString ≤ n →
    String.length inputString < d1 →
    String.length inputString < d2 →
    executeCommand_fuel d1 inputString sh = executeCommand_fuel d2 inputString sh.
Proof.
  induction n as [|n IH]; intros input d1 d2 sh Hn H1 H2;
    (destruct d1 as [|d1]; [lia|]); (destruct d2 as [|d2]; [lia|]);
    rewrite !executeCommand_fuel_S.
  - destruct (Js.includes input ">>") eqn:Hpp.
    { apply newInputOf_shorter in Hpp; [lia | done]. }
    destruct (Js.includes input ">") eqn:Hp; [|done].
    apply newInputOf_shorter in Hp; [lia | done].
  - destruct (Js.includes input ">>") eqn:Hpp.
    { apply redirect_ext, IH; apply newInputOf_shorter in Hpp; try done; lia. }
    destruct (Js.includes input ">") eqn:Hp; [|done].
    apply redirect_ext, IH; apply newInputOf_shorter in Hp; try done; lia.
Qed.

(** The defining equation of [executeCommand], as the program has it. *)
Lemma executeCommand_eq (inputString : string) (sh : Shell) :
  executeCommand inputString sh =
  if Js.includes inputString ">>" then redirect executeCommand inputString ">>" sh
  else if Js.includes inputString ">" then redirect executeCommand inputString ">" sh
  else
    let shellCommand := newShellCommand inputString in
    if negb (Js.arrIncludes validCommands (command shellCommand)) then
      (Normal (newResult (Arr [])
                 (Str (command shellCommand +:+ ": command not found")) None), sh)
    else dispatch shellCommand sh.
Proof.
  unfold executeCommand at 1. rewrite executeCommand_fuel_S.
  destruct (Js.includes inputString ">>") eqn:Hpp.
  { apply redirect_ext. unfold executeCommand.
    apply newInputOf_shorter in Hpp; [|done].
    apply (executeCommand_fuel_stable (String.length inputString)); lia. }
  destruct (Js.includes inputString ">") eqn:Hp.
  2: { simpl. by destruct (negb _). }
  apply redirect_ext. unfold executeCommand.
  apply newInputOf_shorter in Hp; [|done].
  apply (executeCommand_fuel_stable (String.length inputString)); lia.
Qed.

(** ** Well-formed stores *)

Lemma wfStore_lookup (st : list FileObject) (r : ref) (f : FileObject) :
  wfStore st = true → st !! r = Some f → nodeOk st r f = true.
Proof.
  unfold wfStore. rewrite forallb_forall. intros Hall Hr.
  specialize (Hall r). rewrite Hr in Hall. apply Hall.
  apply in_seq. apply lookup_lt_Some in Hr. lia.
Qed.

Lemma wfStore_intro (st : list FileObject) :
  (∀ r f, st !! r = Some f → nodeOk st r f = true) → wfStore st = true.
Proof.
  intros Hall. unfold wfStore. rewrite forallb_forall. intros r _.
  destruct (st !! r) as [f|] eqn:Hr; simpl; [by eapply Hall | done].
Qed.

Lemma isDirAt_lookup (st : list FileObject) (r : ref) :
  isDirAt st r = true → ∃ f, st !! r = Some f ∧ isDir f = true.
Proof. unfold isDirAt. destruct (st !! r); [eauto | done]. Qed.

Lemma isDir_children (f : FileObject) :
  isDir f = true → ∃ cs, children f = Some cs.
Proof. destruct f; [eauto | done]. Qed.

Lemma wf_parent (st : list FileObject) (r p : ref) (f : FileObject) :
  wfStore st = true → st !! r = Some f → parentRef f = Some p →
  isDirAt st p = true.
Proof.
  intros Hwf Hr Hp. pose proof (wfStore_lookup _ _ _ Hwf Hr) as Hok.
  unfold nodeOk in Hok. rewrite Hp in Hok. by apply andb_prop in Hok as [? _].
Qed.

Lemma wf_children (st : list FileObject) (r : ref) (f : FileObject) (cs : list ref) :
  wfStore st = true → st !! r = Some f → children f = Some cs →
  Forall (λ c, childOk st r c = true) cs.
Proof.
  intros Hwf Hr Hcs. pose proof (wfStore_lookup _ _ _ Hwf Hr) as Hok.
  unfold nodeOk in Hok. rewrite Hcs in Hok. apply andb_prop in Hok as [_ Hok].
  rewrite forallb_forall in Hok. apply Forall_forall. intros c Hc.
  by apply Hok, list_elem_of_In.
Qed.

Lemma childOk_lookup (st : list FileObject) (r c : ref) :
  childOk st r c = true → ∃ g, st !! c = Some g ∧ parentRef g = Some r.
Proof.
  unfold childOk. destruct (st !! c) as [g|]; [|done].
  intros H%bool_decide_eq_true. eauto.
Qed.

(** ** The child lookup of [findFile] *)

(** The test of the callback, in terms of a name and an optional type. *)
Lemma childMatches_namedChild (st : list FileObject) (segment : string)
    (typeToFind : option string) (c : ref) (f : FileObject) :
  st !! c = Some f →
  childMatches (Some segment) typeToFind f =
  namedChild st segment (if truthy typeToFind then typeToFind else None) c.
Proof.
  intros Hc. unfold childMatches, namedChild. rewrite Hc.
  destruct typeToFind as [t|]; simpl; [|done].
  by destruct (String.eqb t ""); simpl.
Qed.

Lemma forEachChild_cons (st : list FileObject) (pathArg typeToFind : option string)
    (c : ref) (cs : list ref) (found : option ref) (f : FileObject) :
  st !! c = Some f →
  forEachChild st pathArg typeToFind (c :: cs) found =
  forEachChild st pathArg typeToFind cs
    (if childMatches pathArg typeToFind f then Some c else found).
Proof. intros Hc. simpl. unfold deref. by rewrite Hc. Qed.

Lemma forEachChild_last (st : list FileObject) (segment : string)
    (typeToFind : option string) (cs : list ref) (found : option ref) :
  Forall (λ c, is_Some (st !! c)) cs →
  forEachChild st (Some segment) typeToFind cs found =
  Normal (match last (filter (λ c, namedChild st segment
                           (if truthy typeToFind then typeToFind else None) c = true) cs)
          with
          | Some c => Some c
          | None => found
          end).
Proof.
  intros Hall. revert found. induction Hall as [|c cs [f Hc] _ IH]; intros found.
  - done.
  - rewrite (forEachChild_cons _ _ _ _ _ _ f Hc), IH.
    rewrite (childMatches_namedChild st _ _ c f Hc). rewrite filter_cons.
    destruct (namedChild st segment _ c) eqn:Hm.
    + rewrite decide_True by done. rewrite last_cons. by destruct (last _).
    + rewrite decide_False by (by intros ?). done.
Qed.

(** On a well-formed store the lookup among the children never throws
    and yields the last child of matching name and type. *)
Lemma findChild_childNamed (st : list FileObject) (dir : ref) (segment : string)
    (typeToFind : option string) :
  wfStore st = true → isDirAt st dir = true →
  findChild st dir (Some segment) typeToFind =
  Normal (childNamed st dir segment (if truthy typeToFind then typeToFind else None)).
Proof.
  intros Hwf (d & Hd & [cs Hcs]%isDir_children)%isDirAt_lookup.
  unfold findChild, childNamed, childrenNamed, deref. rewrite Hd. simpl.
  rewrite Hcs. rewrite forEachChild_last; [by destruct (last _)|].
  eapply Forall_impl; [by eapply wf_children|].
  intros c (g & Hg & _)%childOk_lookup. eauto.
Qed.

(** A child found with type ['dir'] is a directory. *)
Lemma childNamed_dir (st : list FileObject) (dir c : ref) (segment : string) :
  childNamed st dir segment (Some "dir") = Some c → isDirAt st c = true.
Proof.
  unfold childNamed, childrenNamed.
  destruct (st !! dir ≫= children) as [cs|]; [|done].
  intros Hlast%last_Some_elem_of. apply list_elem_of_filter in Hlast as [Hm _].
  unfold namedChild, isDirAt in *. destruct (st !! c) as [f|]; [|done].
  apply andb_prop in Hm as [_ Hm]. by destruct f.
Qed.

(** ** Path resolution *)

Lemma findFile_single (st : list FileObject) (root dir : ref)
    (segment : string) (filetype : option string) :
  findFile st root dir [segment] filetype =
  if String.eqb segment "" && isDirType filetype then Normal (Some dir)
  else switchPathArg st root dir segment filetype.
Proof.
  simpl. destruct (String.eqb segment "" && isDirType filetype); [done|].
  by destruct (switchPathArg _ _ _ _ _).
Qed.

Lemma findFile_longer (st : list FileObject) (root dir : ref)
    (segment next : string) (rest : list string) (filetype : option string) :
  findFile st root dir (segment :: next :: rest) filetype =
  found ← switchPathArg st root dir segment (Some "dir");
  match found with
  | None => Normal None
  | Some d => findFile st root d (next :: rest) filetype
  end.
Proof. reflexivity. Qed.

(** On a well-formed store the switch never throws and takes the hop that
    the specification describes. *)
Lemma switchPathArg_hopSpec (st : list FileObject) (root dir : ref)
    (segment : string) (final : bool) (filetype : option string) :
  wfStore st = true → isDirAt st dir = true →
  switchPathArg st root dir segment (if final then filetype else Some "dir") =
  Normal (hopSpec st root dir segment final filetype).
Proof.
  intros Hwf Hdir. unfold switchPathArg, hopSpec.
  destruct (String.eqb segment "."); [done|].
  destruct (String.eqb segment "..").
  { apply isDirAt_lookup in Hdir as (d & Hd & _). unfold deref. by rewrite Hd. }
  destruct (String.eqb segment "~"); [done|].
  rewrite findChild_childNamed by done. by destruct final.
Qed.

(** An intermediate hop ends in a directory. *)
Lemma hopSpec_dir (st : list FileObject) (root dir next : ref)
    (segment : string) (filetype : option string) :
  wfStore st = true → isDirAt st root = true → isDirAt st dir = true →
  hopSpec st root dir segment false filetype = Some next →
  isDirAt st next = true.
Proof.
  intros Hwf Hroot Hdir. unfold hopSpec.
  destruct (String.eqb segment "."); [by intros [= <-]|].
  destruct (String.eqb segment "..").
  { apply isDirAt_lookup in Hdir as (d & Hd & _). rewrite Hd. simpl.
    intros Hp. by eapply wf_parent. }
  destruct (String.eqb segment "~"); [by intros [= <-]|].
  apply childNamed_dir.
Qed.

(** [findFile] against hop-by-hop resolution with the rule for the empty
    final segment. *)
Lemma findFile_resolveSpec (st : list FileObject) (root dir : ref)
    (filepath : list string) (filetype : option string) :
  wfStore st = true →
  isDirAt st root = true →
  isDirAt st dir = true →
  filepath ≠ [] →
  findFile st root dir filepath filetype =
  Normal (resolveSpec true st root dir filepath filetype).
Proof.
  intros Hwf Hroot Hdir Hne. revert dir Hdir.
  induction filepath as [|segment rest IH]; [done|]. intros dir Hdir.
  destruct rest as [|next rest].
  - rewrite findFile_single. simpl.
    destruct (String.eqb segment "" && isDirType filetype); [done|].
    by rewrite <- (switchPathArg_hopSpec st root dir segment true filetype).
  - rewrite findFile_longer.
    rewrite (switchPathArg_hopSpec st root dir segment false filetype) by done.
    change (resolveSpec true st root dir (segment :: next :: rest) filetype)
      with (d ← hopSpec st root dir segment false filetype;
            if isDirAt st d
            then resolveSpec true st root d (next :: rest) filetype else None).
    destruct (hopSpec st root dir segment false filetype) as [d|] eqn:Hhop; [|done].
    simpl. pose proof (hopSpec_dir _ _ _ _ _ _ Hwf Hroot Hdir Hhop) as Hd.
    rewrite Hd. by apply IH.
Qed.

(** C1 (as amended):  for every directory of a well-formed tree and every
    non-empty list of segments, [findFile] never throws and returns what
    hop-by-hop resolution returns: ['.'] is the directory itself, ['..']
    its parent, ['~'] the root, another segment the child of that name
    (the one stored last if several match); the required type filters
    only the final segment and only when supplied; every intermediate hop
    yields a directory; the result is null as soon as a hop fails.  The
    one exception to the treatment of segments: an empty final segment
    with required type ['dir'] yields the directory reached so far. *)
Theorem findFile_refines_resolveSpec (st : list FileObject) (root dir : ref)
    (filepath : list string) (filetype : option string) :
  wfStore st = true →
  isDirAt st root = true →
  isDirAt st dir = true →
  filepath ≠ [] →
  findFile st root dir filepath filetype =
  Normal (resolveSpec true st root dir filepath filetype).
Proof. apply findFile_resolveSpec. Qed.

(** The session at start-up is well-formed. *)
Lemma wf_freshShell : wf freshShell = true.
Proof. reflexivity. Qed.

(** Witness for C1: the path [a/../a] from the root of a tree with one
    directory [a]. *)
Lemma findFile_refines_resolveSpec_witness :
  let st := [DirFile "" "~" None [1] None None;
             DirFile "a" "~/a" (Some 0) [] None None] in
  findFile st 0 0 ["a"; ".."; "a"] (Some "dir") = Normal (Some 1) ∧
  resolveSpec true st 0 0 ["a"; ".."; "a"] (Some "dir") = Some 1.
Proof.
  split; [|reflexivity].
  rewrite (findFile_refines_resolveSpec _ 0 0 ["a"; ".."; "a"] (Some "dir"));
    [reflexivity | reflexivity | reflexivity | reflexivity | discriminate].
Defined.

(** C1, counterexample: the claim treats every segment other than ['.'],
    ['..'] and ['~'] as a child name, so at the root of a tree without
    children the path [['']] with type ['dir'] would resolve to null;
    [findFile] yields the root. *)
Lemma findFile_empty_segment_counterexample :
  findFile (rootOnly "~") 0 0 [""] (Some "dir") ≠
  Normal (resolveSpec false (rootOnly "~") 0 0 [""] (Some "dir")).
Proof. discriminate. Qed.

(** ** Steps of the session *)

Lemma sameNode_refl (f : FileObject) : sameNode f f.
Proof.
  repeat split. intros cs Hcs. exists []. by rewrite app_nil_r.
Qed.

Lemma sameNode_trans (f g h : FileObject) :
  sameNode f g → sameNode g h → sameNode f h.
Proof.
  intros (Hn & Hp & Hpar & Hd & Hcs) (Hn' & Hp' & Hpar' & Hd' & Hcs').
  repeat split; try congruence.
  intros cs Hf. destruct (Hcs cs Hf) as [more Hg].
  destruct (Hcs' _ Hg) as [more' Hh]. exists (more ++ more').
  by rewrite Hh, app_assoc.
Qed.

Lemma extends_refl (st : list FileObject) : extends st st.
Proof. intros r f Hr. exists f. split; [done | apply sameNode_refl]. Qed.

Lemma extends_trans (st1 st2 st3 : list FileObject) :
  extends st1 st2 → extends st2 st3 → extends st1 st3.
Proof.
  intros H12 H23 r f Hr. destruct (H12 r f Hr) as (g & Hg & Hfg).
  destruct (H23 r g Hg) as (h & Hh & Hgh). exists h.
  split; [done | by eapply sameNode_trans].
Qed.

Lemma sameSession_refl (sh : Shell) : sameSession sh sh.
Proof. by repeat split. Qed.

Lemma sameSession_trans (s1 s2 s3 : Shell) :
  sameSession s1 s2 → sameSession s2 s3 → sameSession s1 s3.
Proof. unfold sameSession. intros ? ?. destruct_and!. repeat split; congruence. Qed.

Lemma steps_refl (sh : Shell) : steps sh sh.
Proof. split; [apply sameSession_refl | split; [apply extends_refl | done]]. Qed.

Lemma steps_trans (s1 s2 s3 : Shell) : steps s1 s2 → steps s2 s3 → steps s1 s3.
Proof.
  intros (Hs & He & Hw) (Hs' & He' & Hw').
  split; [by eapply sameSession_trans | split; [by eapply extends_trans | auto]].
Qed.

(** *** Rules for the combinators *)

Lemma runsOk_ret {A} (a : A) (sh : Shell) : runsOk (mret a) sh.
Proof. split; [apply steps_refl | done]. Qed.

Lemma runsOk_bind {A B} (m : M A) (k : A → M B) (sh : Shell) :
  runsOk m sh →
  (∀ a sh', m sh = (Normal a, sh') → runsOk (k a) sh') →
  runsOk (m ≫= k) sh.
Proof.
  intros [Hsteps Hres] Hk. unfold runsOk, mbind, M_bind in *.
  destruct (m sh) as [[a|e] sh'] eqn:Hm; simpl in *.
  - destruct (Hk a sh' eq_refl) as [Hsteps' Hres']. split; [|done].
    by eapply steps_trans.
  - split; [done|]. intros [= ->]. by apply Hres.
Qed.

(** A computation that reads the session and the store only. *)
Lemma runsOk_pure {A} (m : M A) (sh : Shell) :
  (m sh).2 = sh → (m sh).1 ≠ Throw RangeError → runsOk m sh.
Proof. intros Hst Hres. split; [rewrite Hst; apply steps_refl | done]. Qed.

Lemma runsOk_get_bind {A} (k : Shell → M A) (sh : Shell) :
  runsOk (k sh) sh → runsOk (get ≫= k) sh.
Proof. done. Qed.

Lemma runsOk_forEachArg (body : string → ShellCommandResult → M ShellCommandResult)
    (arguments : list string) :
  (∀ arg res sh, runsOk (body arg res) sh) →
  ∀ res sh, runsOk (forEachArg body arguments res) sh.
Proof.
  intros Hbody. induction arguments as [|arg rest IH]; intros res sh; simpl.
  - apply runsOk_ret.
  - apply runsOk_bind; [apply Hbody | intros; apply IH].
Qed.

(** *** Resolution on any path *)

Lemma forEachChild_undefined (st : list FileObject) (typeToFind : option string)
    (cs : list ref) (found : option ref) :
  Forall (λ c, is_Some (st !! c)) cs →
  forEachChild st None typeToFind cs found = Normal found.
Proof.
  intros Hall. revert found. induction Hall as [|c cs [f Hc] _ IH]; intros found.
  - done.
  - by rewrite (forEachChild_cons _ _ _ _ _ _ f Hc), IH.
Qed.

Lemma findFile_nil (st : list FileObject) (root dir : ref) (filetype : option string) :
  wfStore st = true → isDirAt st dir = true →
  findFile st root dir [] filetype =
  Normal (if isDirType filetype then Some dir else None).
Proof.
  intros Hwf Hdir. simpl. destruct (isDirType filetype); [done|].
  apply isDirAt_lookup in Hdir as (d & Hd & [cs Hcs]%isDir_children).
  unfold findChild, deref. rewrite Hd. simpl. rewrite Hcs.
  apply forEachChild_undefined.
  eapply Forall_impl; [by eapply wf_children|].
  intros c (g & Hg & _)%childOk_lookup. eauto.
Qed.

Lemma isDirAt_is_Some (st : list FileObject) (r : ref) :
  isDirAt st r = true → is_Some (st !! r).
Proof. intros (f & Hf & _)%isDirAt_lookup. eauto. Qed.

Lemma isDirType_eq (t : option string) : isDirType t = true → t = Some "dir".
Proof.
  destruct t as [s|]; [|done]. simpl. by intros ->%String.eqb_eq.
Qed.

(** What a final hop yields is in the store, and it is a directory when
    a directory was asked for. *)
Lemma hopSpec_final (st : list FileObject) (root dir d : ref)
    (segment : string) (filetype : option string) :
  wfStore st = true → isDirAt st root = true → isDirAt st dir = true →
  hopSpec st root dir segment true filetype = Some d →
  is_Some (st !! d) ∧ (isDirType filetype = true → isDirAt st d = true).
Proof.
  intros Hwf Hroot Hdir. unfold hopSpec.
  destruct (String.eqb segment ".").
  { intros [= <-]. eauto using isDirAt_is_Some. }
  destruct (String.eqb segment "..").
  { apply isDirAt_lookup in Hdir as (f & Hf & _). rewrite Hf. simpl.
    intros Hp. pose proof (wf_parent _ _ _ _ Hwf Hf Hp). eauto using isDirAt_is_Some. }
  destruct (String.eqb segment "~").
  { intros [= <-]. eauto using isDirAt_is_Some. }
  intros Hc. split.
  - unfold childNamed, childrenNamed in Hc.
    destruct (st !! dir ≫= children) as [cs|]; [|done].
    apply last_Some_elem_of, list_elem_of_filter in Hc as [Hm _].
    unfold namedChild in Hm. by destruct (st !! d).
  - intros ->%isDirType_eq. simpl in Hc. by eapply childNamed_dir.
Qed.

Lemma resolveSpec_result (st : list FileObject) (root : ref)
    (filepath : list string) (filetype : option string) :
  wfStore st = true → isDirAt st root = true →
  ∀ dir d, isDirAt st dir = true →
    resolveSpec true st root dir filepath filetype = Some d →
    is_Some (st !! d) ∧ (isDirType filetype = true → isDirAt st d = true).
Proof.
  intros Hwf Hroot. induction filepath as [|segment rest IH]; [done|].
  intros dir d Hdir. destruct rest as [|next rest].
  - simpl. destruct (String.eqb segment "" && isDirType filetype).
    + intros [= <-]. eauto using isDirAt_is_Some.
    + by apply hopSpec_final.
  - change (resolveSpec true st root dir (segment :: next :: rest) filetype)
      with (d ← hopSpec st root dir segment false filetype;
            if isDirAt st d
            then resolveSpec true st root d (next :: rest) filetype else None).
    destruct (hopSpec st root dir segment false filetype) as [n|]; [|done].
    simpl. destruct (isDirAt st n) eqn:Hn; [|done]. by apply IH.
Qed.

(** On a well-formed tree [findFile] returns, and what it returns is in
    the store; asked for a directory, it returns one. *)
Lemma findFile_result (st : list FileObject) (root dir : ref)
    (filepath : list string) (filetype : option string) :
  wfStore st = true → isDirAt st root = true → isDirAt st dir = true →
  ∃ found, findFile st root dir filepath filetype = Normal found ∧
    ∀ d, found = Some d →
      is_Some (st !! d) ∧ (isDirType filetype = true → isDirAt st d = true).
Proof.
  intros Hwf Hroot Hdir. destruct filepath as [|segment rest].
  - rewrite findFile_nil by done. eexists; split; [reflexivity|].
    destruct (isDirType filetype); [|done].
    intros d [= <-]. eauto using isDirAt_is_Some.
  - rewrite findFile_resolveSpec; [|done..].
    eexists; split; [reflexivity|].
    intros d Hd. exact (resolveSpec_result _ _ _ _ Hwf Hroot dir d Hdir Hd).
Qed.

(** Nothing in path resolution exhausts the stack. *)
Lemma forEachChild_noRange (st : list FileObject) (pathArg typeToFind : option string)
    (cs : list ref) (found : option ref) :
  forEachChild st pathArg typeToFind cs found ≠ Throw RangeError.
Proof.
  revert found. induction cs as [|c cs IH]; intros found; simpl; [done|].
  unfold deref. destruct (st !! c); simpl; [apply IH | done].
Qed.

Lemma findChild_noRange (st : list FileObject) (dir : ref)
    (pathArg typeToFind : option string) :
  findChild st dir pathArg typeToFind ≠ Throw RangeError.
Proof.
  unfold findChild, deref. destruct (st !! dir) as [d|]; simpl; [|done].
  destruct (children d); [apply forEachChild_noRange | done].
Qed.

Lemma switchPathArg_noRange (st : list FileObject) (root dir : ref)
    (pathArg : string) (typeToFind : option string) :
  switchPathArg st root dir pathArg typeToFind ≠ Throw RangeError.
Proof.
  unfold switchPathArg, deref. repeat case_match; simpl; try done.
  apply findChild_noRange.
Qed.

Lemma findFile_noRange (st : list FileObject) (root : ref)
    (filepath : list string) (filetype : option string) :
  ∀ dir, findFile st root dir filepath filetype ≠ Throw RangeError.
Proof.
  induction filepath as [|segment rest IH]; intros dir.
  - simpl. destruct (isDirType filetype); [done | apply findChild_noRange].
  - destruct rest as [|next rest].
    + rewrite findFile_single. destruct (_ && _); [done|].
      apply switchPathArg_noRange.
    + rewrite findFile_longer.
      pose proof (switchPathArg_noRange st root dir segment (Some "dir")) as Hs.
      destruct (switchPathArg _ _ _ _ _) as [[d|]|e]; simpl; try done.
      apply IH.
Qed.

(** *** Store updates *)

Lemma extends_isDirAt (st st' : list FileObject) (r : ref) :
  extends st st' → isDirAt st r = true → isDirAt st' r = true.
Proof.
  intros Hext (f & Hf & Hd)%isDirAt_lookup.
  destruct (Hext r f Hf) as (f' & Hf' & _ & _ & _ & Hd' & _).
  unfold isDirAt. rewrite Hf'. congruence.
Qed.

Lemma extends_childOk (st st' : list FileObject) (p c : ref) :
  extends st st' → childOk st p c = true → childOk st' p c = true.
Proof.
  intros Hext (g & Hg & Hp)%childOk_lookup.
  destruct (Hext c g Hg) as (g' & Hg' & _ & _ & Hp' & _).
  unfold childOk. rewrite Hg'. apply bool_decide_eq_true. congruence.
Qed.

Lemma parentOk_mono (st st' : list FileObject) (f f' : FileObject) :
  extends st st' → parentRef f' = parentRef f →
  match parentRef f with Some p => isDirAt st p | None => true end = true →
  match parentRef f' with Some p => isDirAt st' p | None => true end = true.
Proof.
  intros Hext ->. destruct (parentRef f); [|done]. by apply extends_isDirAt.
Qed.

Lemma nodeOk_mono (st st' : list FileObject) (r : ref) (f f' : FileObject) :
  extends st st' → parentRef f' = parentRef f → children f' = children f →
  nodeOk st r f = true → nodeOk st' r f' = true.
Proof.
  intros Hext Hp Hc [Hpar Hch]%andb_prop. unfold nodeOk.
  apply andb_true_intro. split; [by eapply parentOk_mono|].
  rewrite Hc. destruct (children f) as [cs|]; [|done].
  rewrite forallb_forall in *. intros c Hin. eapply extends_childOk; eauto.
Qed.

Lemma keepsShape_setContents (c : list string) : keepsShape (setContents c).
Proof. by intros []. Qed.

Lemma keepsShape_setLastModified (t : nat) : keepsShape (setLastModified t).
Proof. by intros []. Qed.

Lemma extends_alter (g : FileObject → FileObject) (r : ref) (st : list FileObject) :
  keepsShape g → extends st (alter g r st).
Proof.
  intros Hg i f Hi. destruct (decide (i = r)) as [->|Hne].
  - exists (g f). rewrite list_lookup_alter_eq, Hi. split; [done|].
    destruct (Hg f) as (? & ? & ? & ? & Hcs). repeat split; try done.
    intros cs Hf. exists []. rewrite app_nil_r. congruence.
  - exists f. rewrite list_lookup_alter_ne by done. split; [done | apply sameNode_refl].
Qed.

Lemma wfStore_alter (g : FileObject → FileObject) (r : ref) (st : list FileObject) :
  keepsShape g → wfStore st = true → wfStore (alter g r st) = true.
Proof.
  intros Hg Hwf. apply wfStore_intro. intros i f' Hi.
  pose proof (extends_alter g r st Hg) as Hext.
  destruct (decide (i = r)) as [->|Hne].
  - rewrite list_lookup_alter_eq in Hi.
    destruct (st !! r) as [f|] eqn:Hr; [|done]. simpl in Hi. injection Hi as <-.
    destruct (Hg f) as (_ & _ & ? & _ & ?).
    eapply nodeOk_mono; eauto using wfStore_lookup.
  - rewrite list_lookup_alter_ne in Hi by done.
    eapply nodeOk_mono; eauto using wfStore_lookup.
Qed.

(** [dir.children.push(file)] for a freshly allocated [file]. *)
Lemma extends_push (st : list FileObject) (d : ref) (dobj dobj' file : FileObject) :
  st !! d = Some dobj → pushChild (length st) dobj = Some dobj' →
  extends st (<[d := dobj']> (st ++ [file])).
Proof.
  intros Hd Hpush i f Hi. destruct (decide (i = d)) as [->|Hne].
  - exists dobj'. rewrite list_lookup_insert_eq.
    2: { rewrite length_app. apply lookup_lt_Some in Hd. lia. }
    split; [done|]. rewrite Hd in Hi. injection Hi as <-.
    destruct dobj; [|done]. injection Hpush as <-. repeat split.
    intros cs [= <-]. by eexists.
  - exists f. rewrite list_lookup_insert_ne by done.
    rewrite lookup_app_l by (by eapply lookup_lt_Some).
    split; [done | apply sameNode_refl].
Qed.

Lemma wfStore_push (st : list FileObject) (d : ref) (dobj dobj' file : FileObject) :
  wfStore st = true →
  st !! d = Some dobj → pushChild (length st) dobj = Some dobj' →
  parentRef file = Some d →
  (children file = Some [] ∨ children file = None) →
  wfStore (<[d := dobj']> (st ++ [file])) = true.
Proof.
  intros Hwf Hd Hpush Hpar Hkids.
  pose proof (extends_push st d dobj dobj' file Hd Hpush) as Hext.
  pose proof (lookup_lt_Some _ _ _ Hd) as Hlt.
  assert (length st < length (st ++ [file])) as Hlen by (rewrite length_app; simpl; lia).
  assert ((<[d := dobj']> (st ++ [file])) !! length st = Some file) as Hnew.
  { rewrite list_lookup_insert_ne by lia. by rewrite lookup_app_r, Nat.sub_diag by lia. }
  assert ((<[d := dobj']> (st ++ [file])) !! d = Some dobj') as Hd'.
  { apply list_lookup_insert_eq. lia. }
  assert (isDir dobj' = true) as Hdir by (destruct dobj; [by injection Hpush as <- | done]).
  apply wfStore_intro. intros i f' Hi.
  destruct (decide (i = d)) as [->|Hne].
  - rewrite Hd' in Hi. injection Hi as <-.
    pose proof (wfStore_lookup _ _ _ Hwf Hd) as [Hp Hc]%andb_prop.
    destruct dobj as [n p par cs ct lm|]; [|done]. injection Hpush as <-.
    unfold nodeOk. apply andb_true_intro. split.
    + by eapply (parentOk_mono st _ (DirFile n p par cs ct lm)).
    + simpl in *. rewrite forallb_app. apply andb_true_intro. split.
      * rewrite forallb_forall in *. intros c Hin. eapply extends_childOk; eauto.
      * simpl. unfold childOk. rewrite Hnew, Hpar. by rewrite bool_decide_eq_true_2.
  - rewrite list_lookup_insert_ne in Hi by done.
    destruct (decide (i = length st)) as [->|Hne'].
    + rewrite lookup_app_r, Nat.sub_diag in Hi by lia. injection Hi as <-.
      unfold nodeOk. rewrite Hpar. unfold isDirAt at 1. rewrite Hd', Hdir.
      by destruct Hkids as [-> | ->].
    + assert (i < length st) as Hi'.
      { apply lookup_lt_Some in Hi. rewrite length_app in Hi. simpl in Hi. lia. }
      rewrite lookup_app_l in Hi by done.
      eapply nodeOk_mono; eauto using wfStore_lookup.
Qed.

Lemma wf_set_store (sh : Shell) (st' : list FileObject) :
  extends (store sh) st' → wfStore st' = true →
  wf sh = true → wf (set_store st' sh) = true.
Proof.
  intros Hext Hwf' Hwf. unfold wf in *. simpl.
  apply andb_prop in Hwf as [[_ Hroot]%andb_prop Hcur].
  rewrite Hwf'. simpl. apply andb_true_intro.
  split; eapply extends_isDirAt; eauto.
Qed.

Lemma steps_set_store (sh : Shell) (st' : list FileObject) :
  extends (store sh) st' → (wfStore (store sh) = true → wfStore st' = true) →
  steps sh (set_store st' sh).
Proof.
  intros Hext Hwf. split; [by repeat split|]. split; [done|].
  intros Hsh. apply wf_set_store; [done | | done].
  apply Hwf. unfold wf in Hsh. by apply andb_prop in Hsh as [[? _]%andb_prop _].
Qed.

(** *** Every command is a step *)

Lemma runsOk_lift {A} (c : Completion A) (sh : Shell) :
  c ≠ Throw RangeError → runsOk (lift c) sh.
Proof. intros Hc. by apply runsOk_pure. Qed.

Lemma deref_noRange (st : list FileObject) (r : ref) : deref st r ≠ Throw RangeError.
Proof. unfold deref. by destruct (st !! r). Qed.

Lemma runsOk_findFromCurrent (filepath : list string) (filetype : option string)
    (sh : Shell) :
  runsOk (findFromCurrent filepath filetype) sh.
Proof. apply runsOk_pure; [done | apply findFile_noRange]. Qed.

(** What [findFromCurrent] returns on a well-formed session. *)
Lemma findFromCurrent_result (filepath : list string) (filetype : option string)
    (sh sh' : Shell) (found : option ref) :
  findFromCurrent filepath filetype sh = (Normal found, sh') →
  sh' = sh ∧
  (wf sh = true → ∀ d, found = Some d →
     is_Some (store sh !! d) ∧
     (isDirType filetype = true → isDirAt (store sh) d = true)).
Proof.
  unfold findFromCurrent. intros [= Hfind <-]. split; [done|].
  intros [[Hwf Hroot]%andb_prop Hcur]%andb_prop.
  destruct (findFile_result _ _ _ filepath filetype Hwf Hroot Hcur) as (r & Hr & Hres).
  rewrite Hr in Hfind. injection Hfind as <-. done.
Qed.

Lemma runsOk_modify_session (f : Shell → Shell) (sh : Shell) :
  sameSession sh (f sh) → store (f sh) = store sh →
  (wf sh = true → isDirAt (store sh) (currentDir (f sh)) = true) →
  runsOk (modify f) sh.
Proof.
  intros Hsame Hst Hcur. split; [|done]. simpl.
  split; [done|]. split; [rewrite Hst; apply extends_refl|].
  intros Hwf. specialize (Hcur Hwf). unfold wf in *. rewrite Hst.
  destruct Hsame as (-> & _).
  apply andb_prop in Hwf as [-> _]. by rewrite Hcur.
Qed.

Lemma wf_currentDir (sh : Shell) :
  wf sh = true → isDirAt (store sh) (currentDir sh) = true.
Proof. unfold wf. by intros [_ ?]%andb_prop. Qed.

Lemma wf_fileStructure (sh : Shell) :
  wf sh = true → isDirAt (store sh) (fileStructure sh) = true.
Proof. unfold wf. by intros [[_ ?]%andb_prop _]%andb_prop. Qed.

Lemma runsOk_alter (g : Shell → FileObject → FileObject) (r : ref) (sh : Shell) :
  (∀ s, keepsShape (g s)) →
  runsOk (modify (λ s, set_store (alter (g s) r (store s)) s)) sh.
Proof.
  intros Hg. split; [|done]. simpl. apply steps_set_store.
  - by apply extends_alter.
  - by apply wfStore_alter.
Qed.

Lemma runsOk_newFile (filepath : list string) (filetype : string) (sh : Shell) :
  runsOk (newFile filepath filetype) sh.
Proof.
  unfold newFile. apply runsOk_get_bind. apply runsOk_bind.
  { destruct (length filepath =? 1);
      [apply runsOk_ret | apply runsOk_findFromCurrent]. }
  intros [d|] sh' Hdir; [|apply runsOk_ret].
  assert (sh' = sh) as ->.
  { destruct (length filepath =? 1); [by injection Hdir as _ <-|].
    by apply findFromCurrent_result in Hdir as [-> _]. }
  unfold deref. destruct (store sh !! d) as [dobj|] eqn:Hd;
    [|by apply runsOk_pure].
  apply runsOk_bind; [by apply runsOk_lift|]. intros ? ? [= <- <-].
  destruct (pushChild _ dobj) as [dobj'|] eqn:Hpush; [|by apply runsOk_lift].
  apply runsOk_bind; [|intros; apply runsOk_ret].
  split; [|done]. simpl. apply steps_set_store.
  - by eapply extends_push.
  - intros Hwf. eapply wfStore_push; eauto; unfold newFileObject;
      destruct (String.eqb filetype "dir"); simpl; auto.
Qed.

Lemma runsOk_getPS1String (sh : Shell) : runsOk getPS1String sh.
Proof.
  apply runsOk_pure; unfold getPS1String, get, lift, deref, mbind, M_bind;
    simpl; by destruct (store sh !! currentDir sh).
Qed.

Lemma lsItems_noRange (st : list FileObject) (cs : list ref) (acc : string) :
  lsItems st cs acc ≠ Throw RangeError.
Proof.
  revert acc. induction cs as [|c cs IH]; intros acc; simpl; [done|].
  unfold deref. destruct (st !! c); simpl; [apply IH | done].
Qed.

Lemma lsHelper_noRange (st : list FileObject) (dir : ref) :
  lsHelper st dir ≠ Throw RangeError.
Proof.
  unfold lsHelper, deref. destruct (st !! dir) as [d|]; simpl; [|done].
  destruct (children d); [|done].
  pose proof (lsItems_noRange st l "<div>"). by destruct (lsItems _ _ _).
Qed.

(** Assignments to the page elements and to the child process. *)
Lemma runsOk_modify_display (f : Shell → Shell) (sh : Shell) :
  sameSession sh (f sh) → store (f sh) = store sh →
  currentDir (f sh) = currentDir sh →
  runsOk (modify f) sh.
Proof.
  intros Hsame Hst Hcur. apply runsOk_modify_session; try done.
  rewrite Hcur. apply wf_currentDir.
Qed.

(** One step of symbolic execution through a method body. *)
Ltac runs_step :=
  lazymatch goal with
  | |- runsOk (mret _) _ => apply runsOk_ret
  | |- runsOk (get ≫= _) _ => apply runsOk_get_bind
  | |- runsOk (findFromCurrent _ _) _ => apply runsOk_findFromCurrent
  | |- runsOk (newFile _ _) _ => apply runsOk_newFile
  | |- runsOk getPS1String _ => apply runsOk_getPS1String
  | |- runsOk (lift _) _ =>
      apply runsOk_lift;
      first [ apply deref_noRange | apply lsHelper_noRange | discriminate ]
  | |- runsOk (modify (λ s, set_store (alter _ _ _) _)) _ =>
      apply runsOk_alter;
      first [ intros ?; apply keepsShape_setLastModified
            | intros ?; apply keepsShape_setContents ]
  | |- runsOk (modify _) _ =>
      apply runsOk_modify_display; [by repeat split | done | done]
  | |- runsOk (forEachArg _ _ _) _ => apply runsOk_forEachArg; intros ? ? ?
  | |- runsOk (_ ≫= _) _ => apply runsOk_bind; [| intros ? ? ?]
  | |- runsOk (match ?x with _ => _ end) _ => destruct x
  | |- runsOk (if ?b then _ else _) _ => destruct b
  end.

Ltac runs := repeat runs_step.

Lemma runsOk_clear (sh : Shell) : runsOk clear sh.
Proof. unfold clear. runs. Qed.

Lemma runsOk_pwd (sh : Shell) : runsOk pwd sh.
Proof. unfold pwd. runs. Qed.

Lemma runsOk_whoami (sh : Shell) : runsOk whoami sh.
Proof. unfold whoami. runs. Qed.

Lemma runsOk_echo (c : ShellCommand) (sh : Shell) : runsOk (echo c) sh.
Proof. unfold echo. runs. Qed.

Lemma runsOk_ls (c : ShellCommand) (sh : Shell) : runsOk (ls c) sh.
Proof. unfold ls. runs. Qed.

Lemma runsOk_cat (c : ShellCommand) (sh : Shell) : runsOk (cat c) sh.
Proof. unfold cat. runs. Qed.

Lemma runsOk_touch (c : ShellCommand) (sh : Shell) : runsOk (touch c) sh.
Proof. unfold touch. runs. Qed.

Lemma runsOk_mkdir (c : ShellCommand) (sh : Shell) : runsOk (mkdir c) sh.
Proof. unfold mkdir. runs. Qed.

Lemma runsOk_vi (c : ShellCommand) (sh : Shell) : runsOk (vi c) sh.
Proof. unfold vi. runs. Qed.

Lemma runsOk_cd (c : ShellCommand) (sh : Shell) : runsOk (cd c) sh.
Proof.
  unfold cd. apply runsOk_get_bind. apply runsOk_bind; [runs|].
  intros [d|] sh' Hdir; [|runs].
  assert (sh' = sh ∧ (wf sh = true → isDirAt (store sh) d = true)) as [-> Hd].
  { destruct (args c) as [|arg0 rest].
    - injection Hdir as <- <-. split; [done | apply wf_fileStructure].
    - apply findFromCurrent_result in Hdir as [-> Hres]. split; [done|].
      intros Hwf. by destruct (Hres Hwf d eq_refl) as [_ ->]. }
  apply runsOk_bind.
  { apply runsOk_modify_session; [by repeat split | done | done]. }
  intros; runs.
Qed.

Lemma runsOk_dispatch (c : ShellCommand) (sh : Shell) : runsOk (dispatch c) sh.
Proof.
  unfold dispatch.
  repeat (match goal with |- runsOk (if ?b then _ else _) _ => destruct b end);
    auto using runsOk_clear, runsOk_pwd, runsOk_whoami, runsOk_cd, runsOk_ls,
      runsOk_cat, runsOk_touch, runsOk_mkdir, runsOk_echo, runsOk_vi.
  by apply runsOk_lift.
Qed.

Lemma runsOk_writeContents (pattern : string) (file : ref) (out : list string)
    (sh : Shell) :
  runsOk (writeContents pattern file out) sh.
Proof.
  unfold writeContents. destruct (String.eqb pattern ">"); [runs|].
  apply runsOk_get_bind. apply runsOk_bind; [runs|].
  intros f sh' [= _ <-]. destruct (contents f); [|runs].
  split; [|done]. simpl. apply steps_set_store.
  - apply extends_alter, keepsShape_setContents.
  - apply wfStore_alter, keepsShape_setContents.
Qed.

Lemma runsOk_storeOutput (pattern filepath : string) (res : ShellCommandResult)
    (sh : Shell) :
  runsOk (storeOutput pattern filepath res) sh.
Proof.
  unfold storeOutput. apply runsOk_bind; [runs|]. intros found sh1 _.
  apply runsOk_bind; [runs|]. intros [f|] sh2 _; [|runs].
  apply runsOk_bind; [apply runsOk_writeContents | intros; runs].
Qed.

Lemma runsOk_redirect (exec : string → M ShellCommandResult)
    (inputString pattern : string) (sh : Shell) :
  (∀ s, runsOk (exec (newInputOf inputString pattern)) s) →
  runsOk (redirect exec inputString pattern) sh.
Proof.
  intros Hexec. unfold redirect.
  destruct (afterSymbolOf inputString pattern); [runs|].
  apply runsOk_bind; [apply Hexec | intros; apply runsOk_storeOutput].
Qed.

(** Interpreting a line is a step of the session: the tree stays
    well-formed, no object of the store is lost, the line buffer, the
    history and the tab flag are not touched, and the recursion does not
    run out of depth. *)
Theorem executeCommand_runsOk (inputString : string) (sh : Shell) :
  runsOk (executeCommand inputString) sh.
Proof.
  remember (String.length inputString) as n eqn:Hn.
  revert inputString Hn sh.
  induction (lt_wf n) as [n _ IH]. intros input -> sh.
  unfold runsOk. rewrite executeCommand_eq.
  destruct (Js.includes input ">>") eqn:Hpp.
  { apply (runsOk_redirect executeCommand). intros s.
    eapply IH; [|done]. by apply newInputOf_shorter. }
  destruct (Js.includes input ">") eqn:Hp.
  { apply (runsOk_redirect executeCommand). intros s.
    eapply IH; [|done]. by apply newInputOf_shorter. }
  simpl. destruct (negb _).
  - apply (runsOk_ret _ sh).
  - apply runsOk_dispatch.
Qed.

(** ** Lines made of plain names *)

Module PlainFacts.
Import Js.

Lemma noneOf_weaken (c : ascii) (bad : list ascii) (s : string) :
  c ∈ bad → noneOf bad s = true → noneOf [c] s = true.
Proof.
  intros Hin. induction s as [|a s IH]; simpl; [done|].
  intros [Ha Hs]%andb_prop. rewrite IH by done.
  destruct (Ascii.eqb_spec a c) as [->|]; [|done].
  exfalso. apply negb_true_iff in Ha. apply not_true_iff_false in Ha.
  apply Ha, existsb_exists. exists c. split; [by apply list_elem_of_In|].
  apply Ascii.eqb_refl.
Qed.

Lemma split_noneOf (sep : ascii) (s : string) :
  noneOf [sep] s = true → split sep s = [s].
Proof.
  induction s as [|c s IH]; simpl; [done|].
  destruct (Ascii.eqb c sep); simpl; [done|]. intros H. by rewrite IH.
Qed.

Lemma split_app (sep : ascii) (s t : string) :
  noneOf [sep] s = true →
  split sep (s +:+ String sep t) = s :: split sep t.
Proof.
  induction s as [|c s IH]; simpl.
  - by rewrite Ascii.eqb_refl.
  - destruct (Ascii.eqb c sep); simpl; [done|]. intros H. by rewrite IH.
Qed.

Lemma search_noneOf (c : ascii) (pat s : string) :
  noneOf [c] s = true → search (String c pat) s = None.
Proof.
  induction s as [|a s IH]; [done|]. rewrite JsFacts.search_eq.
  simpl. intros [Ha Hs]%andb_prop. rewrite orb_false_r in Ha.
  apply negb_true_iff in Ha. rewrite IH by done.
  destruct (ascii_dec c a) as [->|]; [|done].
  by rewrite Ascii.eqb_refl in Ha.
Qed.

Lemma noneOf_app (bad : list ascii) (s t : string) :
  noneOf bad (s +:+ t) = noneOf bad s && noneOf bad t.
Proof.
  induction s as [|c s IH]; simpl; [done|]. by rewrite IH, andb_assoc.
Qed.

Lemma includes_noneOf (c : ascii) (pat s : string) :
  noneOf [c] s = true → includes s (String c pat) = false.
Proof. intros H. unfold includes. by rewrite search_noneOf. Qed.
End PlainFacts.

Lemma plainName_parts (n : string) :
  plainName n = true →
  specialSegment n = false ∧ n ≠ "" ∧
  noneOf [" "%char] n = true ∧ noneOf ["/"%char] n = true ∧
  noneOf [">"%char] n = true.
Proof.
  unfold plainName. intros [Hs Hn]%andb_prop. apply negb_true_iff in Hs.
  split; [done|]. split; [by intros ->|].
  repeat split;
    (apply (PlainFacts.noneOf_weaken _ [" "; "/"; ">"]%char); [|done]);
    apply list_elem_of_In; simpl; tauto.
Qed.

(** A line of two plain tokens is parsed into a command and one
    argument, and it holds no redirect operator. *)
Lemma newShellCommand_plain (cmd n : string) :
  plainName cmd = true → plainName n = true →
  newShellCommand (cmd +:+ " " +:+ n) = mkShellCommand (cmd +:+ " " +:+ n) cmd [n].
Proof.
  intros (_ & Hc & Hcs & _) % plainName_parts (_ & Hn & Hns & _)%plainName_parts.
  unfold newShellCommand, tokens.
  change (cmd +:+ " " +:+ n) with (cmd +:+ String " " n).
  rewrite PlainFacts.split_app, PlainFacts.split_noneOf by done.
  rewrite !filter_cons, filter_nil.
  by rewrite !decide_True by done.
Qed.

Lemma executeCommand_plain (cmd n : string) (sh : Shell) :
  plainName cmd = true → plainName n = true →
  Js.arrIncludes validCommands cmd = true →
  executeCommand (cmd +:+ " " +:+ n) sh =
  dispatch (mkShellCommand (cmd +:+ " " +:+ n) cmd [n]) sh.
Proof.
  intros Hcmd Hn Hvalid. rewrite executeCommand_eq.
  pose proof (plainName_parts _ Hcmd) as (_ & _ & _ & _ & Hc).
  pose proof (plainName_parts _ Hn) as (_ & _ & _ & _ & Hn').
  assert (noneOf [">"%char] (cmd +:+ " " +:+ n) = true) as Hnone.
  { rewrite !PlainFacts.noneOf_app, Hc, Hn'. done. }
  rewrite !PlainFacts.includes_noneOf by done.
  rewrite newShellCommand_plain by done. cbv zeta. cbn [command].
  by rewrite Hvalid.
Qed.

Lemma findFile_plain (st : list FileObject) (root dir : ref) (n : string)
    (filetype : option string) :
  wfStore st = true → isDirAt st dir = true → specialSegment n = false →
  findFile st root dir [n] filetype =
  Normal (childNamed st dir n (if truthy filetype then filetype else None)).
Proof.
  intros Hwf Hdir Hn. rewrite findFile_single. unfold specialSegment in Hn.
  apply orb_false_elim in Hn as [[[H0 H1]%orb_false_elim H2]%orb_false_elim H3].
  rewrite H0. simpl. unfold switchPathArg. rewrite H1, H2, H3.
  by apply findChild_childNamed.
Qed.

Lemma split_slash_plain (n : string) :
  plainName n = true → Js.split "/" n = [n].
Proof.
  intros (_ & _ & _ & Hs & _)%plainName_parts. by apply PlainFacts.split_noneOf.
Qed.

(** ** Children by name across store updates *)

Lemma filetype_isDir (f : FileObject) :
  filetype f = if isDir f then "dir" else "txt".
Proof. by destruct f. Qed.

Lemma namedChild_extends (st st' : list FileObject) (n : string)
    (typeFilter : option string) (c : ref) :
  extends st st' → is_Some (st !! c) →
  namedChild st' n typeFilter c = namedChild st n typeFilter c.
Proof.
  intros Hext [f Hf]. destruct (Hext c f Hf) as (f' & Hf' & Hn & _ & _ & Hd & _).
  unfold namedChild. by rewrite Hf, Hf', Hn, !filetype_isDir, Hd.
Qed.

Lemma filter_namedChild_extends (st st' : list FileObject) (n : string)
    (typeFilter : option string) (cs : list ref) :
  extends st st' → Forall (λ c, is_Some (st !! c)) cs →
  filter (λ c, namedChild st' n typeFilter c = true) cs =
  filter (λ c, namedChild st n typeFilter c = true) cs.
Proof.
  intros Hext Hall. induction Hall as [|c cs Hc _ IH]; [done|].
  rewrite !filter_cons, IH. by rewrite (namedChild_extends st st').
Qed.

Lemma wf_children_valid (st : list FileObject) (r : ref) (f : FileObject)
    (cs : list ref) :
  wfStore st = true → st !! r = Some f → children f = Some cs →
  Forall (λ c, is_Some (st !! c)) cs.
Proof.
  intros Hwf Hr Hcs. eapply Forall_impl; [by eapply wf_children|].
  intros c (g & Hg & _)%childOk_lookup. eauto.
Qed.

(** Assigning contents or a time stamp changes no lookup by name. *)
Lemma childrenNamed_alter (g : FileObject → FileObject) (r : ref)
    (st : list FileObject) (dir : ref) (n : string) (typeFilter : option string) :
  keepsShape g → wfStore st = true →
  childrenNamed (alter g r st) dir n typeFilter = childrenNamed st dir n typeFilter.
Proof.
  intros Hg Hwf. unfold childrenNamed.
  assert ((alter g r st !! dir) ≫= children = (st !! dir) ≫= children) as ->.
  { destruct (decide (dir = r)) as [->|Hne].
    - rewrite list_lookup_alter_eq. destruct (st !! r) as [f|]; [|done]. simpl.
      by destruct (Hg f) as (_ & _ & _ & _ & ->).
    - by rewrite list_lookup_alter_ne. }
  destruct (st !! dir) as [d|] eqn:Hd; [|done]. simpl.
  destruct (children d) as [cs|] eqn:Hcs; [|done].
  apply filter_namedChild_extends; [by apply extends_alter|].
  by eapply wf_children_valid.
Qed.

(** After [dir.children.push(file)] the lookups in [dir] see the old
    matches followed by the new file, if it matches. *)
Lemma childrenNamed_push (st : list FileObject) (d : ref)
    (dobj dobj' file : FileObject) (n : string) (typeFilter : option string) :
  wfStore st = true →
  st !! d = Some dobj → pushChild (length st) dobj = Some dobj' →
  childrenNamed (<[d := dobj']> (st ++ [file])) d n typeFilter =
  childrenNamed st d n typeFilter ++
  (if String.eqb n (name file) &&
      match typeFilter with Some t => String.eqb t (filetype file) | None => true end
   then [length st] else []).
Proof.
  intros Hwf Hd Hpush.
  pose proof (extends_push st d dobj dobj' file Hd Hpush) as Hext.
  pose proof (lookup_lt_Some _ _ _ Hd) as Hlt.
  unfold childrenNamed. rewrite Hd.
  rewrite list_lookup_insert_eq by (rewrite length_app; lia).
  destruct dobj as [nm p par cs ct lm|]; [|done]. injection Hpush as <-. simpl.
  rewrite filter_app. f_equal.
  - apply filter_namedChild_extends; [done|]. by eapply wf_children_valid.
  - assert (namedChild (<[d:=DirFile nm p par (cs ++ [length st]) ct lm]> (st ++ [file]))
              n typeFilter (length st) =
            String.eqb n (name file) &&
            match typeFilter with
            | Some t => String.eqb t (filetype file)
            | None => true
            end) as Hnew.
    { unfold namedChild. rewrite list_lookup_insert_ne by lia.
      by rewrite lookup_app_r, Nat.sub_diag by lia. }
    rewrite filter_cons, filter_nil.
    destruct (decide _) as [Hm|Hm]; rewrite Hnew in Hm; by destruct (_ && _).
Qed.

Lemma childNamed_childrenNamed_nil (st : list FileObject) (dir : ref) (n : string)
    (typeFilter : option string) :
  childNamed st dir n typeFilter = None ↔ childrenNamed st dir n typeFilter = [].
Proof. unfold childNamed. apply last_None. Qed.

(** ** Commands on a plain name in the current directory *)

Lemma wf_wfStore (sh : Shell) : wf sh = true → wfStore (store sh) = true.
Proof. unfold wf. by intros [[? _]%andb_prop _]%andb_prop. Qed.

Lemma findFromCurrent_plain (sh : Shell) (n : string) (filetype : option string) :
  wf sh = true → specialSegment n = false →
  findFromCurrent [n] filetype sh =
  (Normal (childNamed (store sh) (currentDir sh) n
             (if truthy filetype then filetype else None)), sh).
Proof.
  intros Hwf Hn. unfold findFromCurrent.
  by rewrite findFile_plain by auto using wf_wfStore, wf_currentDir.
Qed.

Lemma wf_currentDir_lookup (sh : Shell) :
  wf sh = true →
  ∃ dobj dobj', store sh !! currentDir sh = Some dobj ∧
                pushChild (length (store sh)) dobj = Some dobj'.
Proof.
  intros (dobj & Hd & Hdir)%wf_currentDir%isDirAt_lookup.
  destruct dobj; [|done]. eauto.
Qed.

(** [newFile] on a single segment puts a new object into the current
    directory. *)
Lemma newFile_single (sh : Shell) (n filetype : string) :
  wf sh = true →
  newFile [n] filetype sh =
  (Normal (newResult Undefined Undefined (Some (length (store sh)))),
   set_store (storeWithNew sh n filetype) sh).
Proof.
  intros (dobj & dobj' & Hd & Hpush)%wf_currentDir_lookup.
  unfold newFile, storeWithNew, get, lift, deref, modify, mbind, M_bind, mret, M_ret.
  simpl. rewrite Hd, Hpush. done.
Qed.

Lemma childrenNamed_storeWithNew (sh : Shell) (n filetype : string)
    (m : string) (typeFilter : option string) :
  wf sh = true →
  childrenNamed (storeWithNew sh n filetype) (currentDir sh) m typeFilter =
  childrenNamed (store sh) (currentDir sh) m typeFilter ++
  (if String.eqb m n &&
      match typeFilter with
      | Some t => String.eqb t (if String.eqb filetype "dir" then "dir" else "txt")
      | None => true
      end
   then [length (store sh)] else []).
Proof.
  intros Hwf. destruct (wf_currentDir_lookup sh Hwf) as (dobj & dobj' & Hd & Hpush).
  unfold storeWithNew. rewrite Hd, Hpush.
  rewrite (childrenNamed_push _ _ dobj) by auto using wf_wfStore.
  unfold newFileObject. by destruct (String.eqb filetype "dir").
Qed.

Lemma wf_storeWithNew (sh : Shell) (n filetype : string) :
  wf sh = true → wf (set_store (storeWithNew sh n filetype) sh) = true.
Proof.
  intros Hwf. pose proof (runsOk_newFile [n] filetype sh) as [(_ & _ & Hsteps) _].
  rewrite newFile_single in Hsteps by done. by apply Hsteps.
Qed.

(** [mkdir n] creates a directory only where the current directory has
    none of that name. *)
Lemma mkdir_plain (sh : Shell) (c : ShellCommand) (n : string) :
  wf sh = true → plainName n = true → args c = [n] →
  (mkdir c sh).2 =
  match childrenNamed (store sh) (currentDir sh) n (Some "dir") with
  | [] => set_store (storeWithNew sh n "dir") sh
  | _ => sh
  end.
Proof.
  intros Hwf Hn Hargs. pose proof (plainName_parts n Hn) as (Hsp & _).
  unfold mkdir. rewrite Hargs. cbn [forEachArg].
  rewrite split_slash_plain by done.
  unfold mbind, M_bind. rewrite findFromCurrent_plain by done. simpl.
  unfold childNamed.
  destruct (childrenNamed _ _ n (Some "dir")) as [|c0 cs] eqn:Hcs.
  - simpl. by rewrite newFile_single.
  - by destruct (last_is_Some (c0 :: cs)) as [_ [x ->]].
Qed.


Lemma after_wf (line : string) (sh : Shell) :
  wf sh = true → wf (after line sh) = true.
Proof.
  intros Hwf. by destruct (executeCommand_runsOk line sh) as [(_ & _ & Hw) _]; auto.
Qed.

Lemma after_mkdir (sh : Shell) (n : string) :
  wf sh = true → plainName n = true →
  after ("mkdir " +:+ n) sh =
  match childrenNamed (store sh) (currentDir sh) n (Some "dir") with
  | [] => set_store (storeWithNew sh n "dir") sh
  | _ => sh
  end.
Proof.
  intros Hwf Hn. unfold after.
  rewrite (executeCommand_plain "mkdir" n) by done.
  change (dispatch ?c) with (mkdir c). by apply mkdir_plain.
Qed.


(** ** Changing directory *)

Lemma executeCommand_cd_up (sh : Shell) :
  executeCommand "cd .." sh = cd (mkShellCommand "cd .." "cd" [".."]) sh.
Proof. by rewrite executeCommand_eq. Qed.

(** [cd] on an argument that resolves. *)
Lemma cd_found (sh : Shell) (c : ShellCommand) (arg0 : string) (rest : list string)
    (d : ref) :
  args c = arg0 :: rest →
  findFile (store sh) (fileStructure sh) (currentDir sh) (Js.split "/" arg0)
    (Some "dir") = Normal (Some d) →
  is_Some (store sh !! d) →
  (cd c sh).1 = Normal emptyResult ∧ currentDir (cd c sh).2 = d ∧
  store (cd c sh).2 = store sh.
Proof.
  intros Hargs Hfind [f Hf].
  unfold cd, get, modify, getPS1String, lift, findFromCurrent, deref,
    mbind, M_bind, mret, M_ret.
  rewrite Hargs, Hfind. simpl. by rewrite Hf.
Qed.

(** [cd] on an argument that does not resolve. *)
Lemma cd_not_found (sh : Shell) (c : ShellCommand) (arg0 : string) (rest : list string) :
  args c = arg0 :: rest →
  findFile (store sh) (fileStructure sh) (currentDir sh) (Js.split "/" arg0)
    (Some "dir") = Normal None →
  cd c sh =
  (Normal (newResult Undefined (Str (arg0 +:+ ": directory not found")) None), sh).
Proof.
  intros Hargs Hfind.
  unfold cd, get, findFromCurrent, mbind, M_bind, mret, M_ret.
  by rewrite Hargs, Hfind.
Qed.

Lemma childNamed_elem (st : list FileObject) (dir d : ref) (n : string)
    (typeFilter : option string) :
  childNamed st dir n typeFilter = Some d →
  ∃ dobj cs, st !! dir = Some dobj ∧ children dobj = Some cs ∧ d ∈ cs ∧
             namedChild st n typeFilter d = true.
Proof.
  unfold childNamed, childrenNamed.
  destruct (st !! dir) as [dobj|]; [|done]. simpl.
  destruct (children dobj) as [cs|] eqn:Hcs; [|done].
  intros [Hm Hin]%last_Some_elem_of%list_elem_of_filter. by exists dobj, cs.
Qed.

(** C7 (as amended):  in a well-formed session, [cd n] into a child
    directory of the current directory, named by the plain name [n],
    followed by [cd ..] restores the previous current directory.  At the
    root, which has no parent, ['..'] resolves to null: [cd ..] reports
    ["..: directory not found"] and changes nothing, so the current
    directory is still the root. *)
Theorem cd_child_then_up (sh : Shell) :
  wf sh = true →
  (∀ n d, plainName n = true →
     childNamed (store sh) (currentDir sh) n (Some "dir") = Some d →
     let sh1 := after ("cd " +:+ n) sh in
     resultOf ("cd " +:+ n) sh = Normal emptyResult ∧ currentDir sh1 = d ∧
     resultOf "cd .." sh1 = Normal emptyResult ∧
     currentDir (after "cd .." sh1) = currentDir sh) ∧
  (currentDir sh = fileStructure sh →
   store sh !! fileStructure sh ≫= parentRef = None →
   executeCommand "cd .." sh =
   (Normal (newResult Undefined (Str "..: directory not found") None), sh)).
Proof.
  intros Hwf. split.
  - intros n d Hn Hchild sh1.
    pose proof (plainName_parts n Hn) as (Hsp & _).
    destruct (childNamed_elem _ _ _ _ _ Hchild) as (dobj & cs & Hcur & Hcs & Hin & Hm).
    assert (∃ g, store sh !! d = Some g ∧ parentRef g = Some (currentDir sh))
      as (g & Hg & Hpar).
    { pose proof (wf_children _ _ _ _ (wf_wfStore _ Hwf) Hcur Hcs) as Hall.
      rewrite Forall_forall in Hall. by apply childOk_lookup, Hall. }
    assert (findFile (store sh) (fileStructure sh) (currentDir sh)
              (Js.split "/" n) (Some "dir") = Normal (Some d)) as Hfind.
    { rewrite split_slash_plain by done.
      rewrite findFile_plain by auto using wf_wfStore, wf_currentDir.
      by rewrite <- Hchild. }
    destruct (cd_found sh (mkShellCommand ("cd " +:+ n) "cd" [n]) n [] d
                eq_refl Hfind (ex_intro _ g Hg)) as (Hres & Hdir & Hst).
    assert (executeCommand ("cd " +:+ n) sh =
            cd (mkShellCommand ("cd " +:+ n) "cd" [n]) sh) as Hexec.
    { by rewrite (executeCommand_plain "cd" n). }
    assert (resultOf ("cd " +:+ n) sh = Normal emptyResult) as Hr1.
    { unfold resultOf. by rewrite Hexec. }
    assert (currentDir sh1 = d ∧ store sh1 = store sh) as [Hd1 Hst1].
    { unfold sh1, after. by rewrite Hexec. }
    assert (fileStructure sh1 = fileStructure sh) as Hroot1.
    { unfold sh1, after.
      by destruct (executeCommand_runsOk ("cd " +:+ n) sh) as [((? & _) & _) _]. }
    split; [done|]. split; [done|].
    assert (findFile (store sh1) (fileStructure sh1) (currentDir sh1)
              (Js.split "/" "..") (Some "dir") = Normal (Some (currentDir sh))) as Hup.
    { rewrite Hst1, Hd1. change (Js.split "/" "..") with [".."].
      rewrite findFile_single. simpl. unfold switchPathArg, deref. simpl.
      rewrite Hg. simpl. by rewrite Hpar. }
    destruct (cd_found sh1 (mkShellCommand "cd .." "cd" [".."]) ".." []
                (currentDir sh) eq_refl Hup) as (Hres2 & Hdir2 & _).
    { rewrite Hst1. eauto. }
    unfold resultOf, after. by rewrite executeCommand_cd_up.
  - intros Hcur Hpar. rewrite executeCommand_cd_up.
    apply (cd_not_found sh _ ".." []); [done|].
    change (Js.split "/" "..") with [".."].
    rewrite findFile_single. simpl. unfold switchPathArg, deref. simpl.
    rewrite Hcur.
    destruct (isDirAt_lookup _ _ (wf_fileStructure _ Hwf)) as (f & Hf & _).
    rewrite Hf in *. simpl in *. by rewrite Hpar.
Qed.

(** Witness for C7: a root with one directory [a]; into [a] and back,
    then [cd ..] at the root. *)
Lemma cd_child_then_up_witness :
  let sh := newShell [DirFile "" "~" None [1] None None;
                      DirFile "a" "~/a" (Some 0) [] None None] 0 0 in
  currentDir (after "cd .." (after "cd a" sh)) = 0 ∧
  executeCommand "cd .." sh =
  (Normal (newResult Undefined (Str "..: directory not found") None), sh).
Proof.
  intros sh. destruct (cd_child_then_up sh eq_refl) as [Hchild Hroot].
  split.
  - exact (proj2 (proj2 (proj2 (Hchild "a" 1 eq_refl eq_refl)))).
  - exact (Hroot eq_refl eq_refl).
Defined.

(** C7, counterexample: at start-up the current directory is the root,
    and [cd ..] does not succeed there: ['..'] resolves to null and the
    command reports an error. *)
Lemma cd_up_at_root_counterexample :
  findFile (store freshShell) (fileStructure freshShell) (currentDir freshShell)
    [".."] (Some "dir") ≠ Normal (Some (fileStructure freshShell)) ∧
  resultOf "cd .." freshShell =
    Normal (mkResult [] ["..: directory not found"] None).
Proof. split; [discriminate | reflexivity]. Qed.

(** ** Redirecting into a text file of the current directory *)

Lemma namedChild_any (st : list FileObject) (n : string) (c : ref) :
  namedChild st n None c =
  namedChild st n (Some "txt") c || namedChild st n (Some "dir") c.
Proof.
  unfold namedChild. destruct (st !! c) as [f|]; [|done].
  destruct (String.eqb n (name f)); [|done]. by destruct f.
Qed.

(** Without a directory of that name, all children named [n] are text
    files. *)
Lemma childrenNamed_no_dir (st : list FileObject) (dir : ref) (n : string) :
  childrenNamed st dir n (Some "dir") = [] →
  childrenNamed st dir n None = childrenNamed st dir n (Some "txt").
Proof.
  unfold childrenNamed. destruct (st !! dir ≫= children) as [cs|]; [|done].
  induction cs as [|c cs IH]; [done|].
  rewrite !filter_cons. pose proof (namedChild_any st n c) as Hany.
  destruct (decide (namedChild st n (Some "dir") c = true)) as [|Hd]; [done|].
  apply not_true_is_false in Hd. rewrite Hd, orb_false_r in Hany.
  intros Hnil. rewrite IH by done.
  destruct (decide (namedChild st n None c = true)) as [H1|H1],
    (decide (namedChild st n (Some "txt") c = true)) as [H2|H2];
    try done; congruence.
Qed.

Lemma storeOutput_found (sh : Shell) (pattern n : string) (res : ShellCommandResult)
    (t : ref) (nm p : string) (par : option ref) (old : list string) (lm : nat) :
  wf sh = true → specialSegment n = false →
  childNamed (store sh) (currentDir sh) n (Some "txt") = Some t →
  store sh !! t = Some (TxtFile nm p par old lm) →
  storeOutput pattern n res sh =
  (Normal (mkResult [] (stdErr res) None),
   set_store (alter (setContents (if String.eqb pattern ">" then stdOut res
                                  else old ++ stdOut res)) t (store sh)) sh).
Proof.
  intros Hwf Hn Hchild Ht. unfold storeOutput, mbind, M_bind.
  rewrite findFromCurrent_plain by done. simpl. rewrite Hchild. simpl.
  unfold writeContents. destruct (String.eqb pattern ">"); [done|].
  unfold get, lift, deref, modify, mbind, M_bind. simpl. by rewrite Ht.
Qed.

Lemma storeOutput_new (sh : Shell) (n : string) (res : ShellCommandResult) :
  wf sh = true → specialSegment n = false →
  childNamed (store sh) (currentDir sh) n (Some "txt") = None →
  storeOutput ">" n res sh =
  (Normal (mkResult [] (stdErr res) None),
   set_store (alter (setContents (stdOut res)) (length (store sh))
                (storeWithNew sh n "txt")) sh).
Proof.
  intros Hwf Hn Hchild. unfold storeOutput, mbind, M_bind.
  rewrite findFromCurrent_plain by done. simpl. rewrite Hchild.
  by rewrite newFile_single.
Qed.

Lemma textFileAt_alter (sh : Shell) (n : string) (t : ref) (nm p : string)
    (par : option ref) (old c : list string) (lm : nat) :
  wf sh = true →
  childNamed (store sh) (currentDir sh) n (Some "txt") = Some t →
  childNamed (store sh) (currentDir sh) n None = Some t →
  store sh !! t = Some (TxtFile nm p par old lm) →
  textFileAt (set_store (alter (setContents c) t (store sh)) sh) n c.
Proof.
  intros Hwf Htxt Hany Ht. exists t, nm, p, par, lm. simpl. unfold childNamed in *.
  rewrite !childrenNamed_alter by auto using keepsShape_setContents, wf_wfStore.
  by rewrite list_lookup_alter_eq, Ht.
Qed.

(** Redirecting with [>] to a name that is no directory leaves a text
    file with exactly the redirected lines. *)
Lemma storeOutput_truncate (sh : Shell) (n : string) (res : ShellCommandResult) :
  wf sh = true → specialSegment n = false →
  childNamed (store sh) (currentDir sh) n (Some "dir") = None →
  textFileAt (storeOutput ">" n res sh).2 n (stdOut res).
Proof.
  intros Hwf Hn Hnodir. apply childNamed_childrenNamed_nil in Hnodir.
  destruct (childNamed (store sh) (currentDir sh) n (Some "txt")) as [t|] eqn:Htxt.
  - destruct (childNamed_elem _ _ _ _ _ Htxt) as (_ & _ & _ & _ & _ & Hm).
    unfold namedChild in Hm. destruct (store sh !! t) as [f|] eqn:Ht; [|done].
    destruct f as [|nm p par old lm]; [by rewrite andb_false_r in Hm|].
    rewrite (storeOutput_found _ _ _ _ _ _ _ _ _ _ Hwf Hn Htxt Ht). simpl snd.
    eapply textFileAt_alter; eauto.
    unfold childNamed in *. by rewrite childrenNamed_no_dir.
  - rewrite storeOutput_new by done. simpl snd.
    pose proof (wf_storeWithNew sh n "txt" Hwf) as Hwf'.
    destruct (wf_currentDir_lookup sh Hwf) as (dobj & dobj' & Hd & Hpush).
    assert (storeWithNew sh n "txt" !! length (store sh) =
            Some (TxtFile n (fullPath dobj +:+ "/" +:+ n) (Some (currentDir sh)) [] (now sh)))
      as Hnew.
    { unfold storeWithNew. rewrite Hd, Hpush.
      pose proof (lookup_lt_Some _ _ _ Hd).
      rewrite list_lookup_insert_ne by lia.
      by rewrite lookup_app_r, Nat.sub_diag by lia. }
    eapply (textFileAt_alter (set_store (storeWithNew sh n "txt") sh)); eauto;
      simpl; unfold childNamed;
      rewrite childrenNamed_storeWithNew, String.eqb_refl by done; simpl;
      by rewrite last_snoc.
Qed.

(** Redirecting to a name that leads to a text file replaces its lines
    ([>]) or appends to them ([>>]). *)
Lemma storeOutput_textFileAt (sh : Shell) (pattern n : string)
    (res : ShellCommandResult) (c : list string) :
  wf sh = true → specialSegment n = false → textFileAt sh n c →
  textFileAt (storeOutput pattern n res sh).2 n
    (if String.eqb pattern ">" then stdOut res else c ++ stdOut res).
Proof.
  intros Hwf Hn (t & nm & p & par & lm & Htxt & Hany & Ht).
  rewrite (storeOutput_found _ _ _ _ _ _ _ _ _ _ Hwf Hn Htxt Ht). simpl snd.
  eapply textFileAt_alter; eauto.
Qed.

(** [cat] of a name that leads to a text file yields its lines. *)
Lemma cat_textFileAt (sh : Shell) (cmd : ShellCommand) (n : string) (c : list string) :
  wf sh = true → specialSegment n = false → Js.split "/" n = [n] →
  args cmd = [n] → textFileAt sh n c →
  cat cmd sh = (Normal (mkResult c [] None), sh).
Proof.
  intros Hwf Hn Hsplit Hargs (t & nm & p & par & lm & Htxt & Hany & Ht).
  unfold cat. rewrite Hargs. cbn [forEachArg]. rewrite Hsplit.
  unfold mbind, M_bind. rewrite findFromCurrent_plain by done. simpl.
  rewrite Hany. unfold get, lift, deref, mbind, M_bind. simpl. by rewrite Ht.
Qed.

(** ** Where [redirect] departs from its description *)

(** The split text after the operator always has a first element. *)
Lemma afterSymbolOf_not_nil (inputString pattern : string) :
  1 ≤ length (afterSymbolOf inputString pattern).
Proof.
  unfold afterSymbolOf.
  pose proof (JsFacts.split_not_nil " "
    (Js.trim (Js.sliceFrom inputString
       (Js.indexOf inputString pattern + Z.of_nat (String.length pattern))))) as Hne.
  destruct (Js.split _ _); [done | simpl; lia].
Qed.

(** C3 (the program at the failing input):  with [>>] the tokens after
    the target are taken from index [pattern.length = 2] of the split
    text, so the first of them is lost: for [echo a >> f b c] the inner
    line is [echo a c], and [f] receives ["a c"].  With [>] the index is
    1 and all tokens come back: [echo a > f b c] gives [echo a b c]. *)
Theorem redirect_append_drops_first_token :
  afterSymbolOf "echo a >> f b c" ">>" = ["f"; "b"; "c"] ∧
  newInputOf "echo a >> f b c" ">>" = "echo a c" ∧
  resultOf "cat f" (after "echo a >> f b c" freshShell) =
    Normal (mkResult ["a c"] [] None) ∧
  newInputOf "echo a > f b c" ">" = "echo a b c".
Proof. repeat split; reflexivity. Qed.

(** C4 (the program at the failing input):  the target is handed to
    [findFile] and [newFile] as the one-segment path [[filepath]], never
    split at ['/'].  [echo hi > nodir/f.txt] therefore creates, in the
    current directory, a text file whose name is [nodir/f.txt], and the
    result carries no error line.  Where the directory exists, as [a]
    after [mkdir a], the file of [echo hi > a/f.txt] is not put into [a]
    either, and [cat a/f.txt] does not find it. *)
Theorem redirect_into_missing_directory :
  resultOf "echo hi > nodir/f.txt" freshShell = Normal (mkResult [] [] None) ∧
  store (after "echo hi > nodir/f.txt" freshShell) =
    [DirFile "" "~" None [1] None None;
     TxtFile "nodir/f.txt" "~/nodir/f.txt" (Some 0) ["hi"] 0] ∧
  store (after "echo hi > a/f.txt" (after "mkdir a" freshShell)) =
    [DirFile "" "~" None [1; 2] None None;
     DirFile "a" "~/a" (Some 0) [] None None;
     TxtFile "a/f.txt" "~/a/f.txt" (Some 0) ["hi"] 0] ∧
  resultOf "cat a/f.txt" (after "echo hi > a/f.txt" (after "mkdir a" freshShell)) =
    Normal (mkResult [] ["cat: a/f.txt: No such file or directory"] None).
Proof. repeat split; reflexivity. Qed.

(** C5 (the program at the failing input):  [split] never yields the
    empty array, so the test for a missing target never fires.
    [echo hi >] creates a text file with the empty name and returns no
    error line. *)
Theorem redirect_without_target :
  (∀ inputString pattern, 1 ≤ length (afterSymbolOf inputString pattern)) ∧
  afterSymbolOf "echo hi >" ">" = [""] ∧
  resultOf "echo hi >" freshShell = Normal (mkResult [] [] None) ∧
  store (after "echo hi >" freshShell) =
    [DirFile "" "~" None [1] None None;
     TxtFile "" "~/" (Some 0) ["hi"] 0].
Proof.
  split; [apply afterSymbolOf_not_nil | repeat split; reflexivity].
Qed.

(** ** Faults that leave the interpreter *)

Lemma executeCommand_vi (sh : Shell) :
  executeCommand "vi" sh = (Throw TypeError, sh).
Proof. by rewrite executeCommand_eq. Qed.

(** C8 (the program at the failing inputs):  [vi] without an argument
    evaluates [shellCommand.args[0].split('/')] on an undefined
    [args[0]] and throws, in every session.  Submitted with Enter, the
    throw leaves [handleEnter] half-way: the line is in the history, but
    the line buffer is not cleared and the history cursor not reset.  A
    tab press on [ls nodir/x] throws as well, whatever
    [getContentsByTypes] is: the directory part does not resolve and the
    method is called on null. *)
Theorem vi_without_argument_throws :
  (∀ sh, resultOf "vi" sh = Throw TypeError) ∧
  (let out := shellKeystroke listByTypes enterKey (set_inputString "vi" freshShell) in
   out.1 = Throw TypeError ∧ inputString out.2 = "vi" ∧
   bashHistory out.2 = ["vi"] ∧ historyIndex out.2 = 0) ∧
  (∀ getContentsByTypes,
     (shellKeystroke getContentsByTypes tabKey
        (set_inputString "ls nodir/x" freshShell)).1 = Throw TypeError).
Proof.
  split; [|split].
  - intros sh. unfold resultOf. by rewrite executeCommand_vi.
  - repeat split; reflexivity.
  - intros g. reflexivity.
Qed.

(** ** Tab completion and the pending flag *)

Section TabFacts.

Variable getContentsByTypes :
  list FileObject → FileObject → ValidTypes → Completion (list ref).

Lemma getAutocompleteFiles_state (partial : string) (filetypes : ValidTypes)
    (sh : Shell) :
  (getAutocompleteFiles getContentsByTypes partial filetypes sh).2 = sh.
Proof.
  unfold getAutocompleteFiles, findFromCurrent, get, lift, mbind, M_bind, mret, M_ret.
  repeat case_match; simplify_eq/=; done.
Qed.

(** Computing the candidates changes nothing. *)
Lemma tabOptions_state (sh : Shell) : (tabOptions getContentsByTypes sh).2 = sh.
Proof.
  unfold tabOptions, get, mbind, M_bind, mret, M_ret.
  destruct (String.eqb _ ""); [done|]. destruct (_ && _); [done|].
  pose proof (getAutocompleteFiles_state
                (List.last (args (newShellCommand (inputString sh))) "")
                (getValidTypes (command (newShellCommand (inputString sh)))) sh) as H1.
  destruct (getAutocompleteFiles _ _ _ sh) as [[opts|e] sh1]; simpl in H1; subst sh1;
    [|done].
  destruct (length opts =? 0); [|done].
  pose proof (getAutocompleteFiles_state
                (List.last (args (newShellCommand (inputString sh))) "")
                (Types ["dir"]) sh) as H2.
  by destruct (getAutocompleteFiles _ _ _ sh) as [[opts'|e] sh2]; simpl in H2; subst sh2.
Qed.

Lemma shellKeystroke_tab (sh : Shell) :
  shellKeystroke getContentsByTypes tabKey sh = handleTab getContentsByTypes sh.
Proof. reflexivity. Qed.

Lemma handleTab_options (sh : Shell) (partial : string) (options : list string) :
  (tabOptions getContentsByTypes sh).1 = Normal (partial, options) →
  handleTab getContentsByTypes sh =
  match options with
  | [] => (Normal tt, sh)
  | [complete] => executeAutoComplete partial complete sh
  | _ => printAutoCompleteOptions options sh
  end.
Proof.
  intros Hopts. pose proof (tabOptions_state sh) as Hst.
  unfold handleTab, mbind, M_bind.
  destruct (tabOptions getContentsByTypes sh) as [r sh']. simpl in *. subst.
  by destruct options as [|? [|? ?]].
Qed.

Lemma sliceFrom_drop (s : string) (k : nat) :
  Js.sliceFrom s (Z.of_nat k) = Js.drop_str k s.
Proof.
  unfold Js.sliceFrom, Js.slice. rewrite !JsFacts.clampIndex_nat.
  rewrite Nat.min_id. revert k. induction s as [|c s IH]; intros k.
  - by destruct k.
  - destruct k as [|k]; simpl.
    + f_equal. specialize (IH 0). simpl in IH. rewrite Nat.sub_0_r in IH.
      by destruct s.
    + apply IH.
Qed.

(** Executing a line leaves the pending flag alone. *)
Lemma executeCommand_tabPressed (line : string) (sh : Shell) :
  tabPressed (executeCommand line sh).2 = tabPressed sh.
Proof.
  by destruct (executeCommand_runsOk line sh)
    as [((_ & _ & _ & _ & _ & ? & _) & _) _].
Qed.

Lemma handleEnter_tabPressed (sh : Shell) :
  tabPressed (handleEnter sh).2 = tabPressed sh.
Proof.
  unfold handleEnter, getPS1String, print, get, lift, modify, deref,
    mbind, M_bind, mret, M_ret.
  destruct (negb _); destruct (store sh !! currentDir sh); simpl; try done.
  match goal with
  | |- context [executeCommand ?l ?s] =>
      pose proof (executeCommand_tabPressed l s) as Hexec;
      destruct (executeCommand l s) as [[res|e] sh']
  end; simpl in *; done.
Qed.

End TabFacts.

(** C9 (as amended):  when a tab press finds several candidates, it
    arms the pending flag and prints nothing if the flag was clear; if the
    flag was set it prints the prompt line and all candidates and leaves
    the flag set, so that every further consecutive tab press prints them
    again.  Every keystroke other than tab clears the flag.  When exactly
    one candidate matches, the candidate without its first
    [wordPartial.length] characters is appended to the line buffer and
    to the prompt element, [wordPartial] being the final path segment of
    what was typed. *)
Theorem tab_completion_cycle
    (getContentsByTypes : list FileObject → FileObject → ValidTypes → Completion (list ref))
    (sh : Shell) (partial : string) (options : list string) :
  (tabOptions getContentsByTypes sh).1 = Normal (partial, options) →
  (1 < length options →
     (tabPressed sh = false →
        shellKeystroke getContentsByTypes tabKey sh =
        (Normal tt, set_tabPressed true sh)) ∧
     (tabPressed sh = true →
        ∀ ps1, (getPS1String sh).1 = Normal ps1 →
          shellKeystroke getContentsByTypes tabKey sh =
          (Normal tt,
           set_outputElement
             (outputElement sh ++ [Line (ps1 +:+ inputString sh); Inline options]) sh) ∧
          tabPressed (shellKeystroke getContentsByTypes tabKey sh).2 = true)) ∧
  (∀ complete, options = [complete] →
     let completion := Js.drop_str (String.length (wordPartialOf partial)) complete in
     shellKeystroke getContentsByTypes tabKey sh =
     (Normal tt,
      set_inputPromptElement (inputPromptElement sh +:+ completion)
        (set_inputString (inputString sh +:+ completion) sh))) ∧
  (∀ event, which event ≠ 9 →
     tabPressed (shellKeystroke getContentsByTypes event sh).2 = false).
Proof.
  intros Hopts. split; [|split].
  - intros Hmany. rewrite shellKeystroke_tab, (handleTab_options _ _ _ _ Hopts).
    destruct options as [|o1 [|o2 rest]]; [simpl in Hmany; lia..|].
    unfold printAutoCompleteOptions, get, mbind, M_bind. split.
    + by intros ->.
    + intros Htab ps1 Hps1. rewrite Htab.
      unfold getPS1String, print, get, lift, modify, deref, mbind, M_bind, mret, M_ret in *.
      destruct (store sh !! currentDir sh); simpl in *; [|done].
      injection Hps1 as <-. split; [|done]. f_equal.
      unfold set_outputElement; simpl. by rewrite <- app_assoc.
  - intros complete -> completion.
    rewrite shellKeystroke_tab, (handleTab_options _ _ _ _ Hopts).
    unfold executeAutoComplete, modify, mbind, M_bind.
    fold (wordPartialOf partial). by rewrite sliceFrom_drop.
  - intros event Hkey. unfold shellKeystroke, get, modify, mbind, M_bind, mret, M_ret.
    destruct (which event =? 13).
    { simpl. by rewrite handleEnter_tabPressed. }
    destruct (which event =? 8); [done|].
    destruct (_ && _); [done|]. destruct (_ && _); [done|].
    destruct (Nat.eqb_spec (which event) 9); done.
Qed.

(** Witness for C9: with [c] typed at start-up the candidates are
    [clear], [cd] and [cat]. *)
Lemma tab_completion_cycle_witness :
  let sh := set_inputString "c" freshShell in
  shellKeystroke listByTypes tabKey sh = (Normal tt, set_tabPressed true sh) ∧
  tabPressed (shellKeystroke listByTypes (mkKeyEvent 65 "a") (set_tabPressed true sh)).2
    = false.
Proof.
  intros sh.
  destruct (tab_completion_cycle listByTypes sh "c" ["clear"; "cd"; "cat"] eq_refl)
    as (Hmany & _ & _).
  destruct (tab_completion_cycle listByTypes (set_tabPressed true sh) "c"
              ["clear"; "cd"; "cat"] eq_refl) as (_ & _ & Hclear).
  split.
  - apply Hmany; [simpl; lia | reflexivity].
  - apply Hclear. simpl. lia.
Defined.

(** C9, counterexample: with [c] typed at start-up, the flag is still
    set after the second tab press, and the third tab press prints the
    candidates a second time. *)
Lemma tab_flag_not_reset_counterexample :
  let sh := set_inputString "c" freshShell in
  tabPressed (afterKeys listByTypes [tabKey; tabKey] sh) ≠ false ∧
  length (outputElement (afterKeys listByTypes [tabKey; tabKey] sh)) = 2 ∧
  length (outputElement (afterKeys listByTypes [tabKey; tabKey; tabKey] sh)) = 4.
Proof. repeat split; [discriminate | reflexivity..]. Qed.

(** ** What the second half of a redirect keeps *)

Lemma set_store_id (sh : Shell) : set_store (store sh) sh = sh.
Proof. by destruct sh. Qed.

Lemma persists_refl (target : ref) (st : list FileObject) : persists target st st.
Proof.
  intros r f Hr. exists f. split; [done|]. split; [apply sameNode_refl | done].
Qed.

Lemma persists_trans (target : ref) (st1 st2 st3 : list FileObject) :
  persists target st1 st2 → persists target st2 st3 → persists target st1 st3.
Proof.
  intros H12 H23 r f Hr. destruct (H12 r f Hr) as (g & Hg & Hfg & Hlm & Hc).
  destruct (H23 r g Hg) as (h & Hh & Hgh & Hlm' & Hc'). exists h.
  split; [done|]. split; [by eapply sameNode_trans|].
  split; [by rewrite Hlm', Hlm|].
  intros Hne. by rewrite Hc', Hc.
Qed.

Lemma persists_setContents (c : list string) (target : ref) (st : list FileObject) :
  persists target st (alter (setContents c) target st).
Proof.
  intros r f Hr.
  destruct (extends_alter (setContents c) target st (keepsShape_setContents c) r f Hr)
    as (f' & Hf' & Hsame).
  exists f'. split; [done|]. split; [done|].
  destruct (decide (r = target)) as [->|Hne].
  - rewrite list_lookup_alter_eq, Hr in Hf'. injection Hf' as <-.
    split; [by destruct f | done].
  - rewrite list_lookup_alter_ne in Hf' by done.
    assert (f' = f) as -> by congruence. done.
Qed.

Lemma persists_push (target : ref) (st : list FileObject) (d : ref)
    (dobj dobj' file : FileObject) :
  st !! d = Some dobj → pushChild (length st) dobj = Some dobj' →
  persists target st (<[d := dobj']> (st ++ [file])).
Proof.
  intros Hd Hpush r f Hr.
  destruct (extends_push st d dobj dobj' file Hd Hpush r f Hr) as (f' & Hf' & Hsame).
  exists f'. split; [done|]. split; [done|].
  destruct (decide (r = d)) as [->|Hne].
  - rewrite list_lookup_insert_eq in Hf'
      by (rewrite length_app; apply lookup_lt_Some in Hd; lia).
    injection Hf' as <-. rewrite Hd in Hr. injection Hr as <-.
    destruct dobj; [by injection Hpush as <- | done].
  - rewrite list_lookup_insert_ne in Hf' by done.
    rewrite lookup_app_l in Hf' by (by eapply lookup_lt_Some).
    assert (f' = f) as -> by congruence. done.
Qed.

Lemma newFile_persists (filepath : list string) (filetype : string) (sh : Shell) :
  ∃ st', (newFile filepath filetype sh).2 = set_store st' sh ∧
         ∀ target, persists target (store sh) st'.
Proof.
  unfold newFile, findFromCurrent, get, lift, deref, modify, mbind, M_bind, mret, M_ret.
  assert (∃ st', sh = set_store st' sh ∧ ∀ target, persists target (store sh) st')
    as Hsame.
  { exists (store sh). split; [by rewrite set_store_id | intros; apply persists_refl]. }
  destruct (length filepath =? 1).
  - destruct (store sh !! currentDir sh) as [dobj|] eqn:Hd; simpl; [|done].
    destruct (pushChild _ dobj) as [dobj'|] eqn:Hpush; simpl; [|done].
    eexists. split; [reflexivity|]. intros target. by eapply persists_push.
  - destruct (findFile _ _ _ _ _) as [[d|]|e]; simpl; try done.
    destruct (store sh !! d) as [dobj|] eqn:Hd; simpl; [|done].
    destruct (pushChild _ dobj) as [dobj'|] eqn:Hpush; simpl; [|done].
    eexists. split; [reflexivity|]. intros target. by eapply persists_push.
Qed.

Lemma writeContents_persists (pattern : string) (file : ref) (out : list string)
    (sh : Shell) :
  ∃ st', (writeContents pattern file out sh).2 = set_store st' sh ∧
         persists file (store sh) st'.
Proof.
  unfold writeContents, get, lift, deref, modify, mbind, M_bind.
  destruct (String.eqb pattern ">"); simpl.
  { eexists. split; [reflexivity|]. apply persists_setContents. }
  destruct (store sh !! file) as [f|]; simpl.
  - destruct (contents f); simpl.
    + eexists. split; [reflexivity|]. apply persists_setContents.
    + exists (store sh). split; [by rewrite set_store_id | apply persists_refl].
  - exists (store sh). split; [by rewrite set_store_id | apply persists_refl].
Qed.

(** The file that [newFile] hands back is the one it has just added to
    the store. *)
Lemma newFile_data (filepath : list string) (filetype : string) (sh : Shell)
    (created : ShellCommandResult) (f : ref) :
  (newFile filepath filetype sh).1 = Normal created → data created = Some f →
  f = length (store sh).
Proof.
  unfold newFile, findFromCurrent, get, lift, deref, modify, mbind, M_bind, mret, M_ret.
  destruct (length filepath =? 1).
  - destruct (store sh !! currentDir sh) as [dobj|]; simpl; [|done].
    destruct (pushChild _ dobj); simpl; [|done].
    intros [= <-]. simpl. by intros [= <-].
  - destruct (findFile _ _ _ _ _) as [[d|]|e]; simpl; [| |done].
    + destruct (store sh !! d) as [dobj|]; simpl; [|done].
      destruct (pushChild _ dobj); simpl; [|done].
      intros [= <-]. simpl. by intros [= <-].
    + by intros [= <-].
Qed.

(** The second half of [redirect] assigns the store only: it keeps every
    object with its time stamp and changes the contents of no object but
    the target. *)
Lemma storeOutput_persists (pattern filepath : string) (res : ShellCommandResult)
    (sh : Shell) :
  ∃ st', (storeOutput pattern filepath res sh).2 = set_store st' sh ∧
         persists (redirectTarget sh filepath) (store sh) st'.
Proof.
  unfold storeOutput, findFromCurrent, redirectTarget.
  unfold mbind at 1 2 3, M_bind at 1 2 3.
  assert (∀ target, ∃ st', sh = set_store st' sh ∧ persists target (store sh) st')
    as Hsame.
  { intros target. exists (store sh).
    split; [by rewrite set_store_id | apply persists_refl]. }
  destruct (findFile _ _ _ _ _) as [[f|]|e]; simpl; [| |done].
  - destruct (writeContents_persists pattern f (stdOut res) sh) as (st' & Hst & Hp).
    exists st'. split; [|done].
    unfold mbind, M_bind. by destruct (writeContents _ _ _ sh) as [[[]|e] sh'].
  - destruct (newFile_persists [filepath] "txt" sh) as (st1 & Hst1 & Hp1).
    pose proof (λ created f, newFile_data [filepath] "txt" sh created f) as Hdata.
    unfold mbind at 1, M_bind at 1.
    destruct (newFile [filepath] "txt" sh) as [[created|e] sh1]; simpl in *; subst sh1.
    2: { exists st1. split; [done | apply Hp1]. }
    destruct (data created) as [f|] eqn:Hf; simpl.
    2: { exists st1. split; [done | apply Hp1]. }
    specialize (Hdata created f eq_refl Hf). subst f.
    destruct (writeContents_persists pattern (length (store sh)) (stdOut res)
                (set_store st1 sh)) as (st' & Hst & Hp).
    exists st'. split.
    + unfold mbind, M_bind.
      by destruct (writeContents _ _ _ (set_store st1 sh)) as [[[]|e] sh'].
    + eapply persists_trans; [apply Hp1 | apply Hp].
Qed.

(** * Further properties of the shell *)

(** ** The store only grows *)

Lemma grows_trans (st1 st2 st3 : list FileObject) :
  grows st1 st2 → grows st2 st3 → grows st1 st3.
Proof.
  intros H12 H23. induction H23; eauto using grows.
Qed.

(** Running [m] from [sh] changes the store by the shell's updates only. *)
Local Abbreviation growsOk m sh := (grows (store sh) (store (m sh).2)).

Lemma growsOk_ret {A} (a : A) (sh : Shell) : growsOk (mret a : M A) sh.
Proof. apply grows_refl. Qed.

Lemma growsOk_bind {A B} (m : M A) (k : A → M B) (sh : Shell) :
  growsOk m sh →
  (∀ a sh', growsOk (k a) sh') →
  growsOk (m ≫= k) sh.
Proof.
  intros Hm Hk. unfold mbind, M_bind.
  destruct (m sh) as [[a|e] sh'] eqn:Heq; simpl in *; [|done].
  eapply grows_trans; [exact Hm | apply Hk].
Qed.

Lemma growsOk_get_bind {A} (k : Shell → M A) (sh : Shell) :
  growsOk (k sh) sh → growsOk (get ≫= k) sh.
Proof. done. Qed.

Lemma growsOk_same {A} (m : M A) (sh : Shell) :
  store (m sh).2 = store sh → growsOk m sh.
Proof. intros ->. apply grows_refl. Qed.

Lemma growsOk_forEachArg (body : string → ShellCommandResult → M ShellCommandResult)
    (arguments : list string) :
  (∀ arg res sh, growsOk (body arg res) sh) →
  ∀ res sh, growsOk (forEachArg body arguments res) sh.
Proof.
  intros Hbody. induction arguments as [|arg rest IH]; intros res sh; simpl.
  - apply grows_refl.
  - apply growsOk_bind; [apply Hbody | intros; apply IH].
Qed.

Lemma growsOk_newFile (filepath : list string) (filetype : string) (sh : Shell) :
  growsOk (newFile filepath filetype) sh.
Proof.
  unfold newFile, findFromCurrent, get, lift, deref, modify, mbind, M_bind, mret, M_ret.
  destruct (length filepath =? 1).
  - destruct (store sh !! currentDir sh) as [dobj|] eqn:Hd; simpl; [|apply grows_refl].
    destruct (pushChild _ dobj) as [dobj'|] eqn:Hpush; simpl; [|apply grows_refl].
    by eapply grows_push; [apply grows_refl | |].
  - destruct (findFile _ _ _ _ _) as [[d|]|e]; simpl; try apply grows_refl.
    destruct (store sh !! d) as [dobj|] eqn:Hd; simpl; [|apply grows_refl].
    destruct (pushChild _ dobj) as [dobj'|] eqn:Hpush; simpl; [|apply grows_refl].
    by eapply grows_push; [apply grows_refl | |].
Qed.

Lemma growsOk_writeContents (pattern : string) (file : ref) (out : list string)
    (sh : Shell) :
  growsOk (writeContents pattern file out) sh.
Proof.
  unfold writeContents, get, lift, deref, modify, mbind, M_bind.
  destruct (String.eqb pattern ">"); simpl.
  { apply grows_setContents, grows_refl. }
  destruct (store sh !! file) as [f|]; simpl; [|apply grows_refl].
  destruct (contents f); simpl; [|apply grows_refl].
  apply grows_setContents, grows_refl.
Qed.

Ltac grows_step :=
  lazymatch goal with
  | |- grows _ (store ((mret _) _).2) => apply grows_refl
  | |- grows _ (store ((get ≫= _) _).2) => apply growsOk_get_bind
  | |- grows _ (store ((findFromCurrent _ _) _).2) => apply grows_refl
  | |- grows _ (store ((newFile _ _) _).2) => apply growsOk_newFile
  | |- grows _ (store ((writeContents _ _ _) _).2) => apply growsOk_writeContents
  | |- grows _ (store (getPS1String _).2) =>
      apply growsOk_same; unfold getPS1String, get, lift, deref, mbind, M_bind;
      simpl; by destruct (_ !! _)
  | |- grows _ (store ((lift _) _).2) => apply grows_refl
  | |- grows _ (store ((modify (λ s, set_store (alter (setLastModified _) _ _) _)) _).2) =>
      apply grows_setLastModified, grows_refl
  | |- grows _ (store ((modify _) _).2) => apply grows_refl
  | |- grows _ (store ((forEachArg _ _ _) _).2) =>
      apply growsOk_forEachArg; intros ? ? ?
  | |- grows _ (store ((_ ≫= _) _).2) => apply growsOk_bind; [| intros ? ?]
  | |- grows _ (store ((match ?x with _ => _ end) _).2) => destruct x
  | |- grows _ (store ((if ?b then _ else _) _).2) => destruct b
  end.

Lemma growsOk_dispatch (c : ShellCommand) (sh : Shell) : growsOk (dispatch c) sh.
Proof.
  unfold dispatch.
  repeat (match goal with
          | |- grows _ (store ((if ?b then _ else _) _).2) => destruct b
          end);
    [unfold clear | unfold pwd | unfold whoami | unfold cd | unfold ls | unfold cat
     | unfold touch | unfold mkdir | unfold echo | unfold vi | ];
    repeat grows_step.
Qed.

Lemma growsOk_storeOutput (pattern filepath : string) (res : ShellCommandResult)
    (sh : Shell) :
  growsOk (storeOutput pattern filepath res) sh.
Proof. unfold storeOutput. repeat grows_step. Qed.

Lemma growsOk_redirect (exec : string → M ShellCommandResult)
    (inputString pattern : string) (sh : Shell) :
  (∀ s, growsOk (exec (newInputOf inputString pattern)) s) →
  growsOk (redirect exec inputString pattern) sh.
Proof.
  intros Hexec. unfold redirect.
  destruct (afterSymbolOf inputString pattern); [apply grows_refl|].
  apply growsOk_bind; [apply Hexec | intros; apply growsOk_storeOutput].
Qed.

(** Whatever line is interpreted and however it ends, the store
    afterwards is the store before, changed only by assignments to
    [contents] and [lastModified] of objects and by pushing newly
    constructed file objects onto the children of directory objects:
    nothing is removed, renamed, moved or replaced. *)
Lemma executeCommand_grows_store (inputString : string) (sh : Shell) :
  grows (store sh) (store (after inputString sh)).
Proof.
  unfold after. remember (String.length inputString) as n eqn:Hn.
  revert inputString Hn sh.
  induction (lt_wf n) as [n _ IH]. intros input -> sh.
  rewrite executeCommand_eq.
  destruct (Js.includes input ">>") eqn:Hpp.
  { apply (growsOk_redirect executeCommand). intros s.
    eapply IH; [|done]. by apply newInputOf_shorter. }
  destruct (Js.includes input ">") eqn:Hp.
  { apply (growsOk_redirect executeCommand). intros s.
    eapply IH; [|done]. by apply newInputOf_shorter. }
  simpl. destruct (negb _); [apply grows_refl | apply growsOk_dispatch].
Qed.

(** X1.  Whatever line is interpreted and however it ends, the store
    afterwards is the store before, changed only by assignments to
    [contents] and [lastModified] of objects and by pushing newly
    constructed file objects onto the children of directory objects:
    nothing is removed, renamed, moved or replaced. *)
Theorem executeCommand_grows (inputString : string) (sh : Shell) :
  grows (store sh) (store (after inputString sh)).
Proof. apply executeCommand_grows_store. Qed.

(** ** Full paths *)

Lemma pathsOk_lookup (st : list FileObject) :
  pathsOk st = true ↔ ∀ r f, st !! r = Some f → pathOk st f = true.
Proof.
  unfold pathsOk. rewrite forallb_forall. split.
  - intros Hall r f Hr. apply Hall. apply list_elem_of_In. by eapply list_elem_of_lookup_2.
  - intros Hall f [r Hr]%list_elem_of_In%list_elem_of_lookup. by eapply Hall.
Qed.

Lemma pathOk_extends (st st' : list FileObject) (f f' : FileObject) :
  extends st st' →
  name f' = name f → fullPath f' = fullPath f → parentRef f' = parentRef f →
  pathOk st f = true → pathOk st' f' = true.
Proof.
  intros Hext Hn Hp Hpar. unfold pathOk. rewrite Hn, Hp, Hpar.
  destruct (parentRef f) as [p|]; [|done].
  destruct (st !! p) as [g|] eqn:Hg; [|done].
  destruct (Hext p g Hg) as (g' & -> & _ & -> & _). done.
Qed.

Lemma pathsOk_alter (g : FileObject → FileObject) (r : ref) (st : list FileObject) :
  keepsShape g → pathsOk st = true → pathsOk (alter g r st) = true.
Proof.
  intros Hg Hok. rewrite pathsOk_lookup in *. intros i f' Hi.
  pose proof (extends_alter g r st Hg) as Hext.
  destruct (decide (i = r)) as [->|Hne].
  - rewrite list_lookup_alter_eq in Hi.
    destruct (st !! r) as [f|] eqn:Hr; [|done]. injection Hi as <-.
    destruct (Hg f) as (? & ? & ? & _).
    eapply pathOk_extends; eauto.
  - rewrite list_lookup_alter_ne in Hi by done.
    eapply pathOk_extends; eauto.
Qed.

Lemma pathsOk_push (st : list FileObject) (d : ref) (dobj dobj' : FileObject)
    (filename filetype : string) (time : nat) :
  st !! d = Some dobj → pushChild (length st) dobj = Some dobj' →
  pathsOk st = true →
  pathsOk (<[d := dobj']> (st ++ [newFileObject d dobj filename filetype time])) = true.
Proof.
  intros Hd Hpush Hok. rewrite pathsOk_lookup in *.
  set (file := newFileObject d dobj filename filetype time).
  pose proof (extends_push st d dobj dobj' file Hd Hpush) as Hext.
  pose proof (lookup_lt_Some _ _ _ Hd) as Hlt.
  assert ((<[d := dobj']> (st ++ [file])) !! d = Some dobj') as Hd'.
  { apply list_lookup_insert_eq. rewrite length_app. lia. }
  assert (fullPath dobj' = fullPath dobj ∧ name dobj' = name dobj ∧
          parentRef dobj' = parentRef dobj) as (Hp & Hn & Hpar).
  { destruct dobj; [by injection Hpush as <- | done]. }
  intros i f' Hi. destruct (decide (i = d)) as [->|Hne].
  - rewrite Hd' in Hi. injection Hi as <-. eapply pathOk_extends; eauto.
  - rewrite list_lookup_insert_ne in Hi by done.
    destruct (decide (i = length st)) as [->|Hne'].
    + rewrite lookup_app_r, Nat.sub_diag in Hi by lia. injection Hi as <-.
      unfold pathOk.
      assert (parentRef file = Some d ∧ name file = filename ∧
              fullPath file = fullPath dobj +:+ "/" +:+ filename) as (-> & -> & ->).
      { unfold file, newFileObject. by destruct (String.eqb filetype "dir"). }
      rewrite Hd', Hp. apply String.eqb_refl.
    + assert (i < length st) as Hi'.
      { apply lookup_lt_Some in Hi. rewrite length_app in Hi. simpl in Hi. lia. }
      rewrite lookup_app_l in Hi by done.
      eapply pathOk_extends; eauto.
Qed.

Lemma grows_pathsOk (st st' : list FileObject) :
  grows st st' → pathsOk st = true → pathsOk st' = true.
Proof.
  intros Hgrows Hok. induction Hgrows.
  - done.
  - apply pathsOk_alter; [apply keepsShape_setContents | auto].
  - apply pathsOk_alter; [apply keepsShape_setLastModified | auto].
  - apply pathsOk_push; auto.
Qed.

(** X2.  If the full path of every object with a parent is the full path
    of the parent, a slash and the object's name, then this is still so
    after any line was interpreted, however it ended. *)
Theorem executeCommand_keeps_paths (inputString : string) (sh : Shell) :
  pathsOk (store sh) = true → pathsOk (store (after inputString sh)) = true.
Proof. apply grows_pathsOk, executeCommand_grows_store. Qed.

(** Witness for X2: a directory and a file inside it, made at start-up. *)
Lemma executeCommand_keeps_paths_witness :
  pathsOk (store (after "touch a/b" (after "mkdir a" freshShell))) = true.
Proof.
  exact (executeCommand_keeps_paths "touch a/b" (after "mkdir a" freshShell) eq_refl).
Defined.

(** X3.  Interpreting a line keeps a well-formed session well-formed: the
    root and the current directory are directories of the store, every
    parent reference leads to a directory, and every child points back at
    the directory that lists it. *)
Theorem executeCommand_keeps_wf (inputString : string) (sh : Shell) :
  wf sh = true → wf (after inputString sh) = true.
Proof. apply after_wf. Qed.

(** Witness for X3: a failing [cd] after a [mkdir] at start-up. *)
Lemma executeCommand_keeps_wf_witness :
  wf (after "cd nowhere" (after "mkdir a" freshShell)) = true.
Proof.
  exact (executeCommand_keeps_wf "cd nowhere" (after "mkdir a" freshShell) eq_refl).
Defined.

(** X4.  No line, however it is interpreted and however that ends,
    assigns the root reference, the user, the line buffer, the history,
    the history cursor, the pending-tab flag or the prompt element, and
    every object of the store is still there afterwards with its name,
    path, parent and kind, its children at most extended. *)
Theorem executeCommand_frame (inputString : string) (sh : Shell) :
  sameSession sh (after inputString sh) ∧
  extends (store sh) (store (after inputString sh)).
Proof.
  by destruct (executeCommand_runsOk inputString sh) as [(? & ? & _) _].
Qed.

(** ** Commands that only read *)

Lemma bind_state {A B} (m : M A) (k : A → M B) (sh : Shell) :
  (m sh).2 = sh → (∀ a, (k a sh).2 = sh) → ((m ≫= k) sh).2 = sh.
Proof.
  intros Hm Hk. unfold mbind, M_bind.
  destruct (m sh) as [[a|e] sh']; simpl in *; subst; [apply Hk | done].
Qed.

Lemma forEachArg_state (body : string → ShellCommandResult → M ShellCommandResult)
    (arguments : list string) :
  (∀ arg res sh, (body arg res sh).2 = sh) →
  ∀ res sh, (forEachArg body arguments res sh).2 = sh.
Proof.
  intros Hbody. induction arguments as [|arg rest IH]; intros res sh; simpl; [done|].
  apply bind_state; [apply Hbody | intros; apply IH].
Qed.

Lemma lift_state {A} (c : Completion A) (sh : Shell) : (lift c sh).2 = sh.
Proof. done. Qed.

Lemma pwd_state (sh : Shell) : (pwd sh).2 = sh.
Proof. unfold pwd. apply bind_state; [done|]. intros s. by apply bind_state. Qed.

Lemma ls_state (c : ShellCommand) (sh : Shell) : (ls c sh).2 = sh.
Proof.
  unfold ls. destruct (args c) as [|a rest].
  - apply bind_state; [done|]. intros s. by apply bind_state.
  - apply forEachArg_state. intros arg res s.
    apply bind_state; [done|]. intros [d|]; [|done].
    apply bind_state; [done|]. intros s'. by apply bind_state.
Qed.

Lemma cat_state (c : ShellCommand) (sh : Shell) : (cat c sh).2 = sh.
Proof.
  unfold cat. apply forEachArg_state. intros arg res s.
  apply bind_state; [done|]. intros [r|]; [|done].
  apply bind_state; [done|]. intros s'.
  apply bind_state; [done|]. by intros [].
Qed.

Lemma prefix_empty (s : string) : String.prefix "" s = true.
Proof. by destruct s. Qed.

Lemma includes_double (s : string) :
  Js.includes s ">" = false → Js.includes s ">>" = false.
Proof.
  unfold Js.includes. induction s as [|c s IH]; [done|].
  rewrite !(JsFacts.search_eq _ (String c s)).
  change (String.prefix ">" (String c s))
    with (if ascii_dec ">" c then String.prefix "" s else false).
  change (String.prefix ">>" (String c s))
    with (if ascii_dec ">" c then String.prefix ">" s else false).
  destruct (ascii_dec ">" c) as [|Hne]; [by rewrite prefix_empty|].
  destruct (Js.search ">" s); [done|]. intros _.
  specialize (IH eq_refl). by destruct (Js.search ">>" s).
Qed.

(** X5.  Only a redirect and the commands [clear], [cd], [touch],
    [mkdir] and [vi] can change anything: a line without [>] whose
    command is another one, known or unknown, leaves the session, its page
    elements and the store exactly as they were, whatever its arguments
    and however it ends. *)
Theorem executeCommand_reads_only (inputString : string) (sh : Shell) :
  Js.includes inputString ">" = false →
  Js.arrIncludes ["clear"; "cd"; "touch"; "mkdir"; "vi"]
    (command (newShellCommand inputString)) = false →
  after inputString sh = sh.
Proof.
  intros Hno Hcmd. unfold after. rewrite executeCommand_eq.
  rewrite (includes_double _ Hno), Hno. cbv zeta.
  destruct (negb _); [done|].
  unfold Js.arrIncludes in Hcmd. cbn [existsb] in Hcmd.
  repeat (apply orb_false_elim in Hcmd as [? Hcmd]).
  unfold dispatch. cbv zeta.
  repeat (match goal with
          | H : String.eqb ?c ?n = false |- context [String.eqb ?c ?n] => rewrite H
          end).
  repeat (match goal with
          | |- ((if ?b then _ else _) _).2 = _ => destruct b
          end);
    auto using pwd_state, ls_state, cat_state.
Qed.

(** Witness for X5: [ls] of two arguments, one of which is missing. *)
Lemma executeCommand_reads_only_witness :
  after "ls a nowhere" (after "mkdir a" freshShell) = after "mkdir a" freshShell.
Proof.
  exact (executeCommand_reads_only "ls a nowhere" (after "mkdir a" freshShell)
           eq_refl eq_refl).
Defined.

(** ** Paths in pieces *)

Lemma findFile_app_aux (st : list FileObject) (root : ref)
    (q : list string) (filetype : option string) (p : list string) :
  q ≠ [] →
  ∀ dir, String.eqb (List.last p "") "" = false →
    findFile st root dir (p ++ q) filetype =
    found ← findFile st root dir p (Some "dir");
    match found with
    | None => Normal None
    | Some d => findFile st root d q filetype
    end.
Proof.
  intros Hq. destruct q as [|q1 q]; [done|].
  induction p as [|s p IH]; intros dir Hlast; [done|].
  destruct p as [|s2 p].
  - simpl in Hlast. rewrite findFile_single, Hlast. simpl app.
    by rewrite findFile_longer.
  - change ((s :: s2 :: p) ++ q1 :: q) with (s :: s2 :: (p ++ q1 :: q)).
    rewrite !findFile_longer.
    destruct (switchPathArg st root dir s (Some "dir")) as [[d|]|e]; simpl; try done.
    apply (IH d). exact Hlast.
Qed.

(** X6.  Resolution composes: resolving [p ++ q] is resolving [p] as a
    directory and then [q] from there, for [q] not empty and [p] not
    ending in the empty segment (and so not empty); a throw or a null on
    the way is the outcome of the whole. *)
Theorem findFile_app (st : list FileObject) (root dir : ref)
    (p q : list string) (filetype : option string) :
  q ≠ [] →
  String.eqb (List.last p "") "" = false →
  findFile st root dir (p ++ q) filetype =
  found ← findFile st root dir p (Some "dir");
  match found with
  | None => Normal None
  | Some d => findFile st root d q filetype
  end.
Proof. intros Hq Hp. by apply findFile_app_aux. Qed.

(** Witness for X6: [a/b] and then [../c.txt], in a tree where [a] holds
    the directory [b] and the text file [c.txt]. *)
Lemma findFile_app_witness :
  let st := [DirFile "" "~" None [1] None None;
             DirFile "a" "~/a" (Some 0) [2; 3] None None;
             DirFile "b" "~/a/b" (Some 1) [] None None;
             TxtFile "c.txt" "~/a/c.txt" (Some 1) [] 0] in
  findFile st 0 0 (["a"; "b"] ++ [".."; "c.txt"]) (Some "txt") =
  (found ← findFile st 0 0 ["a"; "b"] (Some "dir");
   match found with
   | None => Normal None
   | Some d => findFile st 0 d [".."; "c.txt"] (Some "txt")
   end) ∧
  findFile st 0 0 ["a"; "b"; ".."; "c.txt"] (Some "txt") = Normal (Some 3).
Proof.
  intros st. split; [|reflexivity].
  apply (findFile_app st 0 0 ["a"; "b"] [".."; "c.txt"] (Some "txt"));
    [discriminate | reflexivity].
Defined.

(** X7.  A trailing slash does not matter where a directory is asked
    for: a path that does not end in the empty segment resolves, as a
    directory, to the same outcome with and without a final empty
    segment. *)
Theorem findFile_trailing_slash (st : list FileObject) (root dir : ref)
    (p : list string) :
  String.eqb (List.last p "") "" = false →
  findFile st root dir (p ++ [""]) (Some "dir") = findFile st root dir p (Some "dir").
Proof.
  intros Hp. rewrite findFile_app_aux by done.
  by destruct (findFile st root dir p (Some "dir")) as [[d|]|e].
Qed.

(** Witness for X7: [a/b/] and [a/b]. *)
Lemma findFile_trailing_slash_witness :
  let st := [DirFile "" "~" None [1] None None;
             DirFile "a" "~/a" (Some 0) [2] None None;
             DirFile "b" "~/a/b" (Some 1) [] None None] in
  findFile st 0 0 (Js.split "/" "a/b/") (Some "dir") =
  findFile st 0 0 (Js.split "/" "a/b") (Some "dir").
Proof.
  intros st. exact (findFile_trailing_slash st 0 0 ["a"; "b"] eq_refl).
Defined.

(** X8.  On a well-formed tree [findFile] returns from every directory,
    on every path and for every required type; what it returns is an
    object of the store, and a directory where ['dir'] was required. *)
Theorem findFile_returns (st : list FileObject) (root dir : ref)
    (filepath : list string) (filetype : option string) :
  wfStore st = true → isDirAt st root = true → isDirAt st dir = true →
  ∃ found, findFile st root dir filepath filetype = Normal found ∧
    ∀ d, found = Some d →
      is_Some (st !! d) ∧ (isDirType filetype = true → isDirAt st d = true).
Proof. apply findFile_result. Qed.

(** Witness for X8: the path [a/b] from the root, asked for as a
    directory, after [mkdir a] and [mkdir a/b]: the directory [b], the
    third object of the store, is returned. *)
Lemma findFile_returns_witness :
  let st := store (afterAll ["mkdir a"; "mkdir a/b"] freshShell) in
  findFile st 0 0 ["a"; "b"] (Some "dir") = Normal (Some 2) ∧
  is_Some (st !! 2) ∧ isDirAt st 2 = true.
Proof.
  intros st.
  destruct (findFile_returns st 0 0 ["a"; "b"] (Some "dir") eq_refl eq_refl eq_refl)
    as (found & Hfind & Hfound).
  assert (found = Some 2) as Hd by (by injection Hfind as <-).
  destruct (Hfound 2 Hd) as [Hsome Hdir].
  split; [by rewrite Hfind, Hd|]. split; [exact Hsome | exact (Hdir eq_refl)].
Defined.

(** ** Creating below the current directory *)

Lemma noneOf_weaken2 (bad bad' : list ascii) (s : string) :
  (∀ c, c ∈ bad' → c ∈ bad) → noneOf bad s = true → noneOf bad' s = true.
Proof.
  intros Hsub. induction s as [|a s IH]; simpl; [done|].
  intros [Ha Hs]%andb_prop. rewrite IH by done. rewrite andb_true_r.
  apply negb_true_iff. apply negb_true_iff in Ha.
  apply not_true_iff_false. intros (c & Hin & Hc)%existsb_exists.
  apply not_true_iff_false in Ha. apply Ha, existsb_exists.
  exists c. split; [|done]. apply list_elem_of_In, Hsub. by apply list_elem_of_In.
Qed.

(** A line made of a plain command name, a space and one argument
    without space or [>] is dispatched with that one argument. *)
Lemma executeCommand_one_arg (cmd a : string) (sh : Shell) :
  plainName cmd = true → a ≠ "" → noneOf [" "; ">"]%char a = true →
  Js.arrIncludes validCommands cmd = true →
  executeCommand (cmd +:+ " " +:+ a) sh =
  dispatch (mkShellCommand (cmd +:+ " " +:+ a) cmd [a]) sh.
Proof.
  intros Hcmd Ha Hnone Hvalid. rewrite executeCommand_eq.
  pose proof (plainName_parts _ Hcmd) as (_ & Hc0 & Hcs & _ & Hc).
  assert (noneOf [" "%char] a = true ∧ noneOf [">"%char] a = true) as [Has Hag].
  { split; apply (noneOf_weaken2 [" "; ">"]%char); try done;
      intros c ->%list_elem_of_singleton; apply list_elem_of_In; simpl; tauto. }
  assert (noneOf [">"%char] (cmd +:+ " " +:+ a) = true) as Hnone'.
  { by rewrite !PlainFacts.noneOf_app, Hc, Hag. }
  rewrite !PlainFacts.includes_noneOf by done.
  assert (newShellCommand (cmd +:+ " " +:+ a) = mkShellCommand (cmd +:+ " " +:+ a) cmd [a])
    as ->.
  { unfold newShellCommand, tokens.
    change (cmd +:+ " " +:+ a) with (cmd +:+ String " " a).
    rewrite PlainFacts.split_app, PlainFacts.split_noneOf by done.
    rewrite !filter_cons, filter_nil. by rewrite !decide_True by done. }
  cbv zeta. cbn [command]. by rewrite Hvalid.
Qed.

Lemma plain_path_token (x y : string) :
  plainName x = true → plainName y = true →
  x +:+ "/" +:+ y ≠ "" ∧ noneOf [" "; ">"]%char (x +:+ "/" +:+ y) = true ∧
  Js.split "/" (x +:+ "/" +:+ y) = [x; y].
Proof.
  intros Hx Hy.
  pose proof (plainName_parts _ Hx) as (_ & Hx0 & _ & Hxs & _).
  pose proof (plainName_parts _ Hy) as (_ & _ & _ & Hys & _).
  unfold plainName in Hx, Hy.
  apply andb_prop in Hx as [_ Hx]. apply andb_prop in Hy as [_ Hy].
  split; [by destruct x|]. split.
  - rewrite !PlainFacts.noneOf_app.
    rewrite (noneOf_weaken2 [" "; "/"; ">"]%char _ x), (noneOf_weaken2 [" "; "/"; ">"]%char _ y);
      try done; intros c Hc; apply list_elem_of_In; apply list_elem_of_In in Hc;
      simpl in *; tauto.
  - change (x +:+ "/" +:+ y) with (x +:+ String "/" y).
    by rewrite PlainFacts.split_app, PlainFacts.split_noneOf.
Qed.

Lemma findFile_missing_dir (st : list FileObject) (root dir : ref) (x y : string)
    (filetype : option string) :
  wfStore st = true → isDirAt st dir = true → specialSegment x = false →
  childNamed st dir x (Some "dir") = None →
  findFile st root dir [x; y] filetype = Normal None.
Proof.
  intros Hwf Hdir Hx Hnone. rewrite findFile_longer.
  unfold specialSegment in Hx.
  apply orb_false_elim in Hx as [[[H0 H1]%orb_false_elim H2]%orb_false_elim H3].
  unfold switchPathArg. rewrite H1, H2, H3.
  rewrite findChild_childNamed by done. simpl. by rewrite Hnone.
Qed.

(** X9.  Creating inside a directory that is not there reports it and
    changes nothing: in a well-formed session whose current directory
    has no directory named [x], both [mkdir x/y] and [touch x/y] return
    the one error line ["x: Directory not found"] and leave the session
    and the store as they were. *)
Theorem create_in_missing_directory (sh : Shell) (x y : string) :
  wf sh = true → plainName x = true → plainName y = true →
  childNamed (store sh) (currentDir sh) x (Some "dir") = None →
  executeCommand ("mkdir " +:+ x +:+ "/" +:+ y) sh =
    (Normal (mkResult [] [x +:+ ": Directory not found"] None), sh) ∧
  executeCommand ("touch " +:+ x +:+ "/" +:+ y) sh =
    (Normal (mkResult [] [x +:+ ": Directory not found"] None), sh).
Proof.
  intros Hwf Hx Hy Hnone.
  destruct (plain_path_token x y Hx Hy) as (Hne & Htok & Hsplit).
  pose proof (plainName_parts _ Hx) as (Hsp & _).
  assert (∀ ty, findFile (store sh) (fileStructure sh) (currentDir sh) [x; y] ty
                = Normal None) as Hfind.
  { intros ty. apply findFile_missing_dir; auto using wf_wfStore, wf_currentDir. }
  assert (newFile [x; y] "dir" sh =
          (Normal (mkResult [] [x +:+ ": Directory not found"] None), sh)
          ∧ newFile [x; y] "txt" sh =
          (Normal (mkResult [] [x +:+ ": Directory not found"] None), sh)) as [Hd Ht].
  { unfold newFile, get. unfold mbind at 1 3, M_bind at 1 3.
    change (length [x; y] =? 1) with false. change (Js.dropLast [x; y]) with [x].
    cbv iota. unfold mbind, M_bind.
    rewrite findFromCurrent_plain by done. simpl. by rewrite Hnone. }
  split.
  - rewrite (executeCommand_one_arg "mkdir" (x +:+ "/" +:+ y)) by done.
    change (dispatch ?c) with (mkdir c). unfold mkdir. cbn [args forEachArg].
    rewrite Hsplit. unfold findFromCurrent, mbind at 1 2, M_bind at 1 2.
    rewrite Hfind. simpl. unfold mbind, M_bind. by rewrite Hd.
  - rewrite (executeCommand_one_arg "touch" (x +:+ "/" +:+ y)) by done.
    change (dispatch ?c) with (touch c). unfold touch. cbn [args forEachArg].
    rewrite Hsplit. unfold findFromCurrent, mbind at 1 2, M_bind at 1 2.
    rewrite Hfind. simpl. unfold mbind, M_bind. by rewrite Ht.
Qed.

(** Witness for X9: [nodir/f] at start-up. *)
Lemma create_in_missing_directory_witness :
  executeCommand "mkdir nodir/f" freshShell =
    (Normal (mkResult [] ["nodir: Directory not found"] None), freshShell) ∧
  executeCommand "touch nodir/f" freshShell =
    (Normal (mkResult [] ["nodir: Directory not found"] None), freshShell).
Proof.
  exact (create_in_missing_directory freshShell "nodir" "f"
           eq_refl eq_refl eq_refl eq_refl).
Defined.

(** ** Commands in sequence *)

Lemma namedChild_lookup (st : list FileObject) (n : string)
    (typeFilter : option string) (c : ref) :
  namedChild st n typeFilter c = true →
  ∃ f, st !! c = Some f ∧ name f = n ∧
       (∀ t, typeFilter = Some t → filetype f = t).
Proof.
  unfold namedChild. destruct (st !! c) as [f|]; [|done].
  intros [Hn Ht]%andb_prop. exists f. split; [done|].
  apply String.eqb_eq in Hn. split; [done|].
  intros t ->. by apply String.eqb_eq in Ht.
Qed.

(** [cd n] for a plain name that names a child directory. *)
Lemma cd_plain (sh : Shell) (n : string) (d : ref) :
  wf sh = true → plainName n = true →
  childNamed (store sh) (currentDir sh) n (Some "dir") = Some d →
  resultOf ("cd " +:+ n) sh = Normal emptyResult ∧
  currentDir (after ("cd " +:+ n) sh) = d ∧
  store (after ("cd " +:+ n) sh) = store sh.
Proof.
  intros Hwf Hn Hchild. pose proof (plainName_parts n Hn) as (Hsp & _).
  destruct (childNamed_elem _ _ _ _ _ Hchild) as (_ & _ & _ & _ & _ & Hm).
  destruct (namedChild_lookup _ _ _ _ Hm) as (g & Hg & _).
  assert (findFile (store sh) (fileStructure sh) (currentDir sh)
            (Js.split "/" n) (Some "dir") = Normal (Some d)) as Hfind.
  { rewrite split_slash_plain by done.
    rewrite findFile_plain by auto using wf_wfStore, wf_currentDir.
    by rewrite <- Hchild. }
  unfold resultOf, after.
  assert (executeCommand ("cd " +:+ n) sh =
          cd (mkShellCommand ("cd " +:+ n) "cd" [n]) sh) as ->.
  { by rewrite (executeCommand_plain "cd" n). }
  exact (cd_found sh (mkShellCommand ("cd " +:+ n) "cd" [n]) n [] d
           eq_refl Hfind (ex_intro _ g Hg)).
Qed.

(** X10.  After [mkdir n], for a plain name [n] in a well-formed session,
    [cd n] succeeds: it returns the empty result, and the current
    directory is then a directory named [n] whose parent is the directory
    the commands were given in. *)
Theorem mkdir_then_cd (sh : Shell) (n : string) :
  wf sh = true → plainName n = true →
  let sh1 := after ("mkdir " +:+ n) sh in
  let sh2 := after ("cd " +:+ n) sh1 in
  resultOf ("cd " +:+ n) sh1 = Normal emptyResult ∧
  ∃ f, store sh2 !! currentDir sh2 = Some f ∧ name f = n ∧ isDir f = true ∧
       parentRef f = Some (currentDir sh).
Proof.
  intros Hwf Hn sh1 sh2.
  assert (wf sh1 = true) as Hwf1 by (by apply after_wf).
  assert (currentDir sh1 = currentDir sh ∧
          ∃ d, childNamed (store sh1) (currentDir sh1) n (Some "dir") = Some d)
    as [Hcur [d Hd]].
  { unfold sh1. rewrite after_mkdir by done. unfold childNamed.
    destruct (childrenNamed (store sh) _ n (Some "dir")) as [|c0 cs] eqn:Hcs.
    - split; [done|]. simpl store. simpl currentDir.
      rewrite childrenNamed_storeWithNew, Hcs, String.eqb_refl by done.
      simpl. eauto.
    - split; [done|]. rewrite Hcs. by apply last_is_Some. }
  destruct (cd_plain sh1 n d Hwf1 Hn Hd) as (Hres & Hcd & Hst).
  split; [done|]. fold sh2 in Hcd, Hst. rewrite Hcd, Hst.
  destruct (childNamed_elem _ _ _ _ _ Hd) as (dobj & cs & Hdobj & Hcs & Hin & Hm).
  destruct (namedChild_lookup _ _ _ _ Hm) as (g & Hg & Hname & Htype).
  exists g. split; [done|]. split; [done|]. split.
  - specialize (Htype "dir" eq_refl). by destruct g.
  - pose proof (wf_children _ _ _ _ (wf_wfStore _ Hwf1) Hdobj Hcs) as Hall.
    rewrite Forall_forall in Hall. apply Hall, childOk_lookup in Hin as (g' & Hg' & Hp).
    rewrite Hg in Hg'. injection Hg' as <-. by rewrite <- Hcur.
Qed.

(** Witness for X10: [mkdir a] and [cd a] at start-up. *)
Lemma mkdir_then_cd_witness :
  let sh2 := after "cd a" (after "mkdir a" freshShell) in
  resultOf "cd a" (after "mkdir a" freshShell) = Normal emptyResult ∧
  ∃ f, store sh2 !! currentDir sh2 = Some f ∧ name f = "a" ∧ isDir f = true ∧
       parentRef f = Some 0.
Proof. exact (mkdir_then_cd freshShell "a" eq_refl eq_refl). Defined.

Lemma executeCommand_pwd (sh : Shell) : executeCommand "pwd" sh = pwd sh.
Proof. by rewrite executeCommand_eq. Qed.

Lemma pwd_at (sh : Shell) (f : FileObject) :
  store sh !! currentDir sh = Some f →
  resultOf "pwd" sh = Normal (mkResult [fullPath f] [] None).
Proof.
  intros Hf. unfold resultOf. rewrite executeCommand_pwd.
  unfold pwd, get, lift, deref, mbind, M_bind. simpl. by rewrite Hf.
Qed.

(** X11.  Where full paths are in order ([pathsOk]), [cd n] into a child
    directory named by a plain name extends what [pwd] prints by a slash
    and [n]. *)
Theorem cd_extends_pwd (sh : Shell) (n : string) (d : ref) :
  wf sh = true → pathsOk (store sh) = true → plainName n = true →
  childNamed (store sh) (currentDir sh) n (Some "dir") = Some d →
  ∃ p, resultOf "pwd" sh = Normal (mkResult [p] [] None) ∧
       resultOf "pwd" (after ("cd " +:+ n) sh) =
       Normal (mkResult [p +:+ "/" +:+ n] [] None).
Proof.
  intros Hwf Hpaths Hn Hd.
  destruct (cd_plain sh n d Hwf Hn Hd) as (_ & Hcd & Hst).
  destruct (childNamed_elem _ _ _ _ _ Hd) as (dobj & cs & Hdobj & Hcs & Hin & Hm).
  destruct (namedChild_lookup _ _ _ _ Hm) as (g & Hg & Hname & _).
  pose proof (wf_children _ _ _ _ (wf_wfStore _ Hwf) Hdobj Hcs) as Hall.
  rewrite Forall_forall in Hall. apply Hall, childOk_lookup in Hin as (g' & Hg' & Hp).
  rewrite Hg in Hg'. injection Hg' as <-.
  exists (fullPath dobj). split; [by apply pwd_at|].
  rewrite pathsOk_lookup in Hpaths. specialize (Hpaths d g Hg).
  unfold pathOk in Hpaths. rewrite Hp, Hdobj, Hname in Hpaths.
  apply String.eqb_eq in Hpaths. rewrite <- Hpaths.
  apply pwd_at. by rewrite Hcd, Hst.
Qed.

(** Witness for X11: into [a] from the root [~]. *)
Lemma cd_extends_pwd_witness :
  ∃ p, resultOf "pwd" (after "mkdir a" freshShell) = Normal (mkResult [p] [] None) ∧
       resultOf "pwd" (after "cd a" (after "mkdir a" freshShell)) =
       Normal (mkResult [p +:+ "/" +:+ "a"] [] None).
Proof.
  exact (cd_extends_pwd (after "mkdir a" freshShell) "a" 1
           eq_refl eq_refl eq_refl eq_refl).
Defined.

(** X12.  [cd] with one argument either succeeds, with the empty
    result, the current directory set to a directory of the store and
    nothing else of the store touched, or it fails with the one error
    line ["<argument>: directory not found"] and changes nothing at all.
    It never throws in a well-formed session. *)
Theorem cd_outcomes (sh : Shell) (a : string) :
  wf sh = true → a ≠ "" → noneOf [" "; ">"]%char a = true →
  (resultOf ("cd " +:+ a) sh = Normal emptyResult ∧
   isDirAt (store sh) (currentDir (after ("cd " +:+ a) sh)) = true ∧
   store (after ("cd " +:+ a) sh) = store sh) ∨
  executeCommand ("cd " +:+ a) sh =
    (Normal (mkResult [] [a +:+ ": directory not found"] None), sh).
Proof.
  intros Hwf Ha Hnone. unfold resultOf, after.
  assert (executeCommand ("cd " +:+ a) sh =
          cd (mkShellCommand ("cd " +:+ a) "cd" [a]) sh) as ->.
  { by rewrite (executeCommand_one_arg "cd" a). }
  destruct (findFile_result (store sh) (fileStructure sh) (currentDir sh)
              (Js.split "/" a) (Some "dir"))
    as (found & Hfind & Hres); auto using wf_wfStore, wf_currentDir, wf_fileStructure.
  destruct found as [d|].
  - left. destruct (Hres d eq_refl) as [Hsome Hdir].
    destruct (cd_found sh (mkShellCommand ("cd " +:+ a) "cd" [a]) a [] d
                eq_refl Hfind Hsome) as (H1 & H2 & H3).
    split; [done|]. split; [|done]. rewrite H2. by apply Hdir.
  - right. by apply (cd_not_found sh _ a []).
Qed.

(** Witness for X12: the path [a/../b/] with [a] present and [b] not. *)
Lemma cd_outcomes_witness :
  executeCommand "cd a/../b/" (after "mkdir a" freshShell) =
  (Normal (mkResult [] ["a/../b/: directory not found"] None),
   after "mkdir a" freshShell).
Proof.
  destruct (cd_outcomes (after "mkdir a" freshShell) "a/../b/" eq_refl) as [H|H];
    [discriminate | reflexivity | | exact H].
  exfalso. destruct H as [H _]. discriminate H.
Defined.

(** ** Keystrokes and the history *)

Section KeystrokeFacts.

Variable getContentsByTypes :
  list FileObject → FileObject → ValidTypes → Completion (list ref).

(** What a tab press leaves alone. *)
Lemma handleTab_keeps (sh : Shell) :
  let sh' := (shellKeystroke getContentsByTypes tabKey sh).2 in
  store sh' = store sh ∧ currentDir sh' = currentDir sh ∧
  fileStructure sh' = fileStructure sh ∧
  bashHistory sh' = bashHistory sh ∧ historyIndex sh' = historyIndex sh ∧
  childProcess sh' = childProcess sh.
Proof.
  rewrite shellKeystroke_tab. cbv zeta.
  pose proof (tabOptions_state getContentsByTypes sh) as Hst.
  destruct (tabOptions getContentsByTypes sh) as [[[partial options]|e] sh0] eqn:Hopts;
    simpl in Hst; subst sh0.
  2: { unfold handleTab, mbind, M_bind. by rewrite Hopts. }
  rewrite (handleTab_options _ _ partial options) by (by rewrite Hopts).
  destruct options as [|o1 [|o2 rest]]; [done | done |].
  unfold printAutoCompleteOptions, getPS1String, print, get, lift, modify, deref,
    mbind, M_bind, mret, M_ret.
  destruct (tabPressed sh); [|done].
  by destruct (store sh !! currentDir sh).
Qed.

(** X13.  A tab press, whatever it finds and however it ends, changes
    neither the store nor the current directory, the history, the history
    cursor or the child process: it can only arm the pending flag, print,
    or extend the line buffer and the prompt element. *)
Theorem tab_press_frame (sh : Shell) :
  let sh' := (shellKeystroke getContentsByTypes tabKey sh).2 in
  store sh' = store sh ∧ currentDir sh' = currentDir sh ∧
  fileStructure sh' = fileStructure sh ∧
  bashHistory sh' = bashHistory sh ∧ historyIndex sh' = historyIndex sh ∧
  childProcess sh' = childProcess sh.
Proof. apply handleTab_keeps. Qed.

Lemma handleEnter_history (sh : Shell) :
  let sh' := (handleEnter sh).2 in
  cursorOk sh = true →
  cursorOk sh' = true ∧ bashHistory sh `prefix_of` bashHistory sh'.
Proof.
  cbv zeta. unfold cursorOk. intros Hok%Nat.leb_le.
  unfold handleEnter, getPS1String, print, get, lift, modify, deref,
    mbind, M_bind, mret, M_ret.
  destruct (negb _); destruct (store sh !! currentDir sh); simpl;
    try (split; [by apply Nat.leb_le | done]).
  match goal with
  | |- context [executeCommand ?l ?s] =>
      destruct (executeCommand_runsOk l s)
        as [((_ & _ & _ & Hh & Hi & _) & _) _];
      destruct (executeCommand l s) as [[res|e] sh']
  end; simpl in *.
  - rewrite Hh. split; [by apply Nat.leb_le | by apply prefix_app_r].
  - rewrite Hh, Hi. split; [|by apply prefix_app_r].
    apply Nat.leb_le. rewrite length_app. simpl. lia.
Qed.

(** X14.  The history is append-only and the cursor stays within it:
    after any keystroke handled by the shell, however it ends, the old
    history is a prefix of the new one, and a cursor that pointed into the
    history or one past its end still does. *)
Theorem shellKeystroke_history (event : KeyEvent) (sh : Shell) :
  cursorOk sh = true →
  let sh' := (shellKeystroke getContentsByTypes event sh).2 in
  cursorOk sh' = true ∧ bashHistory sh `prefix_of` bashHistory sh'.
Proof.
  intros Hok. cbv zeta.
  destruct (Nat.eqb_spec (which event) 9) as [Htab|Hne].
  { assert (shellKeystroke getContentsByTypes event sh =
            handleTab getContentsByTypes sh) as ->.
    { unfold shellKeystroke, get, mbind, M_bind. rewrite Htab. done. }
    rewrite <- shellKeystroke_tab.
    destruct (handleTab_keeps sh) as (_ & _ & _ & Hh & Hi & _).
    unfold cursorOk in *. by rewrite Hh, Hi. }
  unfold shellKeystroke, get, modify, mbind, M_bind, mret, M_ret.
  destruct (which event =? 13).
  { simpl. by apply (handleEnter_history (set_tabPressed false sh)). }
  destruct (which event =? 8); [done|].
  destruct ((which event =? 38) && _) eqn:Hup.
  { simpl. split; [|done]. unfold cursorOk in *. simpl.
    apply Nat.leb_le. apply Nat.leb_le in Hok. lia. }
  destruct ((which event =? 40) && _) eqn:Hdown.
  { simpl. split; [|done]. unfold cursorOk in *. simpl.
    apply andb_prop in Hdown as [_ Hlt%Nat.ltb_lt].
    apply Nat.leb_le. lia. }
  destruct (which event =? 9) eqn:H9; [by apply Nat.eqb_eq in H9|]. done.
Qed.

End KeystrokeFacts.

(** Witness for X14: Enter on the line [pwd] with the history [ls],
    [cd] and the cursor on [cd]: the history becomes [ls], [cd], [pwd]
    and the cursor moves past its end. *)
Lemma shellKeystroke_history_witness :
  let sh := set_inputString "pwd"
              (set_historyIndex 1 (set_bashHistory ["ls"; "cd"] freshShell)) in
  let sh' := (shellKeystroke listByTypes enterKey sh).2 in
  cursorOk sh' = true ∧ ["ls"; "cd"] `prefix_of` bashHistory sh'.
Proof.
  intros sh.
  exact (shellKeystroke_history listByTypes enterKey sh eq_refl).
Defined.

(** ** Submitting, recalling and editing a line *)

Section LineFacts.

Variable getContentsByTypes :
  list FileObject → FileObject → ValidTypes → Completion (list ref).

Lemma shellKeystroke_enter (sh : Shell) :
  shellKeystroke getContentsByTypes enterKey sh = handleEnter (set_tabPressed false sh).
Proof. reflexivity. Qed.

(** X15.  Enter on a blank line (no character but spaces) in a
    well-formed session prints the prompt and nothing else, empties the
    line buffer and the prompt element, and puts the cursor at the end of
    the history; the history and the store are unchanged and nothing is
    executed. *)
Theorem enter_blank_line (sh : Shell) (ps1 : string) :
  Js.hasNonSpace (inputString sh) = false →
  (getPS1String sh).1 = Normal ps1 →
  shellKeystroke getContentsByTypes enterKey sh =
  (Normal tt,
   set_historyIndex (length (bashHistory sh))
     (set_inputPromptElement ""
        (set_inputString ""
           (set_outputElement (outputElement sh ++ [Line ps1])
              (set_tabPressed false sh))))).
Proof.
  intros Hblank Hps1. rewrite shellKeystroke_enter.
  unfold handleEnter, getPS1String, print, get, lift, modify, deref,
    mbind, M_bind, mret, M_ret in *.
  simpl in *. rewrite Hblank. simpl.
  destruct (store sh !! currentDir sh); simpl in *; [|done].
  by injection Hps1 as <-.
Qed.

(** X16.  Enter on a line with a character other than space prints the
    prompt with the line and appends the line to the history, and then
    executes it in the session so prepared.  When the execution returns
    a result, that result, rendered, is the last thing printed, the line
    buffer and the prompt element are empty and the cursor is one past the
    end of the history; when it throws, the keystroke throws the same, the
    line stays in the buffer and the cursor where it was.  Either way the
    history is the old one with the line at its end. *)
Theorem enter_submits_line (sh : Shell) (ps1 : string) :
  Js.hasNonSpace (inputString sh) = true →
  (getPS1String sh).1 = Normal ps1 →
  let out := shellKeystroke getContentsByTypes enterKey sh in
  let prepared :=
    set_bashHistory (bashHistory sh ++ [inputString sh])
      (set_outputElement
         (outputElement sh ++
          [Line (ps1 +:+ Js.replaceFirstSpace "&nbsp;" (inputString sh))])
         (set_tabPressed false sh)) in
  bashHistory out.2 = bashHistory sh ++ [inputString sh] ∧
  match resultOf (inputString sh) prepared with
  | Normal res =>
      out.1 = Normal tt ∧
      inputString out.2 = "" ∧ inputPromptElement out.2 = "" ∧
      historyIndex out.2 = length (bashHistory out.2) ∧
      last (outputElement out.2) = Some (Rendered res)
  | Throw e =>
      out.1 = Throw e ∧
      inputString out.2 = inputString sh ∧ historyIndex out.2 = historyIndex sh
  end.
Proof.
  intros Hline Hps1. cbv zeta. rewrite shellKeystroke_enter.
  unfold handleEnter, getPS1String, print, get, lift, modify, deref,
    mbind, M_bind, mret, M_ret, resultOf in *.
  simpl in *. rewrite Hline. simpl.
  destruct (store sh !! currentDir sh); simpl in *; [|done].
  injection Hps1 as <-.
  match goal with
  | |- context [executeCommand ?l ?s] =>
      destruct (executeCommand_runsOk l s)
        as [((_ & _ & Hin & Hh & Hi & _) & _) _];
      destruct (executeCommand l s) as [[res|e] sh']
  end; simpl in *.
  - split; [done|]. repeat split; try done. by rewrite last_snoc.
  - by repeat split.
Qed.

(** X17.  Recalling: with the cursor above the first entry, the up
    arrow moves the cursor down by one and puts the history entry there
    into the line buffer; the down arrow after it moves the cursor back
    and shows the entry it came from, or the empty line if it came from
    the end of the history. *)
Theorem up_then_down (sh : Shell) :
  0 < historyIndex sh → cursorOk sh = true →
  let sh1 := (shellKeystroke getContentsByTypes upKey sh).2 in
  let sh2 := (shellKeystroke getContentsByTypes downKey sh1).2 in
  historyIndex sh1 = historyIndex sh - 1 ∧
  bashHistory sh !! (historyIndex sh - 1) = Some (inputString sh1) ∧
  historyIndex sh2 = historyIndex sh ∧
  inputString sh2 =
    (if historyIndex sh =? length (bashHistory sh) then ""
     else default "" (bashHistory sh !! historyIndex sh)) ∧
  bashHistory sh2 = bashHistory sh.
Proof.
  intros Hpos Hok%Nat.leb_le. cbv zeta.
  assert (shellKeystroke getContentsByTypes upKey sh =
          (Normal tt,
           set_inputPromptElement (default "" (bashHistory sh !! (historyIndex sh - 1)))
             (set_inputString (default "" (bashHistory sh !! (historyIndex sh - 1)))
                (set_historyIndex (historyIndex sh - 1) (set_tabPressed false sh)))))
    as ->.
  { unfold shellKeystroke, get, modify, mbind, M_bind. simpl.
    apply Nat.ltb_lt in Hpos. by rewrite Hpos. }
  simpl snd.
  destruct (lookup_lt_is_Some_2 (bashHistory sh) (historyIndex sh - 1)) as [l Hl]; [lia|].
  rewrite Hl. simpl.
  unfold shellKeystroke, get, modify, mbind, M_bind. simpl.
  assert ((historyIndex sh - 1 <? length (bashHistory sh)) = true) as ->
    by (apply Nat.ltb_lt; lia).
  simpl. replace (historyIndex sh - 1 + 1) with (historyIndex sh) by lia.
  done.
Qed.

End LineFacts.

(** Witness for X15: Enter on three spaces at start-up. *)
Lemma enter_blank_line_witness :
  outputElement
    (shellKeystroke listByTypes enterKey (set_inputString "   " freshShell)).2 =
  [Line ("<span class=" +:+ dq +:+ "user" +:+ dq +:+
         ">guest@www.carlegbert.com:</span><span class=" +:+ dq +:+ "path" +:+ dq +:+
         ">~</span>$&nbsp;")].
Proof.
  rewrite (enter_blank_line listByTypes (set_inputString "   " freshShell) _
             eq_refl eq_refl).
  reflexivity.
Defined.

(** Witness for X16: Enter on [echo hi] with [ls] in the history; the
    result of [echo hi] is printed last. *)
Lemma enter_submits_line_witness :
  let sh := set_inputString "echo hi" (set_bashHistory ["ls"] freshShell) in
  let out := shellKeystroke listByTypes enterKey sh in
  bashHistory out.2 = ["ls"; "echo hi"] ∧
  out.1 = Normal tt ∧
  inputString out.2 = "" ∧ inputPromptElement out.2 = "" ∧
  historyIndex out.2 = length (bashHistory out.2) ∧
  last (outputElement out.2) = Some (Rendered (mkResult ["hi"] [] None)).
Proof.
  intros sh.
  exact (enter_submits_line listByTypes sh _ eq_refl eq_refl).
Defined.

(** Witness for X17: after [a] and [b] were submitted, up shows [b] and
    down the empty line. *)
Lemma up_then_down_witness :
  let sh := set_historyIndex 2 (set_bashHistory ["a"; "b"] freshShell) in
  inputString (shellKeystroke listByTypes upKey sh).2 = "b" ∧
  inputString (shellKeystroke listByTypes downKey
                 (shellKeystroke listByTypes upKey sh).2).2 = "".
Proof.
  intros sh.
  assert (0 < historyIndex sh) as Hpos by (simpl; lia).
  destruct (up_then_down listByTypes sh Hpos eq_refl) as (_ & Hup & _ & Hdown & _).
  split; [reflexivity | exact Hdown].
Defined.

(** ** Editing the line buffer *)

Lemma take_str_app (s k : string) : Js.take_str (String.length s) (s +:+ k) = s.
Proof. induction s as [|c s IH]; simpl; [by destruct k | by rewrite IH]. Qed.

Lemma slice_drop_last (s k : string) :
  String.length k = 1 →
  Js.slice (s +:+ k) 0 (Z.of_nat (String.length (s +:+ k)) - 1) = s.
Proof.
  intros Hk. unfold Js.slice. rewrite JsFacts.length_append, Hk.
  replace (Z.of_nat (String.length s + 1) - 1)%Z with (Z.of_nat (String.length s)) by lia.
  rewrite JsFacts.clampIndex_nat.
  replace (Js.clampIndex (String.length s + 1) 0) with 0
    by (unfold Js.clampIndex; simpl; lia).
  replace (String.length s `min` (String.length s + 1) - 0) with (String.length s) by lia.
  apply take_str_app.
Qed.

(** X18.  A keystroke that is none of Enter, backspace, the arrows and
    tab appends its character to the line buffer, and a backspace after it
    gives the buffer back as it was; backspace on the empty buffer leaves
    it empty. *)
Theorem type_then_backspace
    (getContentsByTypes : list FileObject → FileObject → ValidTypes → Completion (list ref))
    (event : KeyEvent) (sh : Shell) :
  existsb (Nat.eqb (which event)) [13; 8; 38; 40; 9] = false →
  String.length (getChar event) = 1 →
  let sh1 := (shellKeystroke getContentsByTypes event sh).2 in
  let sh2 := (shellKeystroke getContentsByTypes backspaceKey sh1).2 in
  inputString sh1 = inputString sh +:+ getChar event ∧
  inputString sh2 = inputString sh ∧
  inputString
    (shellKeystroke getContentsByTypes backspaceKey (set_inputString "" sh)).2 = "".
Proof.
  intros Hkey Hk. cbn [existsb] in Hkey.
  repeat (apply orb_false_elim in Hkey as [? Hkey]).
  cbv zeta.
  assert (shellKeystroke getContentsByTypes event sh =
          (Normal tt,
           set_inputPromptElement
             (inputPromptElement sh +:+
              (if String.eqb (getChar event) " " then "&nbsp;" else getChar event))
             (set_inputString (inputString sh +:+ getChar event)
                (set_tabPressed false sh)))) as ->.
  { unfold shellKeystroke, get, modify, mbind, M_bind.
    repeat match goal with H : (_ =? _) = false |- _ => rewrite H; clear H end.
    done. }
  split; [done|]. split; [|done].
  unfold shellKeystroke, get, modify, mbind, M_bind. simpl.
  by apply slice_drop_last.
Qed.

(** Witness for X18: the key [x] after [ls] was typed. *)
Lemma type_then_backspace_witness :
  let sh := set_inputString "ls" freshShell in
  inputString (shellKeystroke listByTypes (mkKeyEvent 88 "x") sh).2 = "lsx" ∧
  inputString (shellKeystroke listByTypes backspaceKey
                 (shellKeystroke listByTypes (mkKeyEvent 88 "x") sh).2).2 = "ls".
Proof.
  intros sh.
  destruct (type_then_backspace listByTypes (mkKeyEvent 88 "x") sh eq_refl eq_refl)
    as (H1 & H2 & _).
  split; [exact H1 | exact H2].
Defined.

(** ** Candidates by prefix *)

Lemma slice_prefix_take (o : string) (len : nat) :
  len ≤ String.length o → Js.slice o 0 (Z.of_nat len) = Js.take_str len o.
Proof.
  intros Hlen. unfold Js.slice. rewrite JsFacts.clampIndex_nat.
  replace (Js.clampIndex (String.length o) 0) with 0
    by (unfold Js.clampIndex; simpl; lia).
  simpl. by replace (len `min` String.length o - 0) with len by lia.
Qed.

Lemma take_str_prefix (p o : string) :
  (String.length p <=? String.length o) &&
  String.eqb (Js.take_str (String.length p) o) p = String.prefix p o.
Proof.
  revert o. induction p as [|a p IH]; intros o.
  - destruct o; reflexivity.
  - destruct o as [|b o]; [done|].
    change (String.prefix (String a p) (String b o))
      with (if ascii_dec a b then String.prefix p o else false).
    simpl. rewrite <- IH.
    destruct (ascii_dec a b) as [->|Hne].
    + by rewrite Ascii.eqb_refl.
    + destruct (Ascii.eqb_spec b a) as [->|]; [done|]. by rewrite andb_false_r.
Qed.

Lemma filter_test_prefix (p o : string) :
  (String.length p <=? String.length o) &&
  String.eqb (Js.slice o 0 (Z.of_nat (String.length p))) p = String.prefix p o.
Proof.
  rewrite <- take_str_prefix.
  destruct (Nat.leb_spec (String.length p) (String.length o)); [|done].
  by rewrite slice_prefix_take.
Qed.

Lemma filterAutoCompleteOptions_prefix_aux (partial : string) (options : list string) :
  filterAutoCompleteOptions partial options =
  filter (λ opt, String.prefix partial opt = true) options.
Proof.
  unfold filterAutoCompleteOptions. induction options as [|o options IH]; [done|].
  rewrite !filter_cons, IH. pose proof (filter_test_prefix partial o) as Ho.
  destruct (decide _) as [H1|H1], (decide _) as [H2|H2]; try done; congruence.
Qed.

(** X19.  [filterAutoCompleteOptions] keeps, in their order, exactly the
    options that start with the partial word. *)
Theorem filterAutoCompleteOptions_prefix (partial : string) (options : list string) :
  filterAutoCompleteOptions partial options =
  filter (λ opt, String.prefix partial opt = true) options.
Proof. apply filterAutoCompleteOptions_prefix_aux. Qed.

(** ** Completing to the one candidate *)

Lemma prefix_take_drop (p c : string) :
  String.prefix p c = true → p +:+ Js.drop_str (String.length p) c = c.
Proof.
  revert c. induction p as [|a p IH]; intros c; [done|].
  destruct c as [|b c]; [done|].
  change (String.prefix (String a p) (String b c))
    with (if ascii_dec a b then String.prefix p c else false).
  destruct (ascii_dec a b) as [->|]; [|done]. intros H. cbn [String.length Js.drop_str]. change (String b p +:+ Js.drop_str (String.length p) c) with (String b (p +:+ Js.drop_str (String.length p) c)). f_equal. by apply IH.
Qed.

Lemma prefix_noneOf (bad : list ascii) (p c : string) :
  String.prefix p c = true → noneOf bad c = true → noneOf bad p = true.
Proof.
  revert c. induction p as [|a p IH]; intros c; [done|].
  destruct c as [|b c]; [done|].
  change (String.prefix (String a p) (String b c))
    with (if ascii_dec a b then String.prefix p c else false).
  destruct (ascii_dec a b) as [->|]; [|done]. simpl.
  intros Hp [-> Hc]%andb_prop. simpl. by eapply IH.
Qed.

Lemma validCommands_no_slash (c : string) :
  c ∈ validCommands → noneOf ["/"%char] c = true.
Proof.
  unfold validCommands. rewrite !elem_of_cons, elem_of_nil.
  intros H. by repeat destruct H as [->|H].
Qed.

Section CompletionFacts.

Variable getContentsByTypes :
  list FileObject → FileObject → ValidTypes → Completion (list ref).

Lemma getAutocompleteFiles_prefix (partial : string) (filetypes : ValidTypes)
    (sh : Shell) (options : list string) :
  (getAutocompleteFiles getContentsByTypes partial filetypes sh).1 = Normal options →
  Forall (λ opt, String.prefix (wordPartialOf partial) opt = true) options.
Proof.
  unfold getAutocompleteFiles, findFromCurrent, get, lift, mbind, M_bind, mret, M_ret.
  repeat case_match; simplify_eq/=; try done.
  intros [= <-]. fold (wordPartialOf partial).
  rewrite filterAutoCompleteOptions_prefix_aux.
  apply Forall_forall. by intros o [Ho _]%list_elem_of_filter.
Qed.

Lemma tabOptions_single (sh : Shell) (partial complete : string) :
  (tabOptions getContentsByTypes sh).1 = Normal (partial, [complete]) →
  String.prefix (wordPartialOf partial) complete = true.
Proof.
  unfold tabOptions, get, mbind, M_bind, mret, M_ret.
  destruct (String.eqb _ ""); [done|]. destruct (_ && _).
  - simpl. intros [= Hp Hopts]. rewrite filterAutoCompleteOptions_prefix_aux in Hopts.
    assert (complete ∈ filter (λ opt, String.prefix partial opt = true) validCommands)
      as [Hpre Hin]%list_elem_of_filter.
    { rewrite <- Hp, Hopts. by left. }
    unfold wordPartialOf.
    rewrite PlainFacts.split_noneOf; [done|].
    eapply prefix_noneOf; [exact Hpre | by apply validCommands_no_slash].
  - match goal with
    | |- context [getAutocompleteFiles _ ?p ?t sh] =>
        pose proof (getAutocompleteFiles_prefix p t sh) as Hall1;
        destruct (getAutocompleteFiles getContentsByTypes p t sh) as [[opts|e] sh1];
        [|done]
    end.
    simpl in Hall1. specialize (Hall1 opts eq_refl).
    destruct (length opts =? 0).
    + match goal with
      | |- context [getAutocompleteFiles _ ?p ?t sh1] =>
          pose proof (getAutocompleteFiles_prefix p t sh1) as Hall2;
          destruct (getAutocompleteFiles getContentsByTypes p t sh1) as [[opts'|e] sh2];
          [|done]
      end.
      simpl in Hall2. specialize (Hall2 opts' eq_refl).
      simpl. intros [= Hp Ho]. subst. exact (Forall_inv Hall2).
    + simpl. intros [= Hp Ho]. subst. exact (Forall_inv Hall1).
Qed.

(** X20.  When a tab press finds exactly one candidate, of commands or
    of files, the line buffer is extended by a completion that turns the
    final path segment of the word being typed into the candidate:
    segment followed by completion is the candidate. *)
Theorem tab_completes_to_candidate (sh : Shell) (partial complete : string) :
  (tabOptions getContentsByTypes sh).1 = Normal (partial, [complete]) →
  ∃ completion,
    inputString (shellKeystroke getContentsByTypes tabKey sh).2 =
      inputString sh +:+ completion ∧
    wordPartialOf partial +:+ completion = complete.
Proof.
  intros Hopts.
  exists (Js.drop_str (String.length (wordPartialOf partial)) complete). split.
  - rewrite shellKeystroke_tab, (handleTab_options _ _ _ _ Hopts).
    unfold executeAutoComplete, modify, mbind, M_bind. simpl.
    fold (wordPartialOf partial). by rewrite sliceFrom_drop.
  - by apply prefix_take_drop, tabOptions_single with sh.
Qed.

End CompletionFacts.

(** Witness for X20: with the text file [notes] in the current
    directory, [cat no] completes to [cat notes]. *)
Lemma tab_completes_to_candidate_witness :
  ∃ completion,
    inputString (shellKeystroke listByTypes tabKey
                   (set_inputString "cat no" (after "touch notes" freshShell))).2
      = "cat no" +:+ completion ∧
    "no" +:+ completion = "notes".
Proof.
  exact (tab_completes_to_candidate listByTypes
           (set_inputString "cat no" (after "touch notes" freshShell))
           "no" "notes" eq_refl).
Defined.

(** ** The two versions of [cat] *)

Lemma cat_loop_catRun (sh : Shell) (arguments : list string) (res : ShellCommandResult) :
  wf sh = true →
  forEachArg (λ arg res,
    let path := Js.split "/" arg in
    file ← findFromCurrent path None;
    match file with
    | Some r =>
        sh ← get;
        f ← lift (deref (store sh) r);
        match f with
        | DirFile n _ _ _ _ _ => mret (pushErr ("cat: " +:+ n +:+ ": Is a directory") res)
        | TxtFile _ _ _ c _ => mret (mkResult (stdOut res ++ c) (stdErr res) (data res))
        end
    | None => mret (pushErr ("cat: " +:+ arg +:+ ": No such file or directory") res)
    end) arguments res sh =
  (Normal (foldl (catArg (foundFromCurrent sh)) res arguments), sh).
Proof.
  intros Hwf. revert res. induction arguments as [|arg rest IH]; intros res; [done|].
  cbn [forEachArg foldl]. unfold mbind at 1, M_bind at 1.
  unfold mbind at 1, M_bind at 1. unfold findFromCurrent at 1.
  destruct (findFile_result (store sh) (fileStructure sh) (currentDir sh)
              (Js.split "/" arg) None)
    as (found & Hfind & Hfound);
    [by apply wf_wfStore | by apply wf_fileStructure | by apply wf_currentDir |].
  unfold catArg at 2, foundFromCurrent at 2. rewrite Hfind.
  destruct found as [r|]; [|apply IH].
  destruct (Hfound r eq_refl) as [[f Hf] _].
  unfold get, lift, deref, mbind, M_bind. simpl. rewrite Hf.
  destruct f; apply IH.
Qed.

(** X21.  In a well-formed session the shell's own [cat] never throws,
    leaves the session as it is, and returns what the program [cat] of
    [programs/cat.ts] computes when the directory's [findFile] is the
    shell's. *)
Theorem cat_refines_program (shellCommand : ShellCommand) (sh : Shell) :
  wf sh = true →
  cat shellCommand sh =
  (Normal (catRun (foundFromCurrent sh) (args shellCommand)), sh).
Proof. intros Hwf. unfold cat, catRun. by apply cat_loop_catRun. Qed.

Lemma cat_refines_program_witness :
  let sh := after "echo hi > f" (after "mkdir d" freshShell) in
  cat (newShellCommand "cat f d g") sh =
  (Normal (mkResult ["hi"]
             ["cat: d: Is a directory"; "cat: g: No such file or directory"] None), sh).
Proof. intros sh. exact (cat_refines_program (newShellCommand "cat f d g") sh eq_refl). Defined.

Section CatFacts.

Variable findFileOf : list string → option Found.

Lemma catArg_streams (res : ShellCommandResult) (arg : string) :
  ∃ out err,
    stdOut (catArg findFileOf res arg) = stdOut res ++ out ∧
    stdErr (catArg findFileOf res arg) = stdErr res ++ err ∧
    data (catArg findFileOf res arg) = data res ∧
    ∀ res', catArg findFileOf res' arg =
            mkResult (stdOut res' ++ out) (stdErr res' ++ err) (data res').
Proof.
  unfold catArg, pushErr. destruct (findFileOf _) as [[n|c]|].
  - exists [], ["cat: " +:+ n +:+ ": Is a directory"]. simpl. rewrite app_nil_r.
    repeat split. intros res'. by rewrite app_nil_r.
  - exists c, []. simpl. rewrite app_nil_r. repeat split.
    intros res'. by rewrite app_nil_r.
  - exists [], ["cat: " +:+ arg +:+ ": No such file or directory"]. simpl.
    rewrite app_nil_r. repeat split. intros res'. by rewrite app_nil_r.
Qed.

Lemma catRun_from (arguments : list string) (res : ShellCommandResult) :
  foldl (catArg findFileOf) res arguments =
  mkResult (stdOut res ++ stdOut (catRun findFileOf arguments))
           (stdErr res ++ stdErr (catRun findFileOf arguments))
           (data res).
Proof.
  unfold catRun. revert res. induction arguments as [|arg rest IH]; intros res.
  - simpl. rewrite !app_nil_r. by destruct res.
  - cbn [foldl]. destruct (catArg_streams res arg) as (out & err & Ho & He & Hd & Hall).
    rewrite (IH (catArg findFileOf res arg)), (IH (catArg findFileOf emptyResult arg)).
    rewrite !Hall. simpl. by rewrite !app_assoc.
Qed.

(** X22.  The program [cat] treats its arguments one by one and in
    order: the output and the error lines for a list of arguments are
    those for a first part of the list followed by those for the rest. *)
Theorem catRun_app (arguments1 arguments2 : list string) :
  stdOut (catRun findFileOf (arguments1 ++ arguments2)) =
    stdOut (catRun findFileOf arguments1) ++ stdOut (catRun findFileOf arguments2) ∧
  stdErr (catRun findFileOf (arguments1 ++ arguments2)) =
    stdErr (catRun findFileOf arguments1) ++ stdErr (catRun findFileOf arguments2).
Proof.
  unfold catRun at 1 4. rewrite !foldl_app.
  fold (catRun findFileOf arguments1). by rewrite catRun_from.
Qed.

End CatFacts.

(** ** What a redirection returns *)

(** [newFile] on a one-segment path creates in the current directory
    and always hands the new file back. *)
Lemma newFile_single_data (n filetype : string) (created : ShellCommandResult)
    (sh : Shell) :
  (newFile [n] filetype sh).1 = Normal created → is_Some (data created).
Proof.
  unfold newFile, get, lift, deref, modify, mbind, M_bind, mret, M_ret. simpl.
  destruct (store sh !! currentDir sh) as [dobj|]; simpl; [|done].
  destruct (pushChild _ dobj); simpl; [|done].
  intros [= <-]. by eexists.
Qed.

Lemma storeOutput_result (pattern filepath : string) (inner res : ShellCommandResult)
    (sh : Shell) :
  (storeOutput pattern filepath inner sh).1 = Normal res →
  res = mkResult [] (stdErr inner) None.
Proof.
  unfold storeOutput, mbind at 1 2, M_bind at 1 2, findFromCurrent.
  destruct (findFile _ _ _ _ _) as [[f|]|e]; [| |done].
  - unfold mret at 1, M_ret at 1, mbind, M_bind.
    destruct (writeContents pattern f (stdOut inner) sh) as [[[]|e] sh1]; [|done].
    simpl. by intros [= <-].
  - unfold mbind at 1, M_bind at 1.
    pose proof (λ created, newFile_single_data filepath "txt" created sh) as Hdata.
    destruct (newFile [filepath] "txt" sh) as [[created|e] sh1]; [|done].
    destruct (Hdata created eq_refl) as [f Hf].
    unfold mret at 1, M_ret at 1. rewrite Hf.
    unfold mbind, M_bind.
    destruct (writeContents pattern f (stdOut inner) sh1) as [[[]|e] sh2]; [|done].
    simpl. by intros [= <-].
Qed.

Lemma redirect_returns (line pattern : string) (sh : Shell)
    (res : ShellCommandResult) :
  (redirect executeCommand line pattern sh).1 = Normal res →
  ∃ inner,
    resultOf (newInputOf line pattern) sh = Normal inner ∧
    res = mkResult [] (stdErr inner) None.
Proof.
  unfold redirect, resultOf.
  destruct (afterSymbolOf line pattern) as [|filepath rest] eqn:Hafter.
  { pose proof (afterSymbolOf_not_nil line pattern) as Hlen.
    rewrite Hafter in Hlen. simpl in Hlen. lia. }
  unfold mbind, M_bind.
  destruct (executeCommand (newInputOf line pattern) sh) as [[inner|e] sh1] eqn:Hinner;
    [|done].
  intros Hres. exists inner. split; [done|]. by eapply storeOutput_result.
Qed.

(** X23.  A line with a redirect operator never hands anything to the
    standard output and never complains about its target: when it
    returns, the inner line, which is what [newInputOf] makes of the line
    for the operator [>>] if the line has one and for [>] otherwise,
    has returned too, and the result is the empty standard output, no
    file attached, and the error lines of the inner result unchanged. *)
Theorem redirect_result (line : string) (sh : Shell) (res : ShellCommandResult) :
  Js.includes line ">" = true →
  resultOf line sh = Normal res →
  let pattern := if Js.includes line ">>" then ">>" else ">" in
  ∃ inner,
    resultOf (newInputOf line pattern) sh = Normal inner ∧
    res = mkResult [] (stdErr inner) None.
Proof.
  intros Hinc. unfold resultOf at 1. rewrite executeCommand_eq, Hinc.
  intros Hres. cbv zeta.
  destruct (Js.includes line ">>"); by apply redirect_returns.
Qed.

(** Witness for X23: [cat nofile > f] passes the complaint of [cat] on. *)
Lemma redirect_result_witness :
  ∃ inner,
    resultOf (newInputOf "cat nofile > f" ">") freshShell = Normal inner ∧
    mkResult [] ["cat: nofile: No such file or directory"] None =
      mkResult [] (stdErr inner) None.
Proof. exact (redirect_result "cat nofile > f" freshShell _ eq_refl eq_refl). Defined.

(** ** Redirect, then read back *)

Lemma childNamed_none_typed (st : list FileObject) (dir : ref) (n : string)
    (typeFilter : option string) :
  childNamed st dir n None = None → childNamed st dir n typeFilter = None.
Proof.
  rewrite !childNamed_childrenNamed_nil. unfold childrenNamed.
  destruct (st !! dir ≫= children) as [cs|]; [|done].
  induction cs as [|c cs IH]; [done|]. rewrite !filter_cons.
  assert (namedChild st n typeFilter c = true → namedChild st n None c = true) as Himp.
  { unfold namedChild. destruct (st !! c); [|done]. rewrite andb_true_r.
    by intros [? _]%andb_prop. }
  destruct (decide (namedChild st n None c = true)) as [|Hno]; [done|].
  intros Hnil. destruct (decide (namedChild st n typeFilter c = true)) as [Hyes|];
    [by apply Himp in Hyes | by apply IH].
Qed.

(** To a name that no child has, [>>] stores what [>] stores: the new
    file starts without lines. *)
Lemma storeOutput_created (sh : Shell) (pattern n : string) (res : ShellCommandResult) :
  wf sh = true → specialSegment n = false →
  childNamed (store sh) (currentDir sh) n None = None →
  storeOutput pattern n res sh = storeOutput ">" n res sh.
Proof.
  intros Hwf Hn Hnone.
  pose proof (childNamed_none_typed _ _ _ (Some "txt") Hnone) as Htxt.
  unfold storeOutput, mbind, M_bind.
  rewrite findFromCurrent_plain by done. simpl. rewrite Htxt.
  rewrite newFile_single by done. simpl.
  destruct (wf_currentDir_lookup sh Hwf) as (dobj & dobj' & Hd & Hpush).
  assert (storeWithNew sh n "txt" !! length (store sh) =
          Some (TxtFile n (fullPath dobj +:+ "/" +:+ n) (Some (currentDir sh)) [] (now sh)))
    as Hnew.
  { unfold storeWithNew. rewrite Hd, Hpush.
    pose proof (lookup_lt_Some _ _ _ Hd).
    rewrite list_lookup_insert_ne by lia.
    by rewrite lookup_app_r, Nat.sub_diag by lia. }
  unfold writeContents. destruct (String.eqb pattern ">"); [done|].
  unfold get, lift, deref, modify, mbind, M_bind, mret, M_ret. simpl.
  by rewrite Hnew.
Qed.

Lemma executeCommand_cat_plain (sh : Shell) (n : string) (c : list string) :
  wf sh = true → plainName n = true → textFileAt sh n c →
  executeCommand ("cat " +:+ n) sh = (Normal (mkResult c [] None), sh).
Proof.
  intros Hwf Hn Hfile.
  pose proof (plainName_parts _ Hn) as (Hspecial & Hne & Hspace & Hslash & Hgt).
  change ("cat " +:+ n) with ("cat" +:+ " " +:+ n).
  rewrite executeCommand_one_arg.
  - assert (dispatch (mkShellCommand ("cat" +:+ " " +:+ n) "cat" [n]) sh =
            cat (mkShellCommand ("cat" +:+ " " +:+ n) "cat" [n]) sh) as -> by reflexivity.
    apply (cat_textFileAt _ _ n); try done. by apply PlainFacts.split_noneOf.
  - reflexivity.
  - exact Hne.
  - apply (noneOf_weaken2 [" "; "/"; ">"]%char).
    + intros a Ha. apply list_elem_of_In. apply list_elem_of_In in Ha.
      simpl in *. tauto.
    + unfold plainName in Hn. by apply andb_prop in Hn as [_ ?].
  - reflexivity.
Qed.

(** X24.  Reading back what a redirection stored.  Let the target of a
    redirect line be a plain name [n], and let the inner command return
    in a session where, in the current directory, [n] either leads to a
    text file with the lines [old] or is the name of no child ([old]
    empty).  Then [cat n] after the line yields, with no error, the inner
    command's standard output for [>], and [old] followed by that output
    for [>>]. *)
Theorem redirect_then_cat_back (line pattern n : string) (rest old : list string)
    (inner : ShellCommandResult) (sh : Shell) :
  wf sh = true →
  Js.includes line pattern = true →
  pattern = ">>" ∨ (pattern = ">" ∧ Js.includes line ">>" = false) →
  afterSymbolOf line pattern = n :: rest →
  plainName n = true →
  resultOf (newInputOf line pattern) sh = Normal inner →
  let sh1 := after (newInputOf line pattern) sh in
  textFileAt sh1 n old ∨
    (old = [] ∧ childNamed (store sh1) (currentDir sh1) n None = None) →
  resultOf ("cat " +:+ n) (after line sh) =
  Normal (mkResult (if String.eqb pattern ">" then stdOut inner
                    else old ++ stdOut inner) [] None).
Proof.
  intros Hwf Hinc Hpat Hafter Hn Hinner sh1 Hold.
  pose proof (plainName_parts _ Hn) as (Hspecial & _).
  assert (wf sh1 = true) as Hwf1 by (by apply after_wf).
  assert (after line sh = (storeOutput pattern n inner sh1).2) as Hafterline.
  { unfold after at 1. rewrite executeCommand_eq.
    assert ((if Js.includes line ">>" then redirect executeCommand line ">>" sh
             else if Js.includes line ">" then redirect executeCommand line ">" sh
             else let shellCommand := newShellCommand line in
                  if negb (Js.arrIncludes validCommands (command shellCommand))
                  then (Normal (newResult (Arr [])
                          (Str (command shellCommand +:+ ": command not found")) None), sh)
                  else dispatch shellCommand sh) =
            redirect executeCommand line pattern sh) as ->.
    { destruct Hpat as [->|[-> Hno]]; [by rewrite Hinc | by rewrite Hno, Hinc]. }
    unfold redirect. rewrite Hafter. unfold mbind, M_bind.
    unfold resultOf in Hinner. unfold sh1, after.
    destruct (executeCommand (newInputOf line pattern) sh) as [r s].
    simpl in Hinner. by subst r. }
  assert (wf (after line sh) = true) as Hwf2 by (by apply after_wf).
  assert (textFileAt (after line sh) n
            (if String.eqb pattern ">" then stdOut inner else old ++ stdOut inner))
    as Hfile.
  { rewrite Hafterline. destruct Hold as [Hold|[-> Hnone]].
    - by apply storeOutput_textFileAt.
    - rewrite storeOutput_created by done.
      assert ((if String.eqb pattern ">" then stdOut inner else [] ++ stdOut inner) =
              stdOut inner) as -> by (by destruct (String.eqb pattern ">")).
      apply storeOutput_truncate; try done.
      by apply childNamed_none_typed. }
  unfold resultOf. by rewrite (executeCommand_cat_plain _ _ _ Hwf2 Hn Hfile).
Qed.

(** Witness for X24: [pwd >> log] twice at start-up; the second time
    [log] holds the line of the first. *)
Lemma redirect_then_cat_back_witness :
  resultOf "cat log" (after "pwd >> log" (after "pwd >> log" freshShell)) =
  Normal (mkResult ["~"; "~"] [] None).
Proof.
  refine (redirect_then_cat_back "pwd >> log" ">>" "log" [] ["~"]
            (mkResult ["~"] [] None) (after "pwd >> log" freshShell)
            eq_refl eq_refl (or_introl eq_refl) eq_refl eq_refl eq_refl
            (or_introl _)).
  exists 1, "log", "~/log", (Some 0), 0. repeat split; reflexivity.
Defined.

(** ** Contents change by redirection only *)

Lemma keepsContents_refl (st : list FileObject) : keepsContents st st.
Proof. intros r f Hf. eauto. Qed.

Lemma keepsContents_trans (st1 st2 st3 : list FileObject) :
  keepsContents st1 st2 → keepsContents st2 st3 → keepsContents st1 st3.
Proof.
  intros H12 H23 r f Hf. destruct (H12 r f Hf) as (f2 & Hf2 & Hc2).
  destruct (H23 r f2 Hf2) as (f3 & Hf3 & Hc3). exists f3. split; [done|]. congruence.
Qed.

Lemma keepsContents_setLastModified (st : list FileObject) (t : nat) (r : ref) :
  keepsContents st (alter (setLastModified t) r st).
Proof.
  intros r' f Hf. destruct (decide (r' = r)) as [->|Hne].
  - exists (setLastModified t f). rewrite list_lookup_alter_eq, Hf. split; [done|].
    by destruct f.
  - exists f. by rewrite list_lookup_alter_ne.
Qed.

Lemma keepsContents_push (st : list FileObject) (d : ref) (dobj dobj' file : FileObject) :
  st !! d = Some dobj → pushChild (length st) dobj = Some dobj' →
  keepsContents st (<[d := dobj']> (st ++ [file])).
Proof.
  intros Hd Hpush r f Hf. pose proof (lookup_lt_Some _ _ _ Hf) as Hlt.
  destruct (decide (r = d)) as [->|Hne].
  - exists dobj'. rewrite list_lookup_insert_eq by (rewrite length_app; lia).
    split; [done|]. rewrite Hd in Hf. injection Hf as <-.
    destruct dobj; [|done]. by injection Hpush as <-.
  - exists f. rewrite list_lookup_insert_ne by done. by rewrite lookup_app_l.
Qed.

(** Running [m] from [sh] leaves the contents of the objects alone. *)
Local Abbreviation keepsOk m sh := (keepsContents (store sh) (store (m sh).2)).

Lemma keepsOk_bind {A B} (m : M A) (k : A → M B) (sh : Shell) :
  keepsOk m sh →
  (∀ a sh', keepsOk (k a) sh') →
  keepsOk (m ≫= k) sh.
Proof.
  intros Hm Hk. unfold mbind, M_bind.
  destruct (m sh) as [[a|e] sh'] eqn:Heq; simpl in *; [|done].
  eapply keepsContents_trans; [exact Hm | apply Hk].
Qed.

Lemma keepsOk_get_bind {A} (k : Shell → M A) (sh : Shell) :
  keepsOk (k sh) sh → keepsOk (get ≫= k) sh.
Proof. done. Qed.

Lemma keepsOk_same {A} (m : M A) (sh : Shell) :
  store (m sh).2 = store sh → keepsOk m sh.
Proof. intros ->. apply keepsContents_refl. Qed.

Lemma keepsOk_forEachArg (body : string → ShellCommandResult → M ShellCommandResult)
    (arguments : list string) :
  (∀ arg res sh, keepsOk (body arg res) sh) →
  ∀ res sh, keepsOk (forEachArg body arguments res) sh.
Proof.
  intros Hbody. induction arguments as [|arg rest IH]; intros res sh; simpl.
  - apply keepsContents_refl.
  - apply keepsOk_bind; [apply Hbody | intros; apply IH].
Qed.

Lemma keepsOk_newFile (filepath : list string) (filetype : string) (sh : Shell) :
  keepsOk (newFile filepath filetype) sh.
Proof.
  unfold newFile, findFromCurrent, get, lift, deref, modify, mbind, M_bind, mret, M_ret.
  destruct (length filepath =? 1).
  - destruct (store sh !! currentDir sh) as [dobj|] eqn:Hd; simpl;
      [|apply keepsContents_refl].
    destruct (pushChild _ dobj) as [dobj'|] eqn:Hpush; simpl;
      [|apply keepsContents_refl].
    by eapply keepsContents_push.
  - destruct (findFile _ _ _ _ _) as [[d|]|e]; simpl; try apply keepsContents_refl.
    destruct (store sh !! d) as [dobj|] eqn:Hd; simpl; [|apply keepsContents_refl].
    destruct (pushChild _ dobj) as [dobj'|] eqn:Hpush; simpl;
      [|apply keepsContents_refl].
    by eapply keepsContents_push.
Qed.

Ltac keeps_step :=
  lazymatch goal with
  | |- keepsContents _ (store ((mret _) _).2) => apply keepsContents_refl
  | |- keepsContents _ (store ((get ≫= _) _).2) => apply keepsOk_get_bind
  | |- keepsContents _ (store ((findFromCurrent _ _) _).2) => apply keepsContents_refl
  | |- keepsContents _ (store ((newFile _ _) _).2) => apply keepsOk_newFile
  | |- keepsContents _ (store (getPS1String _).2) =>
      apply keepsOk_same; unfold getPS1String, get, lift, deref, mbind, M_bind;
      simpl; by destruct (_ !! _)
  | |- keepsContents _ (store ((lift _) _).2) => apply keepsContents_refl
  | |- keepsContents _
         (store ((modify (λ s, set_store (alter (setLastModified _) _ _) _)) _).2) =>
      apply keepsContents_setLastModified
  | |- keepsContents _ (store ((modify _) _).2) => apply keepsContents_refl
  | |- keepsContents _ (store ((forEachArg _ _ _) _).2) =>
      apply keepsOk_forEachArg; intros ? ? ?
  | |- keepsContents _ (store ((_ ≫= _) _).2) => apply keepsOk_bind; [| intros ? ?]
  | |- keepsContents _ (store ((match ?x with _ => _ end) _).2) => destruct x
  | |- keepsContents _ (store ((if ?b then _ else _) _).2) => destruct b
  end.

Lemma keepsOk_dispatch (c : ShellCommand) (sh : Shell) : keepsOk (dispatch c) sh.
Proof.
  unfold dispatch.
  repeat (match goal with
          | |- keepsContents _ (store ((if ?b then _ else _) _).2) => destruct b
          end);
    [unfold clear | unfold pwd | unfold whoami | unfold cd | unfold ls | unfold cat
     | unfold touch | unfold mkdir | unfold echo | unfold vi | ];
    repeat keeps_step.
Qed.

(** X25.  Only a redirection writes into a file: a line without [>],
    whatever it is and however it ends, leaves every object of the store
    in its place with the contents it had. *)
Theorem contents_change_by_redirect_only (line : string) (sh : Shell) :
  Js.includes line ">" = false →
  keepsContents (store sh) (store (after line sh)).
Proof.
  intros Hno. unfold after. rewrite executeCommand_eq.
  rewrite (includes_double line Hno), Hno. simpl.
  destruct (negb _); [apply keepsContents_refl | apply keepsOk_dispatch].
Qed.

(** Witness for X25: [touch f] on a file that holds a line. *)
Lemma contents_change_by_redirect_only_witness :
  ∃ f', store (after "touch f" (after "echo hi > f" freshShell)) !! 1 = Some f' ∧
        contents f' = Some ["hi"].
Proof.
  exact (contents_change_by_redirect_only "touch f" (after "echo hi > f" freshShell)
           eq_refl 1 (TxtFile "f" "~/f" (Some 0) ["hi"] 0) eq_refl).
Defined.

(** ** Handing the keyboard to the editor *)

Lemma vi_with_argument (c : ShellCommand) (arg0 : string) (others : list string)
    (sh : Shell) :
  wf sh = true → args c = arg0 :: others →
  ∃ file,
    findFile (store sh) (fileStructure sh) (currentDir sh) (Js.split "/" arg0)
      (Some "txt") = Normal file ∧
    vi c sh = (Normal emptyResult,
               set_childProcess (Some (mkVi (Js.split "/" arg0) file)) sh).
Proof.
  intros Hwf Hargs.
  destruct (findFile_result (store sh) (fileStructure sh) (currentDir sh)
              (Js.split "/" arg0) (Some "txt"))
    as (file & Hfind & _);
    [by apply wf_wfStore | by apply wf_fileStructure | by apply wf_currentDir |].
  exists file. split; [done|].
  unfold vi. rewrite Hargs.
  unfold findFromCurrent, modify, mbind, M_bind, mret, M_ret. by rewrite Hfind.
Qed.

Section EditorFacts.

Variable getContentsByTypes :
  list FileObject → FileObject → ValidTypes → Completion (list ref).
Variable viKeystroke : Vi → KeyEvent → M unit.

(** X26.  In a well-formed session [vi a], for one argument [a], returns
    the empty result and changes the session in one place only: the child
    process becomes an editor on the path [a], with the text file found
    there or with none.  From then on every keystroke goes to the editor
    and not to the shell's own handler, until [killChildProcess] gives the
    keyboard back. *)
Theorem vi_takes_the_keyboard (a : string) (sh : Shell) :
  wf sh = true → a ≠ "" → noneOf [" "; ">"]%char a = true →
  let sh1 := after ("vi " +:+ a) sh in
  resultOf ("vi " +:+ a) sh = Normal emptyResult ∧
  ∃ file,
    findFile (store sh) (fileStructure sh) (currentDir sh) (Js.split "/" a)
      (Some "txt") = Normal file ∧
    sh1 = set_childProcess (Some (mkVi (Js.split "/" a) file)) sh ∧
    (∀ event, parseKeystroke getContentsByTypes viKeystroke event sh1 =
              viKeystroke (mkVi (Js.split "/" a) file) event sh1) ∧
    (∀ event, parseKeystroke getContentsByTypes viKeystroke event (killChildProcess sh1).2 =
              shellKeystroke getContentsByTypes event (set_childProcess None sh)).
Proof.
  intros Hwf Hne Hnone sh1.
  assert (executeCommand ("vi " +:+ a) sh =
          vi (mkShellCommand ("vi" +:+ " " +:+ a) "vi" [a]) sh) as Hexec.
  { change ("vi " +:+ a) with ("vi" +:+ " " +:+ a).
    by rewrite executeCommand_one_arg. }
  destruct (vi_with_argument (mkShellCommand ("vi" +:+ " " +:+ a) "vi" [a]) a [] sh
              Hwf eq_refl) as (file & Hfind & Hvi).
  unfold resultOf, sh1, after. rewrite Hexec, Hvi. split; [done|].
  exists file. split; [done|]. split; [done|]. split; [done|].
  intros event. unfold parseKeystroke, killChildProcess, modify, get, mbind, M_bind.
  simpl. by destruct sh.
Qed.

End EditorFacts.

(** Witness for X26: [vi notes] at start-up, where no file [notes]
    exists; the editor, here one that types into the line buffer, gets the
    key. *)
Lemma vi_takes_the_keyboard_witness :
  let editor := λ (child : Vi) (event : KeyEvent),
    modify (λ sh, set_inputString (inputString sh +:+ getChar event) sh) in
  let sh1 := after "vi notes" freshShell in
  childProcess sh1 = Some (mkVi ["notes"] None) ∧
  parseKeystroke listByTypes editor enterKey sh1 = editor (mkVi ["notes"] None) enterKey sh1.
Proof.
  intros editor sh1.
  destruct (vi_takes_the_keyboard listByTypes editor "notes" freshShell
              eq_refl ltac:(discriminate) eq_refl) as (_ & file & Hfind & Hsh1 & Hkey & _).
  injection Hfind as <-. split; [exact (f_equal childProcess Hsh1) | apply Hkey].
Defined.

(** ** Listing directories *)

Lemma lsItems_returns (st : list FileObject) (cs : list ref) (acc : string) :
  Forall (λ c, is_Some (st !! c)) cs → ∃ s, lsItems st cs acc = Normal s.
Proof.
  revert acc. induction cs as [|c cs IH]; intros acc Hall; [by eexists|].
  apply Forall_cons in Hall as [[child Hc] Hall]. simpl.
  unfold deref. rewrite Hc. simpl. by apply IH.
Qed.

Lemma lsHelper_returns (st : list FileObject) (dir : ref) :
  wfStore st = true → isDirAt st dir = true → ∃ s, lsHelper st dir = Normal s.
Proof.
  intros Hwf (dobj & Hd & Hdir)%isDirAt_lookup.
  unfold lsHelper, deref. rewrite Hd. simpl.
  destruct (children dobj) as [cs|] eqn:Hcs; [|by destruct dobj].
  destruct (lsItems_returns st cs "<div>") as [s Hs];
    [by eapply wf_children_valid|].
  rewrite Hs. by eexists.
Qed.

(** What [ls] has to say about one argument: [inl] a line for the
    standard output, the listing of the directory that the argument
    resolves to, headed by the argument and a colon when there are several
    arguments; [inr] the complaint, where it resolves to no directory. *)
Local Abbreviation lsAnswers sh many arg answer :=
  (match answer with
   | inl line =>
       ∃ d listing,
         findFile (store sh) (fileStructure sh) (currentDir sh)
           (Js.split "/" arg) (Some "dir") = Normal (Some d) ∧
         isDirAt (store sh) d = true ∧
         lsHelper (store sh) d = Normal listing ∧
         line = (if many then arg +:+ ":" else "") +:+ listing
   | inr line =>
       findFile (store sh) (fileStructure sh) (currentDir sh)
         (Js.split "/" arg) (Some "dir") = Normal None ∧
       line = "ls: cannot access " +:+ arg +:+ ": no such file or directory"
   end).

Lemma ls_loop_answers (many : bool) (arguments : list string) (res0 : ShellCommandResult)
    (sh : Shell) :
  wf sh = true →
  ∃ answers : list (string + string),
    Forall2 (λ arg answer, lsAnswers sh many arg answer) arguments answers ∧
    forEachArg (λ arg res,
      dir ← findFromCurrent (Js.split "/" arg) (Some "dir");
      match dir with
      | None =>
          mret (pushErr ("ls: cannot access " +:+ arg +:+
                         ": no such file or directory") res)
      | Some d =>
          sh ← get;
          listing ← lift (lsHelper (store sh) d);
          let str := (if many then arg +:+ ":" else "") +:+ listing in
          mret (pushOut str res)
      end) arguments res0 sh =
    (Normal (mkResult (stdOut res0 ++ omap (λ a, match a with inl l => Some l | inr _ => None end) answers)
                      (stdErr res0 ++ omap (λ a, match a with inl _ => None | inr l => Some l end) answers)
                      (data res0)), sh).
Proof.
  intros Hwf. revert res0. induction arguments as [|arg rest IH]; intros res0.
  { exists []. split; [constructor|]. simpl. rewrite !app_nil_r. by destruct res0. }
  cbn [forEachArg]. unfold mbind at 1, M_bind at 1.
  unfold mbind at 1, M_bind at 1. unfold findFromCurrent at 1.
  destruct (findFile_result (store sh) (fileStructure sh) (currentDir sh)
              (Js.split "/" arg) (Some "dir"))
    as (found & Hfind & Hfound);
    [by apply wf_wfStore | by apply wf_fileStructure | by apply wf_currentDir |].
  rewrite Hfind. destruct found as [d|].
  - destruct (Hfound d eq_refl) as [_ Hdir]. specialize (Hdir eq_refl).
    destruct (lsHelper_returns (store sh) d) as [listing Hls];
      [by apply wf_wfStore | done |].
    unfold get, lift, mbind at 1 2, M_bind at 1 2, mret at 1, M_ret at 1.
    rewrite Hls.
    match goal with
    | |- context [forEachArg _ rest ?r sh] => destruct (IH r) as (answers & Hall & Hrun)
    end.
    exists (inl ((if many then arg +:+ ":" else "") +:+ listing) :: answers).
    split; [constructor; [by exists d, listing | done]|].
    etrans; [exact Hrun|]. unfold pushOut. simpl. by rewrite <- !app_assoc.
  - unfold mret at 1, M_ret at 1.
    match goal with
    | |- context [forEachArg _ rest ?r sh] => destruct (IH r) as (answers & Hall & Hrun)
    end.
    exists (inr ("ls: cannot access " +:+ arg +:+ ": no such file or directory")
              :: answers).
    split; [by constructor|].
    etrans; [exact Hrun|]. unfold pushErr. simpl. by rewrite <- !app_assoc.
Qed.

(** X27.  In a well-formed session [ls] never throws and leaves the
    session as it is.  With arguments it answers each of them, in order,
    with exactly one line: the listing of the directory the argument
    resolves to, on the standard output, or the complaint that there is no
    such directory, among the errors; the standard output is the listings
    and the errors are the complaints, each in the order of their
    arguments.  Without arguments it gives the one listing of the current
    directory and no error. *)
Theorem ls_one_line_per_argument (shellCommand : ShellCommand) (sh : Shell) :
  wf sh = true →
  ∃ res,
    ls shellCommand sh = (Normal res, sh) ∧ data res = None ∧
    match args shellCommand with
    | [] =>
        ∃ listing, lsHelper (store sh) (currentDir sh) = Normal listing ∧
                   stdOut res = [listing] ∧ stdErr res = []
    | arguments =>
        ∃ answers : list (string + string),
          Forall2 (λ arg answer,
                     lsAnswers sh (1 <? length arguments) arg answer)
            arguments answers ∧
          stdOut res =
            omap (λ a, match a with inl l => Some l | inr _ => None end) answers ∧
          stdErr res =
            omap (λ a, match a with inl _ => None | inr l => Some l end) answers
    end.
Proof.
  intros Hwf. unfold ls. destruct (args shellCommand) as [|arg0 rest] eqn:Hargs.
  - destruct (lsHelper_returns (store sh) (currentDir sh)) as [listing Hls];
      [by apply wf_wfStore | by apply wf_currentDir |].
    unfold get, lift, mbind, M_bind, mret, M_ret. rewrite Hls.
    eexists. split; [reflexivity|]. split; [done|]. by exists listing.
  - destruct (ls_loop_answers (1 <? length (arg0 :: rest)) (arg0 :: rest)
                (newResult (Arr []) Undefined None) sh Hwf) as (answers & Hall & Hrun).
    eexists. split; [exact Hrun|]. split; [done|]. by exists answers.
Qed.

(** Witness for X27: [ls d nodir] after [mkdir d] and [touch d/f]: one
    listing, headed [d:], and one complaint. *)
Lemma ls_one_line_per_argument_witness :
  let sh := afterAll ["mkdir d"; "touch d/f"] freshShell in
  ∃ res,
    ls (newShellCommand "ls d nodir") sh = (Normal res, sh) ∧ data res = None ∧
    ∃ answers : list (string + string),
      Forall2 (λ arg answer, lsAnswers sh true arg answer) ["d"; "nodir"] answers ∧
      stdOut res =
        omap (λ a, match a with inl l => Some l | inr _ => None end) answers ∧
      stdErr res =
        omap (λ a, match a with inl _ => None | inr l => Some l end) answers.
Proof.
  intros sh. exact (ls_one_line_per_argument (newShellCommand "ls d nodir") sh eq_refl).
Defined.

(** ** What reaches the output element *)

Lemma clearsScreen_fuel_stable (n : nat) :
  ∀ (line : string) (d1 d2 : nat),
    String.length line ≤ n →
    String.length line < d1 →
    String.length line < d2 →
    clearsScreen_fuel d1 line = clearsScreen_fuel d2 line.
Proof.
  induction n as [|n IH]; intros line d1 d2 Hn H1 H2;
    (destruct d1 as [|d1]; [lia|]); (destruct d2 as [|d2]; [lia|]); simpl.
  - destruct (Js.includes line ">>") eqn:Hpp.
    { apply newInputOf_shorter in Hpp; [lia | done]. }
    destruct (Js.includes line ">") eqn:Hp; [|done].
    apply newInputOf_shorter in Hp; [lia | done].
  - destruct (Js.includes line ">>") eqn:Hpp.
    { apply IH; apply newInputOf_shorter in Hpp; try done; lia. }
    destruct (Js.includes line ">") eqn:Hp; [|done].
    apply IH; apply newInputOf_shorter in Hp; try done; lia.
Qed.

Lemma clearsScreen_eq (line : string) :
  clearsScreen line =
  if Js.includes line ">>" then clearsScreen (newInputOf line ">>")
  else if Js.includes line ">" then clearsScreen (newInputOf line ">")
  else String.eqb (command (newShellCommand line)) "clear".
Proof.
  unfold clearsScreen at 1. cbn [clearsScreen_fuel].
  destruct (Js.includes line ">>") eqn:Hpp.
  { unfold clearsScreen. apply newInputOf_shorter in Hpp; [|done].
    apply (clearsScreen_fuel_stable (String.length line)); lia. }
  destruct (Js.includes line ">") eqn:Hp; [|done].
  unfold clearsScreen. apply newInputOf_shorter in Hp; [|done].
  apply (clearsScreen_fuel_stable (String.length line)); lia.
Qed.

(** *** Fields that a computation leaves as they are

    [pr] is a field of the session, or any other reading of it. *)

Lemma kept_bind {A B S} (pr : Shell → S) (m : M A) (k : A → M B) (sh : Shell) :
  pr (m sh).2 = pr sh →
  (∀ a sh', pr (k a sh').2 = pr sh') →
  pr ((m ≫= k) sh).2 = pr sh.
Proof.
  intros Hm Hk. unfold mbind, M_bind.
  destruct (m sh) as [[a|e] sh'] eqn:Heq; simpl in *; [|done].
  by rewrite Hk.
Qed.

Lemma kept_get_bind {A S} (pr : Shell → S) (k : Shell → M A) (sh : Shell) :
  pr (k sh sh).2 = pr sh → pr ((get ≫= k) sh).2 = pr sh.
Proof. done. Qed.

Lemma kept_forEachArg {S} (pr : Shell → S)
    (body : string → ShellCommandResult → M ShellCommandResult)
    (arguments : list string) :
  (∀ arg res sh, pr (body arg res sh).2 = pr sh) →
  ∀ res sh, pr (forEachArg body arguments res sh).2 = pr sh.
Proof.
  intros Hbody. induction arguments as [|arg rest IH]; intros res sh; simpl; [done|].
  apply kept_bind; [apply Hbody | intros; apply IH].
Qed.

Lemma outputElement_newFile (filepath : list string) (filetype : string) (sh : Shell) :
  outputElement (newFile filepath filetype sh).2 = outputElement sh.
Proof.
  unfold newFile, findFromCurrent, get, lift, deref, modify, mbind, M_bind, mret, M_ret.
  destruct (length filepath =? 1).
  - destruct (store sh !! currentDir sh) as [dobj|]; simpl; [|done].
    by destruct (pushChild _ dobj).
  - destruct (findFile _ _ _ _ _) as [[d|]|e]; simpl; try done.
    destruct (store sh !! d) as [dobj|]; simpl; [|done].
    by destruct (pushChild _ dobj).
Qed.

Lemma outputElement_writeContents (pattern : string) (file : ref) (out : list string)
    (sh : Shell) :
  outputElement (writeContents pattern file out sh).2 = outputElement sh.
Proof.
  unfold writeContents, get, lift, deref, modify, mbind, M_bind.
  destruct (String.eqb pattern ">"); simpl; [done|].
  destruct (store sh !! file) as [f|]; simpl; [|done].
  by destruct (contents f).
Qed.

(** One step through a computation that does not assign [pr]. *)
Ltac kept_step pr :=
  lazymatch goal with
  | |- pr ((mret _) _).2 = _ => done
  | |- pr ((get ≫= _) _).2 = _ => apply (kept_get_bind pr)
  | |- pr ((findFromCurrent _ _) _).2 = _ => done
  | |- outputElement ((newFile _ _) _).2 = _ => apply outputElement_newFile
  | |- outputElement ((writeContents _ _ _) _).2 = _ => apply outputElement_writeContents
  | |- pr (getPS1String _).2 = _ =>
      unfold getPS1String, get, lift, deref, mbind, M_bind;
      simpl; by destruct (_ !! _)
  | |- pr ((lift _) _).2 = _ => done
  | |- pr ((modify _) _).2 = _ => done
  | |- pr ((forEachArg _ _ _) _).2 = _ =>
      apply (kept_forEachArg pr); intros ? ? ?
  | |- pr ((_ ≫= _) _).2 = _ => apply (kept_bind pr); [| intros ? ?]
  | |- pr ((match ?x with _ => _ end) _).2 = _ => destruct x
  | |- pr ((if ?b then _ else _) _).2 = _ => destruct b
  end.

(** Of the commands only [clear] touches the output element, and it
    empties it. *)
Lemma dispatch_output (c : ShellCommand) (sh : Shell) :
  outputElement (dispatch c sh).2 =
  if String.eqb (command c) "clear" then [] else outputElement sh.
Proof.
  unfold dispatch. destruct (String.eqb (command c) "clear"); [done|].
  repeat (match goal with
          | |- outputElement ((if ?b then _ else _) _).2 = _ => destruct b
          end);
    [unfold pwd | unfold whoami | unfold cd | unfold ls | unfold cat
     | unfold touch | unfold mkdir | unfold echo | unfold vi | ];
    repeat kept_step outputElement.
Qed.

Lemma storeOutput_output (pattern filepath : string) (res : ShellCommandResult)
    (sh : Shell) :
  outputElement (storeOutput pattern filepath res sh).2 = outputElement sh.
Proof. unfold storeOutput. repeat kept_step outputElement. Qed.

Lemma redirect_output (line pattern : string) (sh : Shell) :
  outputElement (redirect executeCommand line pattern sh).2 =
  outputElement (executeCommand (newInputOf line pattern) sh).2.
Proof.
  unfold redirect.
  destruct (afterSymbolOf line pattern) as [|filepath rest] eqn:Hafter.
  { pose proof (afterSymbolOf_not_nil line pattern) as Hlen.
    rewrite Hafter in Hlen. simpl in Hlen. lia. }
  unfold mbind, M_bind.
  destruct (executeCommand (newInputOf line pattern) sh) as [[res|e] sh1]; [|done].
  apply storeOutput_output.
Qed.

(** Interpreting a line prints nothing: it leaves the output element as
    it is, or empty when the line comes to run [clear]. *)
Lemma executeCommand_output (line : string) (sh : Shell) :
  outputElement (after line sh) =
  if clearsScreen line then [] else outputElement sh.
Proof.
  unfold after. remember (String.length line) as n eqn:Hn. revert line Hn sh.
  induction (lt_wf n) as [n _ IH]. intros line -> sh.
  rewrite executeCommand_eq, clearsScreen_eq.
  destruct (Js.includes line ">>") eqn:Hpp.
  { rewrite redirect_output. eapply IH; [|done]. by apply newInputOf_shorter. }
  destruct (Js.includes line ">") eqn:Hp.
  { rewrite redirect_output. eapply IH; [|done]. by apply newInputOf_shorter. }
  cbv zeta.
  destruct (negb _) eqn:Hvalid; [|apply dispatch_output].
  destruct (String.eqb_spec (command (newShellCommand line)) "clear") as [Hc|]; [|done].
  by rewrite Hc in Hvalid.
Qed.

Section OutputFacts.

Variable getContentsByTypes :
  list FileObject → FileObject → ValidTypes → Completion (list ref).

(** X28.  Interpreting a line prints nothing itself; the printing is
    done by the Enter key.  After Enter on a line that is not blank and
    whose execution, in the session with the prompt line printed and the
    line in the history, returns a result, the output element is what it
    was, followed by the prompt with the line and by that result,
    rendered; unless the line comes to run [clear], in which case it is
    the rendered result alone, the echoed line being wiped with the
    rest. *)
Theorem enter_prints (sh : Shell) (ps1 : string) (res : ShellCommandResult) :
  Js.hasNonSpace (inputString sh) = true →
  (getPS1String sh).1 = Normal ps1 →
  let echoed := Line (ps1 +:+ Js.replaceFirstSpace "&nbsp;" (inputString sh)) in
  let prepared :=
    set_bashHistory (bashHistory sh ++ [inputString sh])
      (set_outputElement (outputElement sh ++ [echoed]) (set_tabPressed false sh)) in
  resultOf (inputString sh) prepared = Normal res →
  outputElement (shellKeystroke getContentsByTypes enterKey sh).2 =
    (if clearsScreen (inputString sh) then []
     else outputElement sh ++ [echoed]) ++ [Rendered res].
Proof.
  intros Hline Hps1 echoed prepared Hres.
  pose proof (executeCommand_output (inputString sh) prepared) as Hout.
  unfold resultOf in Hres. unfold after in Hout.
  change (shellKeystroke getContentsByTypes enterKey sh)
    with (handleEnter (set_tabPressed false sh)).
  unfold handleEnter, getPS1String, print, get, lift, modify, deref,
    mbind, M_bind, mret, M_ret in *.
  simpl in *. rewrite Hline. simpl.
  destruct (store sh !! currentDir sh); simpl in *; [|done].
  injection Hps1 as <-. fold echoed. fold prepared.
  destruct (executeCommand (inputString sh) prepared) as [[res'|e] sh']; [|done].
  simpl in *. injection Hres as ->. by rewrite Hout.
Qed.

End OutputFacts.

(** Witness for X28: Enter on [clear > log] with an earlier line on the
    screen; the inner [clear] wipes the screen, and the empty result of
    the redirection is all that is shown. *)
Lemma enter_prints_witness :
  let sh := set_inputString "clear > log"
              (set_outputElement [Line "earlier"] freshShell) in
  outputElement (shellKeystroke listByTypes enterKey sh).2 = [Rendered emptyResult].
Proof.
  intros sh. exact (enter_prints listByTypes sh _ emptyResult eq_refl eq_refl eq_refl).
Defined.

(** * Redirection and creation in general *)

(** ** Lines of the form [inner > n] and [inner >> n] *)

Lemma append_assoc (s t u : string) : (s +:+ t) +:+ u = s +:+ (t +:+ u).
Proof.
  induction s as [|c s IH]; [done|].
  change (String c ((s +:+ t) +:+ u) = String c (s +:+ (t +:+ u))). by rewrite IH.
Qed.

Lemma append_nil_r (s : string) : s +:+ "" = s.
Proof.
  induction s as [|c s IH]; [done|].
  change (String c (s +:+ "") = String c s). by rewrite IH.
Qed.

Lemma drop_str_app (s t : string) : Js.drop_str (String.length s) (s +:+ t) = t.
Proof. induction s as [|c s IH]; simpl; [by destruct t | done]. Qed.

(** The first occurrence of a pattern that starts with [c], behind a
    text without [c]. *)
Lemma search_first (c : ascii) (pat s t : string) :
  noneOf [c] s = true → String.prefix pat t = true →
  Js.search (String c pat) (s +:+ String c t) = Some (String.length s).
Proof.
  intros Hs Hp. induction s as [|a s IH]; rewrite JsFacts.search_eq.
  - change (String.prefix (String c pat) ("" +:+ String c t))
      with (if ascii_dec c c then String.prefix pat t else false).
    destruct (ascii_dec c c); [by rewrite Hp | done].
  - simpl in Hs. apply andb_prop in Hs as [Ha Hs]. rewrite orb_false_r in Ha.
    apply negb_true_iff in Ha.
    change (String.prefix (String c pat) (String a s +:+ String c t))
      with (if ascii_dec c a then String.prefix pat (s +:+ String c t) else false).
    destruct (ascii_dec c a) as [->|]; [by rewrite Ascii.eqb_refl in Ha|].
    change (String a s +:+ String c t) with (String a (s +:+ String c t)).
    cbv iota. by rewrite IH.
Qed.

(** A single [c] between texts without [c] is no occurrence of [cc]. *)
Lemma search_double (c : ascii) (s t : string) :
  noneOf [c] s = true → noneOf [c] t = true →
  Js.search (String c (String c "")) (s +:+ String c t) = None.
Proof.
  intros Hs Ht. induction s as [|a s IH]; rewrite JsFacts.search_eq.
  - change (String.prefix (String c (String c "")) ("" +:+ String c t))
      with (if ascii_dec c c then String.prefix (String c "") t else false).
    change ("" +:+ String c t) with (String c t). cbv iota.
    rewrite (PlainFacts.search_noneOf c (String c "") t Ht).
    destruct (ascii_dec c c); [|done].
    destruct t as [|b t]; [done|].
    change (String.prefix (String c "") (String b t))
      with (if ascii_dec c b then String.prefix "" t else false).
    destruct (ascii_dec c b) as [->|]; [|done].
    simpl in Ht. by rewrite Ascii.eqb_refl in Ht.
  - simpl in Hs. apply andb_prop in Hs as [Ha Hs]. rewrite orb_false_r in Ha.
    apply negb_true_iff in Ha.
    change (String.prefix (String c (String c "")) (String a s +:+ String c t))
      with (if ascii_dec c a
            then String.prefix (String c "") (s +:+ String c t) else false).
    destruct (ascii_dec c a) as [->|]; [by rewrite Ascii.eqb_refl in Ha|].
    change (String a s +:+ String c t) with (String a (s +:+ String c t)).
    cbv iota. by rewrite IH.
Qed.

Lemma split_trailing (sep : ascii) (s : string) :
  Js.split sep (s +:+ String sep "") = Js.split sep s ++ [""].
Proof.
  induction s as [|c s IH]; simpl.
  - by rewrite Ascii.eqb_refl.
  - rewrite IH. destruct (Ascii.eqb c sep); [done|].
    pose proof (JsFacts.split_not_nil sep s) as Hne.
    by destruct (Js.split sep s).
Qed.

Lemma tokens_trailing_space (s : string) : tokens (s +:+ " ") = tokens s.
Proof.
  unfold tokens. change (s +:+ " ") with (s +:+ String " " "").
  rewrite split_trailing, filter_app.
  rewrite (filter_cons _ ""), decide_False by (by intros H; apply H).
  by rewrite filter_nil, app_nil_r.
Qed.

(** The commands read the command name and the arguments only. *)
Lemma dispatch_ext (c1 c2 : ShellCommand) :
  command c1 = command c2 → args c1 = args c2 → dispatch c1 = dispatch c2.
Proof.
  intros Hc Ha. unfold dispatch, cd, ls, cat, touch, mkdir, echo, vi.
  by rewrite Hc, Ha.
Qed.

(** A space at the end of a line without [>] is of no consequence. *)
Lemma executeCommand_trailing_space (s : string) (sh : Shell) :
  noneOf [">"%char] s = true →
  executeCommand (s +:+ " ") sh = executeCommand s sh.
Proof.
  intros Hs.
  assert (noneOf [">"%char] (s +:+ " ") = true) as Hs'
    by (by rewrite PlainFacts.noneOf_app, Hs).
  rewrite !executeCommand_eq.
  rewrite !PlainFacts.includes_noneOf by done. cbv zeta.
  assert (command (newShellCommand (s +:+ " ")) = command (newShellCommand s) ∧
          args (newShellCommand (s +:+ " ")) = args (newShellCommand s)) as [Hc Ha].
  { unfold newShellCommand. rewrite tokens_trailing_space.
    by destruct (tokens s). }
  rewrite Hc. destruct (negb _); [done|].
  by rewrite (dispatch_ext _ (newShellCommand s)).
Qed.

(** What [redirect] makes of a line [inner op n]: the operator is found
    behind [inner] and a space, the target is [n], and the inner line is
    [inner] with that space. *)
Lemma redirect_line_parts (inner op n : string) :
  noneOf [">"%char] inner = true → op = ">" ∨ op = ">>" →
  noneOf [" "%char] n = true → noneOf [">"%char] n = true → Js.trim n = n →
  let line := inner +:+ " " +:+ op +:+ " " +:+ n in
  Js.includes line op = true ∧
  (op = ">" → Js.includes line ">>" = false) ∧
  afterSymbolOf line op = [n] ∧
  newInputOf line op = inner +:+ " ".
Proof.
  intros Hinner Hop Hspace Hgt Htrim line.
  assert (noneOf [">"%char] (inner +:+ " ") = true) as Hhead
    by (by rewrite PlainFacts.noneOf_app, Hinner).
  assert (∃ pat, op = String ">" pat ∧ (pat = "" ∨ pat = ">")) as (pat & -> & Hpat).
  { destruct Hop as [-> | ->]; eexists; eauto. }
  assert (line = (inner +:+ " ") +:+ String ">" (pat +:+ " " +:+ n)) as Hline.
  { unfold line. rewrite append_assoc. by destruct Hpat as [-> | ->]. }
  assert (Js.search (String ">" pat) line = Some (String.length (inner +:+ " ")))
    as Hsearch.
  { rewrite Hline. apply search_first; [done|].
    destruct Hpat as [-> | ->]; [apply prefix_empty|].
    change (String.prefix ">" (">" +:+ " " +:+ n))
      with (if ascii_dec ">" ">" then String.prefix "" (" " +:+ n) else false).
    by destruct (ascii_dec ">" ">"). }
  assert (Js.trim (Js.sliceFrom line
            (Z.of_nat (String.length (inner +:+ " ")) +
             Z.of_nat (String.length (String ">" pat)))) = n) as Hrest.
  { rewrite <- Nat2Z.inj_add, sliceFrom_drop.
    assert (line = ((inner +:+ " ") +:+ String ">" pat) +:+ (" " +:+ n)) as ->.
    { rewrite Hline.
      by rewrite (append_assoc (inner +:+ " ") (String ">" pat) (" " +:+ n)). }
    rewrite <- JsFacts.length_append, drop_str_app.
    transitivity (Js.trim n); [reflexivity | done]. }
  split; [unfold Js.includes; by rewrite Hsearch|].
  split.
  { intros [= ->]. unfold Js.includes. rewrite Hline. rewrite search_double; [done..|].
    change ("" +:+ " " +:+ n) with (" " +:+ n).
    by rewrite PlainFacts.noneOf_app, Hgt. }
  assert (afterSymbolOf line (String ">" pat) = [n]) as Hafter.
  { unfold afterSymbolOf, Js.indexOf. rewrite Hsearch, Hrest.
    by apply PlainFacts.split_noneOf. }
  split; [done|].
  unfold newInputOf. rewrite Hafter. cbn [length Nat.eqb Js.join].
  unfold Js.indexOf. rewrite Hsearch, append_nil_r.
  rewrite slice_prefix_take by (rewrite Hline, !JsFacts.length_append; lia).
  rewrite Hline. apply take_str_app.
Qed.

(** A line [inner op n], for an inner line without [>] and a target
    that is one trimmed token, runs [inner] from the session as it is,
    once; where that throws, the throw is the outcome, and where it
    returns, its output is then stored under [n] in the session that
    [inner] left. *)
Lemma redirect_plain_line (inner op n : string) (sh : Shell) :
  noneOf [">"%char] inner = true → op = ">" ∨ op = ">>" →
  noneOf [" "%char] n = true → noneOf [">"%char] n = true → Js.trim n = n →
  executeCommand (inner +:+ " " +:+ op +:+ " " +:+ n) sh =
  match (executeCommand inner sh).1 with
  | Normal res => storeOutput op n res (executeCommand inner sh).2
  | Throw e => (Throw e, (executeCommand inner sh).2)
  end.
Proof.
  intros Hinner Hop Hspace Hgt Htrim.
  destruct (redirect_line_parts inner op n Hinner Hop Hspace Hgt Htrim)
    as (Hinc & Hno & Hafter & Hnew).
  rewrite executeCommand_eq.
  assert ((if Js.includes (inner +:+ " " +:+ op +:+ " " +:+ n) ">>"
           then redirect executeCommand (inner +:+ " " +:+ op +:+ " " +:+ n) ">>" sh
           else if Js.includes (inner +:+ " " +:+ op +:+ " " +:+ n) ">"
                then redirect executeCommand (inner +:+ " " +:+ op +:+ " " +:+ n) ">" sh
                else let shellCommand :=
                       newShellCommand (inner +:+ " " +:+ op +:+ " " +:+ n) in
                     if negb (Js.arrIncludes validCommands (command shellCommand))
                     then (Normal (newResult (Arr [])
                             (Str (command shellCommand +:+ ": command not found"))
                             None), sh)
                     else dispatch shellCommand sh) =
          redirect executeCommand (inner +:+ " " +:+ op +:+ " " +:+ n) op sh) as ->.
  { destruct Hop as [-> | ->]; [by rewrite Hno, Hinc | by rewrite Hinc]. }
  unfold redirect. rewrite Hafter, Hnew. unfold mbind, M_bind.
  rewrite executeCommand_trailing_space by done.
  by destruct (executeCommand inner sh) as [[res|e] sh1].
Qed.

(** ** What storing the output changes *)




(** A text file found by name has lines. *)
Lemma childNamed_txt_lookup (st : list FileObject) (dir t : ref) (n : string) :
  childNamed st dir n (Some "txt") = Some t →
  ∃ nm p par c lm, st !! t = Some (TxtFile nm p par c lm).
Proof.
  intros (_ & _ & _ & _ & _ & Hm)%childNamed_elem.
  unfold namedChild in Hm. destruct (st !! t) as [f|]; [|done].
  destruct f as [|nm p par c lm]; [by rewrite andb_false_r in Hm|]. by eauto 6.
Qed.

(** Storing output under a name that is no special segment, in a
    well-formed session, returns, with the error lines it was given, and
    leaves the store described by [storedUnder]. *)
Lemma storeOutput_plain (sh : Shell) (pattern n : string) (res : ShellCommandResult) :
  wf sh = true → specialSegment n = false →
  storeOutput pattern n res sh =
  (Normal (mkResult [] (stdErr res) None),
   set_store (storedUnder sh pattern n (stdOut res)) sh).
Proof.
  intros Hwf Hn. unfold storedUnder.
  destruct (childNamed (store sh) (currentDir sh) n (Some "txt")) as [t|] eqn:Htxt.
  - destruct (childNamed_txt_lookup _ _ _ _ Htxt) as (nm & p & par & c & lm & Ht).
    rewrite (storeOutput_found _ _ _ _ _ _ _ _ _ _ Hwf Hn Htxt Ht). by rewrite Ht.
  - unfold storeOutput, mbind, M_bind.
    rewrite findFromCurrent_plain by done. simpl. rewrite Htxt.
    rewrite newFile_single by done. simpl.
    destruct (wf_currentDir_lookup sh Hwf) as (dobj & dobj' & Hd & Hpush).
    assert (storeWithNew sh n "txt" !! length (store sh) =
            Some (TxtFile n (fullPath dobj +:+ "/" +:+ n) (Some (currentDir sh)) []
                    (now sh))) as Hnew.
    { unfold storeWithNew. rewrite Hd, Hpush.
      pose proof (lookup_lt_Some _ _ _ Hd).
      rewrite list_lookup_insert_ne by lia.
      by rewrite lookup_app_r, Nat.sub_diag by lia. }
    unfold writeContents. destruct (String.eqb pattern ">"); [done|].
    unfold get, lift, deref, modify, mbind, M_bind, mret, M_ret. simpl.
    by rewrite Hnew.
Qed.

(** Storing output adds at most a text file named [n] to the children of
    the current directory and takes none away. *)
Lemma childrenNamed_storedUnder (sh : Shell) (pattern n : string) (out : list string)
    (m : string) (typeFilter : option string) :
  wf sh = true →
  childrenNamed (storedUnder sh pattern n out) (currentDir sh) m typeFilter =
  childrenNamed (store sh) (currentDir sh) m typeFilter ++
  (if String.eqb m n &&
      match typeFilter with Some t => String.eqb t "txt" | None => true end &&
      bool_decide (childNamed (store sh) (currentDir sh) n (Some "txt") = None)
   then [length (store sh)] else []).
Proof.
  intros Hwf. unfold storedUnder.
  destruct (childNamed (store sh) (currentDir sh) n (Some "txt")) as [t|] eqn:Htxt.
  - rewrite childrenNamed_alter by auto using keepsShape_setContents, wf_wfStore.
    rewrite bool_decide_eq_false_2 by done.
    by rewrite andb_false_r, app_nil_r.
  - pose proof (wf_storeWithNew sh n "txt" Hwf) as Hwf'.
    rewrite childrenNamed_alter
      by (auto using keepsShape_setContents; by apply wf_wfStore in Hwf').
    rewrite childrenNamed_storeWithNew by done.
    rewrite bool_decide_eq_true_2 by done. rewrite andb_true_r.
    by destruct typeFilter.
Qed.

Lemma wf_storedUnder (sh : Shell) (pattern n : string) (out : list string) :
  wf sh = true → specialSegment n = false →
  wf (set_store (storedUnder sh pattern n out) sh) = true.
Proof.
  intros Hwf Hn.
  pose proof (runsOk_storeOutput pattern n (mkResult out [] None) sh)
    as [(_ & _ & Hsteps) _].
  rewrite storeOutput_plain in Hsteps by done. by apply Hsteps.
Qed.

Lemma mkdir_plain_result (sh : Shell) (c : ShellCommand) (n : string) :
  wf sh = true → plainName n = true → args c = [n] →
  (mkdir c sh).1 = Normal emptyResult.
Proof.
  intros Hwf Hn Hargs. pose proof (plainName_parts n Hn) as (Hsp & _).
  unfold mkdir. rewrite Hargs. cbn [forEachArg].
  rewrite split_slash_plain by done.
  unfold mbind, M_bind. rewrite findFromCurrent_plain by done. simpl.
  destruct (childNamed _ _ n (Some "dir")); [done|].
  by rewrite newFile_single.
Qed.

(** ** The inner command of a redirect *)

(** C10 (as amended):  a line with a redirect operator runs its inner
    line first and once, from the session as it is; where that throws,
    the throw is the outcome, and otherwise the target is looked up or
    created, and written, in the session that the inner line left.
    Whatever this second half does and however it ends, it assigns the
    store only and keeps every object of it with its name, path, parent,
    kind, children and time stamp, and with its contents unless it is the
    target: all that the inner command did to the session and to the
    tree is still there, except what the redirection itself then writes
    into its target.  For a line [inner op n], where [inner] has no [>]
    and [n] is a plain name, the inner line is [inner] itself; so after
    [mkdir d > n] the directory [d] exists, once. *)
Theorem redirect_runs_inner_first :
  (∀ (line pattern : string) (sh : Shell),
     Js.includes line pattern = true →
     pattern = ">>" ∨ (pattern = ">" ∧ Js.includes line ">>" = false) →
     let inner := executeCommand (newInputOf line pattern) sh in
     ∃ filepath rest,
       afterSymbolOf line pattern = filepath :: rest ∧
       executeCommand line sh =
         match inner.1 with
         | Normal res => storeOutput pattern filepath res inner.2
         | Throw e => (Throw e, inner.2)
         end ∧
       ∃ st',
         after line sh = set_store st' inner.2 ∧
         persists (redirectTarget inner.2 filepath) (store inner.2) st') ∧
  (∀ (inner op n : string) (sh : Shell),
     noneOf [">"%char] inner = true → op = ">" ∨ op = ">>" →
     plainName n = true → Js.trim n = n →
     executeCommand (inner +:+ " " +:+ op +:+ " " +:+ n) sh =
       match resultOf inner sh with
       | Normal res => storeOutput op n res (after inner sh)
       | Throw e => (Throw e, after inner sh)
       end) ∧
  (∀ (d n : string) (sh : Shell),
     wf sh = true → plainName d = true → plainName n = true → Js.trim n = n →
     childNamed (store sh) (currentDir sh) d (Some "dir") = None →
     let sh' := after ("mkdir " +:+ d +:+ " > " +:+ n) sh in
     resultOf ("mkdir " +:+ d +:+ " > " +:+ n) sh = Normal emptyResult ∧
     currentDir sh' = currentDir sh ∧
     length (childrenNamed (store sh') (currentDir sh') d (Some "dir")) = 1).
Proof.
  split; [|split].
  - intros line pattern sh Hinc Hpat inner.
    assert (executeCommand line sh = redirect executeCommand line pattern sh) as Hexec.
    { rewrite executeCommand_eq. destruct Hpat as [->|[-> Hno]].
      - by rewrite Hinc.
      - by rewrite Hno, Hinc. }
    destruct (afterSymbolOf line pattern) as [|filepath rest] eqn:Hafter.
    { pose proof (afterSymbolOf_not_nil line pattern) as Hlen.
      rewrite Hafter in Hlen. simpl in Hlen. lia. }
    exists filepath, rest. split; [done|].
    assert (executeCommand line sh =
            match inner.1 with
            | Normal res => storeOutput pattern filepath res inner.2
            | Throw e => (Throw e, inner.2)
            end) as Heq.
    { rewrite Hexec. unfold redirect. rewrite Hafter. unfold mbind, M_bind.
      fold inner. by destruct inner as [[res|e] sh1]. }
    split; [done|]. unfold after. rewrite Heq.
    destruct inner as [[res|e] sh1]; simpl.
    + apply storeOutput_persists.
    + exists (store sh1). split; [by rewrite set_store_id | apply persists_refl].
  - intros inner op n sh Hinner Hop Hn Htrim.
    pose proof (plainName_parts _ Hn) as (_ & _ & Hspace & _ & Hgt).
    by apply redirect_plain_line.
  - intros d n sh Hwf Hd Hn Htrim Hnone sh'.
    pose proof (plainName_parts _ Hn) as (Hspecial & _ & Hspace & _ & Hgt).
    pose proof (plainName_parts _ Hd) as (_ & _ & _ & _ & Hdgt).
    assert (noneOf [">"%char] ("mkdir " +:+ d) = true) as Hinner
      by (by rewrite PlainFacts.noneOf_app, Hdgt).
    pose proof (redirect_plain_line ("mkdir " +:+ d) ">" n sh Hinner
                  (or_introl eq_refl) Hspace Hgt Htrim) as Hline.
    change (("mkdir " +:+ d) +:+ " " +:+ ">" +:+ " " +:+ n)
      with ("mkdir " +:+ d +:+ " > " +:+ n) in Hline.
    assert (executeCommand ("mkdir " +:+ d) sh =
            (Normal emptyResult, set_store (storeWithNew sh d "dir") sh)) as Hmkdir.
    { pose proof (after_mkdir sh d Hwf Hd) as Hstate. unfold after in Hstate.
      apply childNamed_childrenNamed_nil in Hnone. rewrite Hnone in Hstate.
      pose proof (mkdir_plain_result sh
                    (mkShellCommand ("mkdir " +:+ d) "mkdir" [d]) d Hwf Hd eq_refl)
        as Hres.
      change ("mkdir " +:+ d) with ("mkdir" +:+ " " +:+ d) in *.
      rewrite (executeCommand_plain "mkdir" d) in * by done.
      change (dispatch ?c sh) with (mkdir c sh) in *.
      destruct (mkdir _ sh) as [r s]. simpl in *. by subst. }
    rewrite Hmkdir in Hline. simpl in Hline.
    pose proof (wf_storeWithNew sh d "dir" Hwf) as Hwf1.
    rewrite storeOutput_plain in Hline by done.
    unfold sh', resultOf, after. rewrite Hline. simpl.
    split; [done|]. split; [done|].
    rewrite (childrenNamed_storedUnder (set_store (storeWithNew sh d "dir") sh))
      by done.
    change (String.eqb "dir" "txt") with false.
    rewrite andb_false_r. cbn [andb]. rewrite app_nil_r. cbn [store currentDir set_store].
    rewrite childrenNamed_storeWithNew by done.
    apply childNamed_childrenNamed_nil in Hnone.
    by rewrite Hnone, String.eqb_refl.
Qed.

(** Witness for C10: [mkdir d >> .] at start-up, where the inner
    [mkdir d] creates [d] and the write to the target ['.'], the current
    directory, which has no contents to append to, throws;
    [mkdir d >> log], whose inner line is [mkdir d]; and
    [mkdir d > log]. *)
Lemma redirect_runs_inner_first_witness :
  (let inner := executeCommand (newInputOf "mkdir d >> ." ">>") freshShell in
   ∃ filepath rest,
     afterSymbolOf "mkdir d >> ." ">>" = filepath :: rest ∧
     executeCommand "mkdir d >> ." freshShell =
       match inner.1 with
       | Normal res => storeOutput ">>" filepath res inner.2
       | Throw e => (Throw e, inner.2)
       end ∧
     ∃ st',
       after "mkdir d >> ." freshShell = set_store st' inner.2 ∧
       persists (redirectTarget inner.2 filepath) (store inner.2) st') ∧
  executeCommand "mkdir d >> log" freshShell =
    storeOutput ">>" "log" emptyResult (after "mkdir d" freshShell) ∧
  (let sh' := after "mkdir d > log" freshShell in
   resultOf "mkdir d > log" freshShell = Normal emptyResult ∧
   currentDir sh' = 0 ∧
   length (childrenNamed (store sh') (currentDir sh') "d" (Some "dir")) = 1).
Proof.
  destruct redirect_runs_inner_first as (Hgeneral & Hinner & Hmkdir).
  split; [|split].
  - exact (Hgeneral "mkdir d >> ." ">>" freshShell eq_refl (or_introl eq_refl)).
  - exact (Hinner "mkdir d" ">>" "log" freshShell eq_refl (or_intror eq_refl)
             eq_refl eq_refl).
  - exact (Hmkdir "d" "log" freshShell eq_refl eq_refl eq_refl eq_refl eq_refl).
Defined.

(** C10, counterexample: in [echo a > f > f] the inner line is
    [echo a > f], which stores the line [a] in [f]; the redirection of
    its (empty) output to [f] then empties the file, so that this effect
    of the inner command is gone afterwards. *)
Lemma redirect_overwrites_inner_counterexample :
  newInputOf "echo a > f > f" ">" = "echo a > f" ∧
  ∃ f f',
    store (after "echo a > f" freshShell) !! 1 = Some f ∧
    store (after "echo a > f > f" freshShell) !! 1 = Some f' ∧
    contents f = Some ["a"] ∧ contents f' = Some [] ∧
    contents f' ≠ contents f.
Proof.
  split; [reflexivity|].
  exists (TxtFile "f" "~/f" (Some 0) ["a"] 0), (TxtFile "f" "~/f" (Some 0) [] 0).
  repeat split; try reflexivity. discriminate.
Qed.

(** ** Redirecting and reading back *)








(** ** Names of siblings *)















(** Why the names have to be plain: at the root, where ['..'] resolves
    to nothing, [touch ..] creates a text file named ['..'] each time it
    is run. *)
Lemma special_name_created_twice :
  childrenNamed (store (afterAll ["touch .."; "touch .."] freshShell)) 0 ".."
    (Some "txt") = [1; 2].
Proof. reflexivity. Qed.
